(** * The direct-lighting stage of the split path-tracing kernel

    A shallow embedding of [kernel_direct_lighting]
    (src/kernel/split/kernel_direct_lighting.h) and of the queue substrate
    it runs on, with the properties the specification states about them.

    The kernel is one function executed by every work-item of a grid.  It
    is embedded in three layers:
    - the code of one work-item between the first barrier and the call of
      [enqueue_ray_index_local] (lines 58-143) is the function
      [kernel_direct_lighting];
    - the counter reset of lines 52-56, the barriers and the two-level
      compaction behind [enqueue_ray_index_local] are the transitions of a
      machine whose state holds the device memory, the group-local memory
      and the private variables of every work-item;
    - a round of the stage is a sequence of such transitions, in any order
      the barriers and the atomicity of the counters allow. *)

From Stdlib Require Import ZArith Lia FunctionalExtensionality.
From stdpp Require Import base tactics option list.

(** ** Build configuration *)

(** The three preprocessor symbols the kernel tests. *)
Record BuildFlags := {
  __COMPUTE_DEVICE_GPU__ : bool;
  __EMISSION__ : bool;
  __OBJECT_MOTION__ : bool
}.

(** ** Work-items *)

(** The identity of a work-item: what [ccl_local_id], [ccl_global_id] and
    [ccl_global_size] return in dimensions 0 and 1. *)
Record WorkItem := {
  local_id : Z * Z;
  global_id : Z * Z;
  global_size : Z * Z
}.

Definition dim (d : Z) (p : Z * Z) : Z := if (d =? 0)%Z then p.1 else p.2.

Definition ccl_local_id (wi : WorkItem) (d : Z) : Z := dim d (local_id wi).
Definition ccl_global_id (wi : WorkItem) (d : Z) : Z := dim d (global_id wi).
Definition ccl_global_size (wi : WorkItem) (d : Z) : Z := dim d (global_size wi).

(** The conversion of an index to the 32-bit [int] it is stored in: the low
    32 bits, in two's complement. *)
Definition int_of (z : Z) : Z :=
  ((z + 2 ^ 31) mod 2 ^ 32 - 2 ^ 31)%Z.

(** Line 59: the linear index of a work-item in the grid, an [int]; it is
    the argument of the fetch. *)
Definition linear_index (wi : WorkItem) : Z :=
  int_of (ccl_global_id wi 1 * ccl_global_size wi 0 + ccl_global_id wi 0).

(** ** Queues *)

(** The queues the kernel and its header comment name. *)
Inductive QueueNumber :=
  | QUEUE_ACTIVE_AND_REGENERATED_RAYS
  | QUEUE_HITBG_BUFF_UPDATE_TOREGEN_RAYS
  | QUEUE_SHADOW_RAY_CAST_DL_RAYS.

Global Instance QueueNumber_eq_dec : EqDecision QueueNumber.
Proof. solve_decision. Defined.

(** C truth value of an integer. *)
Definition c_bool (z : Z) : bool := negb (z =? 0)%Z.

(** Array update. *)
Definition upd {A} (f : Z → A) (i : Z) (x : A) : Z → A :=
  fun j => if (j =? i)%Z then x else f j.

Definition updn {A} (f : nat → A) (i : nat) (x : A) : nat → A :=
  fun j => if (j =? i)%nat then x else f j.

Definition updq {A} (f : QueueNumber → A) (q : QueueNumber) (x : A)
  : QueueNumber → A :=
  fun q' => if decide (q' = q) then x else f q'.

(** ** External collaborators

    What the kernel uses and this file does not define: the opaque data
    types, the named constants, and the sampling and shading routines, with
    the signatures of section 6 of the specification.  The routines are
    functions of their arguments; [kg] is the calling work-item's handle.
    The header comment of the kernel lists the generator, the path state
    and the shading data among its inputs only, so the routines return
    their results and leave these as they are; [sd_DL_shadow] is working
    storage of [direct_emission], and what it holds after the call is not
    followed. *)
Class Collaborators := {
  KernelGlobals : Type;
  RNG : Type;
  PathState : Type;
  ShaderData : Type;
  LightSample : Type;
  Ray : Type;
  BsdfEval : Type;
  float : Type;
  float3 : Type;
  (* constants *)
  QUEUE_EMPTY_SLOT : Z;
  RAY_ACTIVE : Z;
  RAY_SHADOW_RAY_CAST_DL : Z;
  SD_BSDF_HAS_EVAL : Z;
  PRNG_LIGHT : Z;
  PRNG_LIGHT_U : Z;
  (* how a state word is compared with a state constant *)
  is_state : Z → Z → bool;
  (* kernel_data.integrator.use_direct_light *)
  use_direct_light : KernelGlobals → Z;
  (* state->bounce *)
  bounce : PathState → Z;
  (* ccl_fetch(sd, flag), ccl_fetch(sd, time), ccl_fetch(sd, P): the macro
     is expanded in the work-item's scope *)
  ccl_fetch_flag : WorkItem → ShaderData → Z;
  ccl_fetch_time : WorkItem → ShaderData → float;
  ccl_fetch_P : WorkItem → ShaderData → float3;
  path_state_rng_1D : KernelGlobals → RNG → PathState → Z → float;
  path_state_rng_2D : KernelGlobals → RNG → PathState → Z → float * float;
  path_state_rng_light_termination : KernelGlobals → RNG → PathState → float;
  (* light_sample(kg, t, u, v, time, P, bounce, &ls) *)
  light_sample :
    KernelGlobals → float → float → float → float → float3 → Z →
    option LightSample;
  (* direct_emission(kg, sd, sd_DL_shadow, &ls, state, &light_ray, &L_light,
     &is_lamp, terminate); of light_ray only the time field can be set on
     entry *)
  direct_emission :
    KernelGlobals → ShaderData → ShaderData → LightSample → PathState →
    option float → float → option (Ray * BsdfEval * bool)
}.

Section Stage.

Context `{X : Collaborators}.
Variable flags : BuildFlags.

(** ** Device memory *)

(** [kernel_split_state]: the ray slot store and the queue cells. *)
Record SplitState := {
  ray_state : Z → Z;
  rng : Z → RNG;
  path_state : Z → PathState;
  sd : ShaderData;
  sd_DL_shadow : ShaderData;
  light_ray : Z → Ray;
  bsdf_eval : Z → BsdfEval;
  is_lamp : Z → bool;
  queue_data : QueueNumber → nat → Z
}.

(** [kernel_split_params]: the capacity of a queue and the length counters. *)
Record SplitParams := {
  queue_size : nat;
  queue_index : QueueNumber → nat
}.

Record Device := {
  kernel_split_state : SplitState;
  kernel_split_params : SplitParams
}.

Definition set_light_ray (s : SplitState) (v : Z → Ray) : SplitState :=
  {| ray_state := ray_state s; rng := rng s; path_state := path_state s;
     sd := sd s; sd_DL_shadow := sd_DL_shadow s; light_ray := v;
     bsdf_eval := bsdf_eval s; is_lamp := is_lamp s;
     queue_data := queue_data s |}.

Definition set_bsdf_eval (s : SplitState) (v : Z → BsdfEval) : SplitState :=
  {| ray_state := ray_state s; rng := rng s; path_state := path_state s;
     sd := sd s; sd_DL_shadow := sd_DL_shadow s; light_ray := light_ray s;
     bsdf_eval := v; is_lamp := is_lamp s;
     queue_data := queue_data s |}.

Definition set_is_lamp (s : SplitState) (v : Z → bool) : SplitState :=
  {| ray_state := ray_state s; rng := rng s; path_state := path_state s;
     sd := sd s; sd_DL_shadow := sd_DL_shadow s; light_ray := light_ray s;
     bsdf_eval := bsdf_eval s; is_lamp := v;
     queue_data := queue_data s |}.

Definition set_ray_state (s : SplitState) (v : Z → Z) : SplitState :=
  {| ray_state := v; rng := rng s; path_state := path_state s;
     sd := sd s; sd_DL_shadow := sd_DL_shadow s; light_ray := light_ray s;
     bsdf_eval := bsdf_eval s; is_lamp := is_lamp s;
     queue_data := queue_data s |}.

Definition set_queue_data (s : SplitState) (v : QueueNumber → nat → Z)
  : SplitState :=
  {| ray_state := ray_state s; rng := rng s; path_state := path_state s;
     sd := sd s; sd_DL_shadow := sd_DL_shadow s; light_ray := light_ray s;
     bsdf_eval := bsdf_eval s; is_lamp := is_lamp s;
     queue_data := v |}.

Definition set_split_state (d : Device) (s : SplitState) : Device :=
  {| kernel_split_state := s; kernel_split_params := kernel_split_params d |}.

(** ** Ray-state macros *)

(** Modelled from the spec: the macro [IS_STATE] is not in
    kernel_direct_lighting.h.  Section 4.1 gives [is_state(index, flag)] as
    a test on the state of the slot; how the state word is compared with
    the constant is the parameter [is_state]. *)
Definition IS_STATE (ray_state : Z → Z) (ray_index state : Z) : bool :=
  is_state (ray_state ray_index) state.

(** Modelled from the spec: the macro [ADD_RAY_FLAG] is not in
    kernel_direct_lighting.h.  Section 4.1 gives [add_state_flag(index,
    flag)] as the logical OR of the flag into the slot's state word. *)
Definition ADD_RAY_FLAG (ray_state : Z → Z) (ray_index flag : Z) : Z → Z :=
  upd ray_state ray_index (Z.lor (ray_state ray_index) flag).

(** ** Fetching from the input queue *)

(** Modelled from the spec: [get_ray_index] is not in
    kernel_direct_lighting.h.  Section 4.2: the work-item requests one slot index from the designated
    queue; an exhausted queue yields the EMPTY sentinel; the queue is only
    read.  The cell of the work-item is the one at its linear index; a
    cell past the capacity of the queue reads as EMPTY.  The last argument
    is 0 at the only call and is not described; it is not used. *)
Definition get_ray_index (kg : KernelGlobals) (thread_index : Z)
    (queue_number : QueueNumber) (queues : QueueNumber → nat → Z)
    (queuesize : nat) (opt : Z) : Z :=
  if ((0 <=? thread_index) && (thread_index <? Z.of_nat queuesize))%Z
  then queues queue_number (Z.to_nat thread_index)
  else QUEUE_EMPTY_SLOT.

(** ** The code of one work-item *)

(** Lines 93-105: the random numbers drawn from the slot's generator and
    the light sampled with them; the result carries [terminate] along. *)
Definition draw_light_sample (kg : KernelGlobals) (wi : WorkItem)
    (st : SplitState) (ray_index : Z) : option (LightSample * float) :=
  let state := path_state st ray_index in
  let sd := sd st in
  let rng := rng st ray_index in
  let light_t := path_state_rng_1D kg rng state PRNG_LIGHT in
  let '(light_u, light_v) := path_state_rng_2D kg rng state PRNG_LIGHT_U in
  let terminate := path_state_rng_light_termination kg rng state in
  match light_sample kg light_t light_u light_v
          (ccl_fetch_time wi sd) (ccl_fetch_P wi sd) (bounce state) with
  | Some ls => Some (ls, terminate)
  | None => None
  end.

(** Lines 107-114: the shadow ray, the BSDF evaluation and the lamp flag
    [direct_emission] computes for a light sample, unless it rejects it. *)
Definition eval_direct_emission (kg : KernelGlobals) (wi : WorkItem)
    (st : SplitState) (ray_index : Z) (ls : LightSample) (terminate : float)
    : option (Ray * BsdfEval * bool) :=
  let state := path_state st ray_index in
  let sd := sd st in
  let light_ray_time :=
    if __OBJECT_MOTION__ flags then Some (ccl_fetch_time wi sd) else None in
  direct_emission kg sd (sd_DL_shadow st) ls state light_ray_time terminate.

(** Lines 89-90: the condition of the direct-lighting branch. *)
Definition bsdf_has_eval (wi : WorkItem) (st : SplitState) : bool :=
  c_bool (Z.land (ccl_fetch_flag wi (sd st)) SD_BSDF_HAS_EVAL).

(** Lines 118-123: the writes of an accepted sample. *)
Definition store_shadow_ray (d : Device) (ray_index : Z)
    (r : Ray * BsdfEval * bool) : Device :=
  let '(light_ray', L_light, is_lamp') := r in
  let st := kernel_split_state d in
  let st := set_light_ray st (upd (light_ray st) ray_index light_ray') in
  let st := set_bsdf_eval st (upd (bsdf_eval st) ray_index L_light) in
  let st := set_is_lamp st (upd (is_lamp st) ray_index is_lamp') in
  let st := set_ray_state st
    (ADD_RAY_FLAG (ray_state st) ray_index RAY_SHADOW_RAY_CAST_DL) in
  set_split_state d st.

(** Lines 83-128: the direct-lighting block, run on a fetched slot.
    Returns the memory and the value of [enqueue_flag]. *)
Definition direct_lighting (kg : KernelGlobals) (wi : WorkItem)
    (d : Device) (ray_index : Z) (enqueue_flag : Z) : Device * Z :=
  let st := kernel_split_state d in
  if IS_STATE (ray_state st) ray_index RAY_ACTIVE then
    if __EMISSION__ flags then
      if c_bool (use_direct_light kg) && bsdf_has_eval wi st then
        match draw_light_sample kg wi st ray_index with
        | Some (ls, terminate) =>
            match eval_direct_emission kg wi st ray_index ls terminate with
            | Some r => (store_shadow_ray d ray_index r, 1%Z)
            | None => (d, enqueue_flag)
            end
        | None => (d, enqueue_flag)
        end
      else (d, enqueue_flag)
    else (d, enqueue_flag)
  else (d, enqueue_flag).

(** The arguments of a call of [enqueue_ray_index_local]; the counter and
    the queue arrays it also receives are the shared locations. *)
Record EnqueueCall := {
  call_ray_index : Z;
  call_queue_number : QueueNumber;
  call_enqueue_flag : Z;
  call_queuesize : nat
}.

(** Lines 59-64: the slot index the work-item fetches. *)
Definition fetch_ray_index (kg : KernelGlobals) (wi : WorkItem) (d : Device)
  : Z :=
  let ray_index := linear_index wi in
  get_ray_index kg ray_index QUEUE_ACTIVE_AND_REGENERATED_RAYS
    (queue_data (kernel_split_state d))
    (queue_size (kernel_split_params d)) 0.

(** Lines 58-143, from the fetch to the call of [enqueue_ray_index_local]:
    the memory the work-item leaves, and the call it makes, if it makes
    one. *)
Definition kernel_direct_lighting (kg : KernelGlobals) (wi : WorkItem)
    (d : Device) : Device * option EnqueueCall :=
  let enqueue_flag := 0%Z in
  let ray_index := fetch_ray_index kg wi d in
  if __COMPUTE_DEVICE_GPU__ flags && (ray_index =? QUEUE_EMPTY_SLOT)%Z
  then (d, None)
  else
    let '(d', enqueue_flag) :=
      if __COMPUTE_DEVICE_GPU__ flags
      then direct_lighting kg wi d ray_index enqueue_flag
      else if negb (ray_index =? QUEUE_EMPTY_SLOT)%Z
           then direct_lighting kg wi d ray_index enqueue_flag
           else (d, enqueue_flag) in
    (d',
     if __EMISSION__ flags
     then Some {| call_ray_index := ray_index;
                  call_queue_number := QUEUE_SHADOW_RAY_CAST_DL_RAYS;
                  call_enqueue_flag := enqueue_flag;
                  call_queuesize := queue_size (kernel_split_params d) |}
     else None).

(** The queue and the slot index a call marks for enqueuing, if its flag
    is set. *)
Definition call_marks (call : option EnqueueCall) : option (QueueNumber * Z) :=
  match call with
  | Some c =>
      if c_bool (call_enqueue_flag c)
      then Some (call_queue_number c, call_ray_index c)
      else None
  | None => None
  end.

(** ** The grid of work-items

    The group-local memory and the private variables of the work-items,
    and the transitions between the synchronisation points of the kernel.
    A transition is one atomic operation on a counter, one barrier, one
    copied cell, or the code of one work-item from the fetch to its claim
    in the staging buffer.  That code touches the slot it fetched and, with
    one atomic increment, the counter of its group; the orchestrator hands
    a slot to one work-item at a time, so what a round can produce does not
    depend on running this code in one piece. *)

(** How far a work-item has come, with the private variables it holds
    there: the arguments of its call of [enqueue_ray_index_local] and the
    offset it claimed in the staging buffer, if it claimed one. *)
Inductive Progress :=
  | AtEntry
  | AtBarrier
  | Returned
  | Enqueuing (c : EnqueueCall) (lqidx : option nat)
  | Finished (c : EnqueueCall) (lqidx : option nat).

Record Thread := {
  t_kg : KernelGlobals;
  t_wi : WorkItem;
  t_pc : Progress
}.

Definition at_pc (t : Thread) (pc : Progress) : Thread :=
  {| t_kg := t_kg t; t_wi := t_wi t; t_pc := pc |}.

(** The stretch of the kernel a group is in; a barrier ends each of the
    first four. *)
Inductive Phase := PhEntry | PhLocal | PhReserve | PhReserved | PhCopy.

Global Instance Phase_eq_dec : EqDecision Phase.
Proof. solve_decision. Defined.

(** An execution group: its work-items and its local memory. *)
Record Group := {
  threads : list Thread;
  local_queue_atomics : nat;
  staging : nat → Z;
  reserved : nat;
  phase : Phase
}.

Record Machine := {
  device : Device;
  groups : list Group
}.

Definition is_origin (wi : WorkItem) : bool :=
  (ccl_local_id wi 0 =? 0)%Z && (ccl_local_id wi 1 =? 0)%Z.

Definition waiting (t : Thread) : bool :=
  match t_pc t with AtBarrier => true | _ => false end.

Definition past_local (t : Thread) : bool :=
  match t_pc t with Returned | Enqueuing _ _ => true | _ => false end.

(** The work-item that makes the reservation for its group.  Section 4.2
    has exactly one representative work-item per group make it and does
    not say which; here it is one that is inside
    [enqueue_ray_index_local], the first of them.  The reading in which it
    is the work-item with local id (0, 0) is [origin_call] below. *)
Definition representative (ts : list Thread) : option EnqueueCall :=
  head (omap (fun t => match t_pc t with
                       | Enqueuing c _ => Some c
                       | _ => None
                       end) ts).

(** A work-item released by the last barrier with no cell to copy has
    nothing left to do. *)
Definition release (t : Thread) : Thread :=
  match t_pc t with
  | Enqueuing c None => at_pc t (Finished c None)
  | _ => t
  end.

Definition set_queue_index (d : Device) (v : QueueNumber → nat) : Device :=
  {| kernel_split_state := kernel_split_state d;
     kernel_split_params :=
       {| queue_size := queue_size (kernel_split_params d);
          queue_index := v |} |}.

Definition write_queue (d : Device) (q : QueueNumber) (i : nat) (x : Z)
  : Device :=
  let st := kernel_split_state d in
  set_split_state d
    (set_queue_data st (updq (queue_data st) q (updn (queue_data st q) i x))).

Definition count_of (d : Device) (q : QueueNumber) : nat :=
  queue_index (kernel_split_params d) q.

Definition cell_of (d : Device) (q : QueueNumber) (i : nat) : Z :=
  queue_data (kernel_split_state d) q i.

(** The transitions; [g] is the index of a group, [l] that of a work-item
    in its group. *)
Inductive Action :=
  | Enter (g l : nat)     (* lines 52-55, up to the barrier of line 56 *)
  | Barrier0 (g : nat)    (* the barrier of line 56 releases the group *)
  | Run (g l : nat)       (* lines 58-143 and the local stage of the call *)
  | Barrier1 (g : nat)    (* the barrier after the local stage *)
  | Reserve (g : nat)     (* the fetch-and-add on the length of the queue *)
  | Barrier2 (g : nat)    (* the barrier after the reservation *)
  | Copy (g l : nat).     (* a work-item copies its cell *)

Definition with_group (m : Machine) (g : nat) (d : Device) (G : Group)
  : Machine :=
  {| device := d; groups := <[g := G]> (groups m) |}.

(** Lines 52-55: the work-item with local id (0, 0) zeroes the counter of
    its group; then the work-item waits at the barrier of line 56. *)
Definition enter (G : Group) (l : nat) (t : Thread) : Group :=
  {| threads := <[l := at_pc t AtBarrier]> (threads G);
     local_queue_atomics :=
       if is_origin (t_wi t) then 0 else local_queue_atomics G;
     staging := staging G;
     reserved := reserved G;
     phase := phase G |}.

Definition set_phase (G : Group) (ts : list Thread) (p : Phase) : Group :=
  {| threads := ts;
     local_queue_atomics := local_queue_atomics G;
     staging := staging G;
     reserved := reserved G;
     phase := p |}.

(** Modelled from the spec: [enqueue_ray_index_local] is not in
    kernel_direct_lighting.h.  Section 4.2, local stage: a work-item whose
    flag is set increments the counter of its group atomically to claim an
    offset and stores its slot index at that offset of the staging buffer;
    the others abstain.  All then wait at a barrier. *)
Definition enqueue_local (G : Group) (l : nat) (t : Thread)
    (call : option EnqueueCall) : Group :=
  match call with
  | None =>
      set_phase G (<[l := at_pc t Returned]> (threads G)) (phase G)
  | Some c =>
      if c_bool (call_enqueue_flag c) then
        let lqidx := local_queue_atomics G in
        {| threads := <[l := at_pc t (Enqueuing c (Some lqidx))]> (threads G);
           local_queue_atomics := S lqidx;
           staging := updn (staging G) lqidx (call_ray_index c);
           reserved := reserved G;
           phase := phase G |}
      else
        set_phase G (<[l := at_pc t (Enqueuing c None)]> (threads G)) (phase G)
  end.

(** Modelled from the spec: [enqueue_ray_index_local], the global stage of
    section 4.2.  One work-item of the group adds the final count of the
    group to the length counter of the target queue with one atomic
    fetch-and-add; the value fetched is the start of the region reserved
    for the group.  Section 4.2 does not say where the group keeps that
    start; here it is a word of its own, [reserved], and the counter keeps
    the count. *)
Definition enqueue_reserve (d : Device) (G : Group) : Device * Group :=
  match representative (threads G) with
  | Some c =>
      let q := call_queue_number c in
      let start := count_of d q in
      (set_queue_index d
         (updq (queue_index (kernel_split_params d)) q
               (start + local_queue_atomics G)),
       {| threads := threads G;
          local_queue_atomics := local_queue_atomics G;
          staging := staging G;
          reserved := start;
          phase := PhReserved |})
  | None => (d, set_phase G (threads G) PhReserved)
  end.

(** Modelled from the spec: [enqueue_ray_index_local], the copy of section
    4.2.  A work-item that claimed an offset copies that cell of the
    staging buffer into the reserved region.  A cell past the capacity of
    the queue is outside the array: the machine has no transition. *)
Definition enqueue_copy (d : Device) (G : Group) (c : EnqueueCall)
    (lqidx : nat) : option Device :=
  let i := reserved G + lqidx in
  if decide (i < call_queuesize c)
  then Some (write_queue d (call_queue_number c) i (staging G lqidx))
  else None.

(** One transition, where the machine can take it.  A barrier releases a
    group when every work-item of the group that has not returned waits at
    it. *)
Definition step (a : Action) (m : Machine) : option Machine :=
  match a with
  | Enter g l =>
      G ← groups m !! g;
      t ← threads G !! l;
      match phase G, t_pc t with
      | PhEntry, AtEntry => Some (with_group m g (device m) (enter G l t))
      | _, _ => None
      end
  | Barrier0 g =>
      G ← groups m !! g;
      match phase G with
      | PhEntry =>
          if forallb waiting (threads G)
          then Some (with_group m g (device m) (set_phase G (threads G) PhLocal))
          else None
      | _ => None
      end
  | Run g l =>
      G ← groups m !! g;
      t ← threads G !! l;
      match phase G, t_pc t with
      | PhLocal, AtBarrier =>
          let '(d, call) := kernel_direct_lighting (t_kg t) (t_wi t) (device m) in
          Some (with_group m g d (enqueue_local G l t call))
      | _, _ => None
      end
  | Barrier1 g =>
      G ← groups m !! g;
      match phase G with
      | PhLocal =>
          if forallb past_local (threads G)
          then Some (with_group m g (device m) (set_phase G (threads G) PhReserve))
          else None
      | _ => None
      end
  | Reserve g =>
      G ← groups m !! g;
      match phase G with
      | PhReserve =>
          let '(d, G') := enqueue_reserve (device m) G in
          Some (with_group m g d G')
      | _ => None
      end
  | Barrier2 g =>
      G ← groups m !! g;
      match phase G with
      | PhReserved =>
          Some (with_group m g (device m)
                  (set_phase G (release <$> threads G) PhCopy))
      | _ => None
      end
  | Copy g l =>
      G ← groups m !! g;
      t ← threads G !! l;
      match phase G, t_pc t with
      | PhCopy, Enqueuing c (Some lqidx) =>
          d ← enqueue_copy (device m) G c lqidx;
          Some (with_group m g d
                  (set_phase G (<[l := at_pc t (Finished c (Some lqidx))]> (threads G))
                     PhCopy))
      | _, _ => None
      end
  end.

(** A round: the transitions of a schedule, one after the other. *)
Fixpoint exec (tr : list Action) (m : Machine) : option Machine :=
  match tr with
  | [] => Some m
  | a :: tr => m' ← step a m; exec tr m'
  end.

(** The state a round starts in: every work-item at the entry of the
    kernel; the local memory holds whatever it held. *)
Definition initial (m : Machine) : bool :=
  forallb (fun G =>
    bool_decide (phase G = PhEntry) &&
    forallb (fun t => match t_pc t with AtEntry => true | _ => false end)
            (threads G)) (groups m).

(** Every group has the work-item with local id (0, 0). *)
Definition has_origin (G : Group) : bool :=
  existsb (fun t => is_origin (t_wi t)) (threads G).

Definition well_formed (m : Machine) : bool := forallb has_origin (groups m).

(** The round is over: every work-item has left the kernel. *)
Definition done (t : Thread) : bool :=
  match t_pc t with Returned | Finished _ _ => true | _ => false end.

Definition completed (m : Machine) : bool :=
  forallb (fun G => bool_decide (phase G = PhCopy) && forallb done (threads G))
          (groups m).

(** The slot index a work-item marked for the output queue, if it has made
    its call with the flag set. *)
Definition marked (t : Thread) : option Z :=
  match t_pc t with
  | Enqueuing c _ | Finished c _ =>
      if c_bool (call_enqueue_flag c) then Some (call_ray_index c) else None
  | _ => None
  end.

Definition marked_slots (m : Machine) : list Z :=
  concat ((fun G => omap marked (threads G)) <$> groups m).

(** The cells [from, from + n) of a queue. *)
Definition queue_cells (d : Device) (q : QueueNumber) (from n : nat) : list Z :=
  cell_of d q <$> seq from n.

End Stage.

Arguments SplitState {X}.
Arguments SplitParams : clear implicits.
Arguments Device {X}.
Arguments EnqueueCall : clear implicits.
Arguments Progress : clear implicits.
Arguments Thread {X}.
Arguments Group {X}.
Arguments Machine {X}.

(** ** The invariant of a round *)

Section Invariant.

Context `{X : Collaborators}.

(** The offset a work-item claimed in the staging buffer of its group, with
    the slot index it stored there. *)
Definition claim (t : Thread) : option (nat * Z) :=
  match t_pc t with
  | Enqueuing c (Some o) | Finished c (Some o) => Some (o, call_ray_index c)
  | _ => None
  end.

Definition claims (G : Group) : list (nat * Z) := omap claim (threads G).

(** Where a work-item can be while its group is in a phase. *)
Definition pc_ok (p : Phase) (pc : Progress) : Prop :=
  match p, pc with
  | PhEntry, (AtEntry | AtBarrier) => True
  | PhLocal, (AtBarrier | Returned | Enqueuing _ _) => True
  | (PhReserve | PhReserved), (Returned | Enqueuing _ _) => True
  | PhCopy, (Returned | Enqueuing _ (Some _) | Finished _ _) => True
  | _, _ => False
  end.

(** The call a work-item holds is the one the kernel makes: for the output
    queue of the stage, with the capacity of the queues; the work-item
    claimed an offset exactly when its flag is set. *)
Definition call_ok (qs : nat) (pc : Progress) : Prop :=
  match pc with
  | Enqueuing c o | Finished c o =>
      call_queue_number c = QUEUE_SHADOW_RAY_CAST_DL_RAYS ∧
      call_queuesize c = qs ∧
      (is_Some o ↔ c_bool (call_enqueue_flag c) = true)
  | _ => True
  end.

(** The cells of the output queue a group has reserved. *)
Definition region (G : Group) : list nat :=
  match phase G with
  | PhReserved | PhCopy => seq (reserved G) (local_queue_atomics G)
  | _ => []
  end.

Record group_inv (d : Device) (G : Group) : Prop := {
  gi_origin : has_origin G = true;
  gi_pc :
    Forall (fun t => pc_ok (phase G) (t_pc t) ∧
                     call_ok (queue_size (kernel_split_params d)) (t_pc t))
           (threads G);
  gi_zero :
    phase G = PhEntry →
    (∃ t, t ∈ threads G ∧ t_pc t = AtBarrier ∧ is_origin (t_wi t) = true) →
    local_queue_atomics G = 0;
  gi_claims :
    phase G ≠ PhEntry →
    (claims G).*1 ≡ₚ seq 0 (local_queue_atomics G);
  gi_staging : ∀ o i, (o, i) ∈ claims G → staging G o = i;
  gi_copied :
    ∀ t c o, t ∈ threads G → t_pc t = Finished c (Some o) →
      cell_of d QUEUE_SHADOW_RAY_CAST_DL_RAYS (reserved G + o) = call_ray_index c
}.

(** [n0] is the length of the output queue when the round starts. *)
Record machine_inv (n0 : nat) (m : Machine) : Prop := {
  mi_groups : Forall (group_inv (device m)) (groups m);
  mi_count : n0 ≤ count_of (device m) QUEUE_SHADOW_RAY_CAST_DL_RAYS;
  mi_regions :
    seq n0 (count_of (device m) QUEUE_SHADOW_RAY_CAST_DL_RAYS - n0)
    ≡ₚ concat (region <$> groups m)
}.

(** Every call a work-item has made is for the output queue of the stage. *)
Definition call_to_out (pc : Progress) : Prop :=
  match pc with
  | Enqueuing c _ | Finished c _ =>
      call_queue_number c = QUEUE_SHADOW_RAY_CAST_DL_RAYS
  | _ => True
  end.

Definition calls_to_out (m : Machine) : Prop :=
  Forall (fun G => Forall (fun t => call_to_out (t_pc t)) (threads G)) (groups m).

(** The queues other than the output queue of the stage hold the same in
    two memories. *)
Definition same_other_queues (d d' : Device) : Prop :=
  ∀ q, q ≠ QUEUE_SHADOW_RAY_CAST_DL_RAYS →
    queue_data (kernel_split_state d') q = queue_data (kernel_split_state d) q ∧
    count_of d' q = count_of d q.

(** *** What is left of a round

    The steps a work-item and a group have before them; every transition
    takes at least one away. *)
Definition pc_weight (pc : Progress) : nat :=
  match pc with
  | AtEntry => 3
  | AtBarrier => 2
  | Enqueuing _ _ => 1
  | Returned | Finished _ _ => 0
  end.

Definition phase_weight (p : Phase) : nat :=
  match p with
  | PhEntry => 4 | PhLocal => 3 | PhReserve => 2 | PhReserved => 1 | PhCopy => 0
  end.

Definition thread_weight (t : Thread) : nat := pc_weight (t_pc t).

Definition group_weight (G : Group) : nat :=
  phase_weight (phase G) + sum_list_with thread_weight (threads G).

Definition remaining (m : Machine) : nat :=
  sum_list_with group_weight (groups m).

(** The number of work-items of the grid. *)
Definition work_items (m : Machine) : nat :=
  sum_list_with (fun G => length (threads G)) (groups m).

(** The queues are sized for the population: the output queue has room for
    one more entry per work-item. *)
Definition sized (n0 : nat) (m : Machine) : Prop :=
  n0 + work_items m ≤ queue_size (kernel_split_params (device m)).

(** *** The two builds side by side

    A work-item that fetched the empty slot has returned in the GPU build
    where in the other build it holds a call with the flag 0.  A group
    whose counter is zero when it reserves has no use for the start of its
    region. *)
Definition thread_sim (tg tc : Thread) : Prop :=
  t_kg tg = t_kg tc ∧ t_wi tg = t_wi tc ∧
  (t_pc tg = t_pc tc ∨
   (t_pc tg = Returned ∧
    ∃ c, c_bool (call_enqueue_flag c) = false ∧
         (t_pc tc = Enqueuing c None ∨ t_pc tc = Finished c None))).

Definition group_sim (Gg Gc : Group) : Prop :=
  Forall2 thread_sim (threads Gg) (threads Gc) ∧
  local_queue_atomics Gg = local_queue_atomics Gc ∧
  staging Gg = staging Gc ∧
  phase Gg = phase Gc ∧
  (reserved Gg = reserved Gc ∨
   (local_queue_atomics Gc = 0 ∧ (phase Gc = PhReserved ∨ phase Gc = PhCopy))).

Definition machine_sim (mg mc : Machine) : Prop :=
  device mg = device mc ∧ Forall2 group_sim (groups mg) (groups mc).

(** The two builds of one configuration. *)
Definition gpu_build (emission object_motion : bool) : BuildFlags :=
  {| __COMPUTE_DEVICE_GPU__ := true; __EMISSION__ := emission;
     __OBJECT_MOTION__ := object_motion |}.

Definition cpu_build (emission object_motion : bool) : BuildFlags :=
  {| __COMPUTE_DEVICE_GPU__ := false; __EMISSION__ := emission;
     __OBJECT_MOTION__ := object_motion |}.

End Invariant.

(** ** Notions for the properties of a whole round *)

Section Coverage.

Context `{X : Collaborators}.

(** The grid of the work-item fits the [int] of line 59: its coordinates
    are inside the grid and its linear index is below 2^31. *)
Definition in_int_grid (wi : WorkItem) : Prop :=
  (0 ≤ ccl_global_id wi 0 < ccl_global_size wi 0)%Z ∧
  (0 ≤ ccl_global_id wi 1)%Z ∧
  (ccl_global_id wi 1 * ccl_global_size wi 0 + ccl_global_id wi 0 < 2 ^ 31)%Z.

(** What the stage reads of a memory apart from its queues: the inputs the
    header comment of the kernel lists, and the capacity of the queues. *)
Definition same_inputs (d d' : Device) : Prop :=
  rng (kernel_split_state d') = rng (kernel_split_state d) ∧
  path_state (kernel_split_state d') = path_state (kernel_split_state d) ∧
  sd (kernel_split_state d') = sd (kernel_split_state d) ∧
  sd_DL_shadow (kernel_split_state d') = sd_DL_shadow (kernel_split_state d) ∧
  queue_size (kernel_split_params d') = queue_size (kernel_split_params d).

(** The ray state and the scratch fields of slot [j] are the same in two
    memories. *)
Definition same_slot (j : Z) (d d' : Device) : Prop :=
  ray_state (kernel_split_state d') j = ray_state (kernel_split_state d) j ∧
  light_ray (kernel_split_state d') j = light_ray (kernel_split_state d) j ∧
  bsdf_eval (kernel_split_state d') j = bsdf_eval (kernel_split_state d) j ∧
  is_lamp (kernel_split_state d') j = is_lamp (kernel_split_state d) j.

(** Every flag set in a ray state of [d] is set in the same ray state of
    [d']. *)
Definition flags_kept (d d' : Device) : Prop :=
  ∀ j n, Z.testbit (ray_state (kernel_split_state d) j) n = true →
         Z.testbit (ray_state (kernel_split_state d') j) n = true.

(** Slot [i] carries RAY_SHADOW_RAY_CAST_DL in its ray state. *)
Definition has_cast_flag (d : Device) (i : Z) : Prop :=
  ∀ n, Z.testbit RAY_SHADOW_RAY_CAST_DL n = true →
       Z.testbit (ray_state (kernel_split_state d) i) n = true.

(** Who the work-items of a grid are. *)
Definition identities (m : Machine) : list (list (KernelGlobals * WorkItem)) :=
  (fun G => (fun t => (t_kg t, t_wi t)) <$> threads G) <$> groups m.

(** The work-item has not called [enqueue_ray_index_local]. *)
Definition no_call (t : Thread) : Prop :=
  match t_pc t with
  | Enqueuing _ _ | Finished _ _ => False
  | _ => True
  end.

End Coverage.

(** ** Following a round from its start

    What is needed to say that the memory a round leaves does not depend
    on the schedule: which work-items have run the kernel, which of them
    fetch a slot, and how the slot stands against the memory the round
    started from. *)

Section Tracking.

Context `{X : Collaborators}.
Variable flags : BuildFlags.

(** The work-item has run lines 58-143. *)
Definition ran (t : Thread) : bool :=
  match t_pc t with AtEntry | AtBarrier => false | _ => true end.

(** The work-item fetches slot [j] from the input queue of [d]. *)
Definition fetched_by (d : Device) (j : Z) (t : Thread) : bool :=
  bool_decide (fetch_ray_index (t_kg t) (t_wi t) d = j).

(** It fetches slot [j] and has not run yet. *)
Definition pending (d : Device) (j : Z) (t : Thread) : bool :=
  fetched_by d j t && negb (ran t).

(** The number of work-items of the grid with a property. *)
Definition tally (P : Thread → bool) (m : Machine) : nat :=
  sum_list_with
    (fun G => sum_list_with (fun t => if P t then 1 else 0) (threads G))
    (groups m).

(** The slot indices the work-items of the grid fetch, in the order of the
    grid. *)
Definition fetched (m : Machine) : list Z :=
  (fun p => fetch_ray_index p.1 p.2 (device m)) <$> concat (identities m).

(** No slot is handed to two work-items: the input queue holds a slot
    index at most once among the cells the grid reads. *)
Definition distinct_slots (m : Machine) : Prop :=
  NoDup (filter (fun i => i ≠ QUEUE_EMPTY_SLOT) (fetched m)).

(** What the work-item [p] leaves in its slot when it runs on the memory
    the round started from. *)
Definition alone (m0 : Machine) (p : KernelGlobals * WorkItem) : Device :=
  (kernel_direct_lighting flags p.1 p.2 (device m0)).1.

(** The slot index the work-item [p] marks when it runs on the memory the
    round started from. *)
Definition marks_alone (m0 : Machine) (p : KernelGlobals * WorkItem)
  : option Z :=
  snd <$> call_marks (kernel_direct_lighting flags p.1 p.2 (device m0)).2.

(** Slot [j] in the course of a round that started in [m0]: either no
    work-item that fetches it has run and it is as it was, or all of them
    have, and it is as one of them leaves it when it runs alone on the
    memory of [m0]. *)
Definition slot_tracked (m0 m : Machine) (j : Z) : Prop :=
  (tally (pending (device m0) j) m = tally (fetched_by (device m0) j) m ∧
   same_slot j (device m0) (device m)) ∨
  (tally (pending (device m0) j) m = 0 ∧
   ∃ p, p ∈ concat (identities m0) ∧
        fetch_ray_index p.1 p.2 (device m0) = j ∧
        same_slot j (alone m0 p) (device m)).

(** A work-item that has run marked what it marks when it runs alone on
    the memory of [m0]. *)
Definition marks_tracked (m0 m : Machine) : Prop :=
  Forall (fun G =>
    Forall (fun t => ran t = true →
                     marked t = marks_alone m0 (t_kg t, t_wi t))
           (threads G)) (groups m).

Record tracked (m0 m : Machine) : Prop := {
  tk_empty : same_slot QUEUE_EMPTY_SLOT (device m0) (device m);
  tk_slots : ∀ j, j ≠ QUEUE_EMPTY_SLOT → slot_tracked m0 m j;
  tk_marks : marks_tracked m0 m
}.

End Tracking.

(** ** Who makes the reservation

    Section 4.2 of the specification does not say which work-item of a
    group is its representative.  The kernel singles out the work-item
    with local id (0, 0) for the reset of lines 53-55; the machine below
    is the machine above with the work-item that reserves as a parameter,
    so that the two readings can be told apart where they differ: in the
    GPU build, in a group whose work-item (0, 0) has returned at line
    75. *)

Section Reservation.

Context `{X : Collaborators}.
Variable flags : BuildFlags.

(** Modelled from the spec: [enqueue_ray_index_local] is not in
    kernel_direct_lighting.h.  Section 4.2, the representative of the
    global stage, read as the work-item with local id (0, 0): it reserves
    if it is inside the primitive, and nobody does if it is not. *)
Definition origin_call (ts : list Thread) : option EnqueueCall :=
  head (omap (fun t => if is_origin (t_wi t)
                       then match t_pc t with
                            | Enqueuing c _ => Some c
                            | _ => None
                            end
                       else None) ts).

(** Modelled from the spec: [enqueue_reserve] with the choice of the
    representative as a parameter. *)
Definition enqueue_reserve_by (rep : list Thread → option EnqueueCall)
    (d : Device) (G : Group) : Device * Group :=
  match rep (threads G) with
  | Some c =>
      let q := call_queue_number c in
      let start := count_of d q in
      (set_queue_index d
         (updq (queue_index (kernel_split_params d)) q
               (start + local_queue_atomics G)),
       {| threads := threads G;
          local_queue_atomics := local_queue_atomics G;
          staging := staging G;
          reserved := start;
          phase := PhReserved |})
  | None => (d, set_phase G (threads G) PhReserved)
  end.

(** The transitions of [step], the reservation made by [rep]. *)
Definition step_by (rep : list Thread → option EnqueueCall)
    (a : Action) (m : Machine) : option Machine :=
  match a with
  | Reserve g =>
      G ← groups m !! g;
      match phase G with
      | PhReserve =>
          let '(d, G') := enqueue_reserve_by rep (device m) G in
          Some (with_group m g d G')
      | _ => None
      end
  | _ => step flags a m
  end.

Fixpoint exec_by (rep : list Thread → option EnqueueCall)
    (tr : list Action) (m : Machine) : option Machine :=
  match tr with
  | [] => Some m
  | a :: tr => m' ← step_by rep a m; exec_by rep tr m'
  end.

(** Among the work-items [ts] the choice falls on one that is inside the
    primitive, if there is one. *)
Definition picks_inside (rep : list Thread → option EnqueueCall)
    (ts : list Thread) : Prop :=
  match rep ts with
  | Some c => ∃ t o, t ∈ ts ∧ t_pc t = Enqueuing c o
  | None => ∀ t c o, t ∈ ts → t_pc t ≠ Enqueuing c o
  end.

(** The representative is always a work-item inside the primitive. *)
Definition reserves_inside (rep : list Thread → option EnqueueCall) : Prop :=
  ∀ ts, picks_inside rep ts.

(** No work-item with local id (0, 0) fetches the empty slot. *)
Definition origins_fetch (m : Machine) : bool :=
  forallb (fun G =>
    forallb (fun t =>
      negb (is_origin (t_wi t)) ||
      negb (fetch_ray_index (t_kg t) (t_wi t) (device m) =? QUEUE_EMPTY_SLOT)%Z)
      (threads G)) (groups m).

Definition origin_ok (m : Machine) : Prop :=
  Forall (fun G =>
    Forall (fun t => is_origin (t_wi t) = true →
                     fetch_ray_index (t_kg t) (t_wi t) (device m)
                     ≠ QUEUE_EMPTY_SLOT) (threads G)) (groups m).

(** With the call compiled in, a work-item with local id (0, 0) has not
    returned. *)
Definition origin_stays (m : Machine) : Prop :=
  Forall (fun G =>
    Forall (fun t => t_pc t = Returned →
                     __EMISSION__ flags = false ∨ is_origin (t_wi t) = false)
           (threads G)) (groups m).

End Reservation.

(** ** A concrete instance

    A small scene with integers for every opaque type, on which the
    definitions evaluate. *)
Module Demo.

Definition demo : Collaborators := {|
  KernelGlobals := Z;
  RNG := Z;
  PathState := Z;
  ShaderData := Z → Z;
  LightSample := Z;
  Ray := Z;
  BsdfEval := Z;
  float := Z;
  float3 := Z;
  QUEUE_EMPTY_SLOT := (-1)%Z;
  RAY_ACTIVE := 0%Z;
  RAY_SHADOW_RAY_CAST_DL := 32%Z;
  SD_BSDF_HAS_EVAL := 4%Z;
  PRNG_LIGHT := 0%Z;
  PRNG_LIGHT_U := 1%Z;
  is_state := fun w s => (Z.land w 7 =? s)%Z;
  use_direct_light := fun kg => kg;
  bounce := fun st => st;
  ccl_fetch_flag := fun wi sd => sd (ccl_global_id wi 0);
  ccl_fetch_time := fun wi sd => 0%Z;
  ccl_fetch_P := fun wi sd => 0%Z;
  path_state_rng_1D := fun kg rng st dim => (rng + dim)%Z;
  path_state_rng_2D := fun kg rng st dim => ((rng + dim)%Z, (rng + dim + 1)%Z);
  path_state_rng_light_termination := fun kg rng st => rng;
  light_sample := fun kg t u v time P bounce =>
    if (t <? 8)%Z then Some t else None;
  direct_emission := fun kg sd sd_DL ls st time terminate =>
    if (terminate <? 5)%Z
    then Some ((ls + 100)%Z, (ls + 200)%Z, Z.even ls)
    else None
|}.

#[local] Existing Instance demo.

Definition cpu : BuildFlags :=
  {| __COMPUTE_DEVICE_GPU__ := false; __EMISSION__ := true;
     __OBJECT_MOTION__ := true |}.

Definition gpu : BuildFlags :=
  {| __COMPUTE_DEVICE_GPU__ := true; __EMISSION__ := true;
     __OBJECT_MOTION__ := true |}.

(** The input queue holds slots 3, 7, 4, 9 and 2; the work-items with global
    ids 0, 2 and 3 see an evaluable BSDF, the one with id 1 does not. *)
Definition input : nat → Z :=
  fun i =>
    match i with
    | 0 => 3%Z | 1 => 7%Z | 2 => 4%Z | 3 => 9%Z | 4 => 2%Z | _ => (-1)%Z
    end.

Definition memory (ray_state0 : Z → Z) : Device :=
  {| kernel_split_state :=
       {| ray_state := ray_state0;
          rng := fun i => i;
          path_state := fun i => i;
          sd := fun gid => if (gid =? 1)%Z then 0%Z else 4%Z;
          sd_DL_shadow := fun _ => 0%Z;
          light_ray := fun _ => 0%Z;
          bsdf_eval := fun _ => 0%Z;
          is_lamp := fun _ => false;
          queue_data := fun q =>
            match q with
            | QUEUE_ACTIVE_AND_REGENERATED_RAYS => input
            | _ => fun _ => (-1)%Z
            end |};
     kernel_split_params :=
       {| queue_size := 6; queue_index := fun _ => 0 |} |}.

(** Every slot ACTIVE, apart from slot 6, which carries an extra flag. *)
Definition dev : Device :=
  memory (fun i => if (i =? 6)%Z then 8%Z else 0%Z).

Definition item (gid lid : Z) : WorkItem :=
  {| local_id := (lid, 0%Z); global_id := (gid, 0%Z);
     global_size := (6%Z, 1%Z) |}.

Definition thread (gid lid : Z) : Thread :=
  {| t_kg := 1%Z; t_wi := item gid lid; t_pc := AtEntry |}.

(** Two groups of three work-items over a queue of five entries. *)
Definition grid : Machine :=
  {| device := dev;
     groups :=
       [ {| threads := [thread 0 0; thread 1 1; thread 2 2];
            local_queue_atomics := 17; staging := fun _ => 0%Z;
            reserved := 23; phase := PhEntry |};
         {| threads := [thread 3 0; thread 4 1; thread 5 2];
            local_queue_atomics := 5; staging := fun _ => 0%Z;
            reserved := 0; phase := PhEntry |} ] |}.

(** The second group reserves first; in the first group the work-item
    with slot 4 claims its offset before the one with slot 3. *)
Definition schedule : list Action :=
  [ Enter 1 2; Enter 0 0; Enter 1 0; Enter 0 2; Enter 1 1; Enter 0 1;
    Barrier0 1; Run 1 0; Barrier0 0; Run 0 2; Run 1 2; Run 0 1; Run 1 1;
    Barrier1 1; Reserve 1; Run 0 0; Barrier1 0; Barrier2 1; Reserve 0;
    Barrier2 0; Copy 0 0; Copy 1 1; Copy 0 2 ].

(** The state the schedule leaves the grid in. *)
Definition outcome (flags : BuildFlags) : Machine :=
  default grid (exec flags schedule grid).

(** One group of two: the work-item with local id (0, 0) finds its queue
    cell empty, the other one fetches slot 3. *)
Definition pair : Machine :=
  {| device := dev;
     groups :=
       [ {| threads := [thread 5 0; thread 0 1];
            local_queue_atomics := 9; staging := fun _ => 0%Z;
            reserved := 0; phase := PhEntry |} ] |}.

Definition pair_schedule : list Action :=
  [ Enter 0 0; Enter 0 1; Barrier0 0; Run 0 0; Run 0 1; Barrier1 0;
    Reserve 0; Barrier2 0; Copy 0 1 ].

(** The state the schedule leaves the pair in when the work-item (0, 0)
    is the representative. *)
Definition pair_outcome (flags : BuildFlags) : Machine :=
  default pair (exec_by flags origin_call pair_schedule pair).

(** The state the schedule leaves the grid in when the work-item (0, 0)
    is the representative. *)
Definition outcome_by_origin (flags : BuildFlags) : Machine :=
  default grid (exec_by flags origin_call schedule grid).

End Demo.

(** * Properties *)

Section ThreadProperties.

Context `{X : Collaborators}.
Variable flags : BuildFlags.

Implicit Types (kg : KernelGlobals) (wi : WorkItem) (d : Device).

(** ** Helper lemmas on one work-item *)

Lemma store_shadow_ray_params d i r :
  kernel_split_params (store_shadow_ray d i r) = kernel_split_params d.
Proof. by destruct r as [[? ?] ?]. Qed.

Lemma store_shadow_ray_queue_data d i r :
  queue_data (kernel_split_state (store_shadow_ray d i r))
  = queue_data (kernel_split_state d).
Proof. by destruct r as [[? ?] ?]. Qed.

Lemma upd_eq {A} (f : Z → A) i x : upd f i x i = x.
Proof. unfold upd. by rewrite Z.eqb_refl. Qed.

Lemma upd_ne {A} (f : Z → A) i j x : j ≠ i → upd f i x j = f j.
Proof. unfold upd. intros H. by destruct (Z.eqb_spec j i). Qed.

(** The block leaves the memory alone and the flag as it was, or stores an
    accepted sample and sets the flag. *)
Lemma direct_lighting_cases kg wi d i e :
  (direct_lighting flags kg wi d i e = (d, e) ∧
   (IS_STATE (ray_state (kernel_split_state d)) i RAY_ACTIVE = false ∨
    __EMISSION__ flags = false ∨
    c_bool (use_direct_light kg) = false ∨
    bsdf_has_eval wi (kernel_split_state d) = false ∨
    draw_light_sample kg wi (kernel_split_state d) i = None ∨
    ∃ ls t, draw_light_sample kg wi (kernel_split_state d) i = Some (ls, t) ∧
            eval_direct_emission flags kg wi (kernel_split_state d) i ls t = None))
  ∨
  (∃ ls t r,
      IS_STATE (ray_state (kernel_split_state d)) i RAY_ACTIVE = true ∧
      __EMISSION__ flags = true ∧
      c_bool (use_direct_light kg) = true ∧
      bsdf_has_eval wi (kernel_split_state d) = true ∧
      draw_light_sample kg wi (kernel_split_state d) i = Some (ls, t) ∧
      eval_direct_emission flags kg wi (kernel_split_state d) i ls t = Some r ∧
      direct_lighting flags kg wi d i e = (store_shadow_ray d i r, 1%Z)).
Proof.
  unfold direct_lighting.
  destruct (IS_STATE _ i RAY_ACTIVE); [| left; auto].
  destruct (__EMISSION__ flags); [| left; auto].
  destruct (c_bool (use_direct_light kg)); [| left; auto 6].
  destruct (bsdf_has_eval wi _); simpl; [| left; auto 6].
  destruct (draw_light_sample kg wi _ i) as [[ls t]|] eqn:Hls; [| left; auto 8].
  destruct (eval_direct_emission flags kg wi _ i ls t) as [r|] eqn:Hde.
  - right. exists ls, t, r. auto 10.
  - left. split; [done|]. do 5 right. eauto.
Qed.

(** The call a work-item makes names the output queue of the stage and the
    capacity of the queues; its flag is 0 or 1. *)
Lemma kernel_direct_lighting_call kg wi d d' c :
  kernel_direct_lighting flags kg wi d = (d', Some c) →
  call_ray_index c = fetch_ray_index kg wi d ∧
  call_queue_number c = QUEUE_SHADOW_RAY_CAST_DL_RAYS ∧
  call_queuesize c = queue_size (kernel_split_params d) ∧
  (call_enqueue_flag c = 0%Z ∨ call_enqueue_flag c = 1%Z).
Proof.
  unfold kernel_direct_lighting.
  destruct (__COMPUTE_DEVICE_GPU__ flags && _); [done|].
  set (i := fetch_ray_index kg wi d).
  assert (Hdl : ∀ e, (e = 0 ∨ e = 1)%Z →
            (direct_lighting flags kg wi d i e).2 = 0%Z ∨
            (direct_lighting flags kg wi d i e).2 = 1%Z).
  { intros e He.
    destruct (direct_lighting_cases kg wi d i e) as [[-> _]|(?&?&?&_&_&_&_&_&_&->)];
      simpl; auto. }
  destruct (__COMPUTE_DEVICE_GPU__ flags).
  - specialize (Hdl 0%Z (or_introl eq_refl)).
    destruct (direct_lighting flags kg wi d i 0) as [d1 e1].
    destruct (__EMISSION__ flags); [|done]. intros [= <- <-]. simpl in *. auto.
  - destruct (negb _).
    + specialize (Hdl 0%Z (or_introl eq_refl)).
      destruct (direct_lighting flags kg wi d i 0) as [d1 e1].
      destruct (__EMISSION__ flags); [|done]. intros [= <- <-]. simpl in *. auto.
    + destruct (__EMISSION__ flags); [|done]. intros [= <- <-]. simpl. auto.
Qed.

(** A work-item writes neither the queues nor the parameters. *)
Lemma direct_lighting_frame kg wi d i e :
  let d' := (direct_lighting flags kg wi d i e).1 in
  kernel_split_params d' = kernel_split_params d ∧
  queue_data (kernel_split_state d') = queue_data (kernel_split_state d).
Proof.
  destruct (direct_lighting_cases kg wi d i e) as [[-> _]|(?&?&r&_&_&_&_&_&_&->)];
    simpl; [done|].
  by rewrite store_shadow_ray_params, store_shadow_ray_queue_data.
Qed.

Lemma kernel_direct_lighting_frame kg wi d :
  let d' := (kernel_direct_lighting flags kg wi d).1 in
  kernel_split_params d' = kernel_split_params d ∧
  queue_data (kernel_split_state d') = queue_data (kernel_split_state d).
Proof.
  unfold kernel_direct_lighting.
  destruct (__COMPUTE_DEVICE_GPU__ flags && _); [done|].
  pose proof (direct_lighting_frame kg wi d (fetch_ray_index kg wi d) 0) as H.
  destruct (__COMPUTE_DEVICE_GPU__ flags).
  - by destruct (direct_lighting _ _ _ _ _ _).
  - destruct (negb _); [|done]. by destruct (direct_lighting _ _ _ _ _ _).
Qed.

(** For a fetched slot the kernel is the direct-lighting block followed by
    the call, in both builds. *)
Lemma kernel_direct_lighting_slot kg wi d :
  fetch_ray_index kg wi d ≠ QUEUE_EMPTY_SLOT →
  kernel_direct_lighting flags kg wi d =
    let r := direct_lighting flags kg wi d (fetch_ray_index kg wi d) 0 in
    (r.1,
     if __EMISSION__ flags
     then Some {| call_ray_index := fetch_ray_index kg wi d;
                  call_queue_number := QUEUE_SHADOW_RAY_CAST_DL_RAYS;
                  call_enqueue_flag := r.2;
                  call_queuesize := queue_size (kernel_split_params d) |}
     else None).
Proof.
  intros Hne. unfold kernel_direct_lighting.
  destruct (Z.eqb_spec (fetch_ray_index kg wi d) QUEUE_EMPTY_SLOT) as [|_]; [done|].
  rewrite andb_false_r. simpl.
  destruct (__COMPUTE_DEVICE_GPU__ flags);
    by destruct (direct_lighting _ _ _ _ _ _).
Qed.

(** Whatever the fetch returned, a work-item whose block is not run, or is
    run and stores nothing, leaves the memory as it was and marks nothing. *)
Lemma kernel_direct_lighting_idle kg wi d :
  let i := fetch_ray_index kg wi d in
  (i ≠ QUEUE_EMPTY_SLOT → direct_lighting flags kg wi d i 0 = (d, 0%Z)) →
  (kernel_direct_lighting flags kg wi d).1 = d ∧
  call_marks (kernel_direct_lighting flags kg wi d).2 = None.
Proof.
  intros i Hdl. unfold kernel_direct_lighting. fold i.
  destruct (Z.eqb_spec i QUEUE_EMPTY_SLOT) as [He|Hne].
  - destruct (__COMPUTE_DEVICE_GPU__ flags); simpl; [done|].
    by destruct (__EMISSION__ flags).
  - rewrite andb_false_r, (Hdl Hne). simpl.
    destruct (__COMPUTE_DEVICE_GPU__ flags); simpl;
      by destruct (__EMISSION__ flags).
Qed.

(** ** The claims on one work-item *)

(** C1.  A dispatched slot whose processing reaches acceptance, that is,
    whose execution takes the branches of lines 83, 89-90, 100 and 114 (the
    slot is ACTIVE, direct lighting is compiled in and switched on, the
    BSDF can be evaluated, [light_sample] finds a light and
    [direct_emission] accepts it): the shadow ray, the BSDF evaluation and
    the lamp flag are written to [light_ray], [bsdf_eval] and [is_lamp] at
    the slot's index, RAY_SHADOW_RAY_CAST_DL is ORed into its ray state, and
    the work-item calls [enqueue_ray_index_local] for the queue
    QUEUE_SHADOW_RAY_CAST_DL_RAYS with this index and the flag set.  No
    other path marks a slot: a work-item that marks its slot has taken
    these branches. *)
Theorem accepted_slot_is_stored_and_marked kg wi d :
  let st := kernel_split_state d in
  let i := fetch_ray_index kg wi d in
  i ≠ QUEUE_EMPTY_SLOT →
  (∀ ls t lr L lamp,
     __EMISSION__ flags = true →
     IS_STATE (ray_state st) i RAY_ACTIVE = true →
     c_bool (use_direct_light kg) = true →
     bsdf_has_eval wi st = true →
     draw_light_sample kg wi st i = Some (ls, t) →
     eval_direct_emission flags kg wi st i ls t = Some (lr, L, lamp) →
     ∃ d' c,
       kernel_direct_lighting flags kg wi d = (d', Some c) ∧
       light_ray (kernel_split_state d') i = lr ∧
       bsdf_eval (kernel_split_state d') i = L ∧
       is_lamp (kernel_split_state d') i = lamp ∧
       ray_state (kernel_split_state d') i
         = Z.lor (ray_state st i) RAY_SHADOW_RAY_CAST_DL ∧
       call_enqueue_flag c = 1%Z ∧
       call_marks (Some c) = Some (QUEUE_SHADOW_RAY_CAST_DL_RAYS, i)) ∧
  (call_marks (kernel_direct_lighting flags kg wi d).2 ≠ None →
   __EMISSION__ flags = true ∧
   IS_STATE (ray_state st) i RAY_ACTIVE = true ∧
   c_bool (use_direct_light kg) = true ∧
   bsdf_has_eval wi st = true ∧
   ∃ ls t r, draw_light_sample kg wi st i = Some (ls, t) ∧
             eval_direct_emission flags kg wi st i ls t = Some r).
Proof.
  intros st i Hne. split.
  - intros ls t lr L lamp Hem Hact Hdl Hev Hls Hde.
    rewrite (kernel_direct_lighting_slot kg wi d Hne). fold i.
    unfold direct_lighting. fold st.
    rewrite Hact, Hem, Hdl, Hev, Hls, Hde. simpl.
    eexists _, _. split; [reflexivity|]. simpl.
    unfold ADD_RAY_FLAG. rewrite !upd_eq. done.
  - rewrite (kernel_direct_lighting_slot kg wi d Hne). fold i. simpl.
    destruct (direct_lighting_cases kg wi d i 0)
      as [[-> _]|(ls & t & r & Ha & He & Hd & Hb & Hl & Hr & _)].
    + simpl. by destruct (__EMISSION__ flags).
    + intros _. fold st in Ha, Hb, Hl, Hr. eauto 10.
Qed.

(** C2.  A work-item does domain work only if the ray state of its slot is
    ACTIVE and the flag word of the shading data has SD_BSDF_HAS_EVAL set:
    otherwise it leaves the memory as it was and marks nothing for the
    output queue; so a work-item that changed the memory or marked its slot
    had an ACTIVE slot with an evaluable BSDF. *)
Theorem skipped_unless_active_and_evaluable kg wi d :
  let st := kernel_split_state d in
  let i := fetch_ray_index kg wi d in
  let r := kernel_direct_lighting flags kg wi d in
  (IS_STATE (ray_state st) i RAY_ACTIVE = false ∨ bsdf_has_eval wi st = false →
   r.1 = d ∧ call_marks r.2 = None) ∧
  (r.1 ≠ d ∨ call_marks r.2 ≠ None →
   IS_STATE (ray_state st) i RAY_ACTIVE = true ∧ bsdf_has_eval wi st = true).
Proof.
  intros st i r.
  assert (Hskip : IS_STATE (ray_state st) i RAY_ACTIVE = false ∨
                  bsdf_has_eval wi st = false → r.1 = d ∧ call_marks r.2 = None).
  { intros Hc. apply kernel_direct_lighting_idle. intros _.
    unfold direct_lighting. fold st i.
    destruct Hc as [->| ->]; [done|].
    rewrite andb_false_r. by repeat case_match. }
  split; [done|].
  intros Hw.
  destruct (IS_STATE (ray_state st) i RAY_ACTIVE) eqn:Ha,
           (bsdf_has_eval wi st) eqn:Hb; [done|..];
    destruct Hskip as [? ?]; auto; destruct Hw; done.
Qed.

(** C3.  A dispatched slot that is not accepted this round (not ACTIVE, or
    its BSDF cannot be evaluated, or no light sample is found, or
    [direct_emission] rejects the sample): the memory is left as it was, in
    particular the ray states and the scratch fields [light_ray],
    [bsdf_eval] and [is_lamp], and the work-item marks nothing for the
    output queue. *)
Theorem rejected_slot_untouched kg wi d :
  let st := kernel_split_state d in
  let i := fetch_ray_index kg wi d in
  let r := kernel_direct_lighting flags kg wi d in
  IS_STATE (ray_state st) i RAY_ACTIVE = false ∨
  bsdf_has_eval wi st = false ∨
  draw_light_sample kg wi st i = None ∨
  (∃ ls t, draw_light_sample kg wi st i = Some (ls, t) ∧
           eval_direct_emission flags kg wi st i ls t = None) →
  r.1 = d ∧
  ray_state (kernel_split_state r.1) = ray_state st ∧
  light_ray (kernel_split_state r.1) = light_ray st ∧
  bsdf_eval (kernel_split_state r.1) = bsdf_eval st ∧
  is_lamp (kernel_split_state r.1) = is_lamp st ∧
  call_marks r.2 = None.
Proof.
  intros st i r Hc.
  assert (r.1 = d ∧ call_marks r.2 = None) as [Hd Hm].
  { apply kernel_direct_lighting_idle. intros _.
    unfold direct_lighting. fold st i.
    destruct Hc as [->|[->|[->|(ls & t & -> & ->)]]];
      try done; try rewrite andb_false_r; by repeat case_match. }
  by rewrite Hd.
Qed.


(** C6.  Setting RAY_SHADOW_RAY_CAST_DL with ADD_RAY_FLAG is a bitwise OR:
    every bit set in the state word of the slot before is set after, the
    bits of the flag are set too, and the write of lines 121-123 keeps every
    bit the slot had. *)
Theorem add_ray_flag_keeps_flags (rs : Z → Z) (d : Device) i flag r n :
  Z.testbit (rs i) n = true →
  Z.testbit (ADD_RAY_FLAG rs i flag i) n = true ∧
  ADD_RAY_FLAG rs i flag i = Z.lor (rs i) flag ∧
  (Z.testbit (ray_state (kernel_split_state d) i) n = true →
   Z.testbit (ray_state (kernel_split_state (store_shadow_ray d i r)) i) n = true).
Proof.
  intros Hb. unfold ADD_RAY_FLAG. rewrite upd_eq.
  split; [by rewrite Z.lor_spec, Hb|]. split; [done|].
  intros Hd. destruct r as [[? ?] ?]. simpl.
  unfold ADD_RAY_FLAG. rewrite upd_eq. by rewrite Z.lor_spec, Hd.
Qed.

(** C7.  A work-item whose fetch returns QUEUE_EMPTY_SLOT does no domain
    work: the memory is left as it was, nothing of the slot store enters
    the result, and nothing is marked for the output queue.  In the GPU
    build it returns at once; in the other build it still makes its call of
    [enqueue_ray_index_local], with the flag 0, whenever the call is
    compiled in, and so stays with its group through the barriers without
    touching the counter or the staging buffer. *)
Theorem empty_slot_work_item_is_inert kg wi d :
  fetch_ray_index kg wi d = QUEUE_EMPTY_SLOT →
  let r := kernel_direct_lighting flags kg wi d in
  r = (d, if __COMPUTE_DEVICE_GPU__ flags then None
          else if __EMISSION__ flags
               then Some {| call_ray_index := QUEUE_EMPTY_SLOT;
                            call_queue_number := QUEUE_SHADOW_RAY_CAST_DL_RAYS;
                            call_enqueue_flag := 0;
                            call_queuesize := queue_size (kernel_split_params d) |}
               else None) ∧
  call_marks r.2 = None ∧
  ∀ (G : Group) l t,
    let G' := enqueue_local G l t r.2 in
    local_queue_atomics G' = local_queue_atomics G ∧
    staging G' = staging G ∧
    phase G' = phase G ∧
    (__COMPUTE_DEVICE_GPU__ flags = false → __EMISSION__ flags = true →
     ∃ c, threads G' = <[l := at_pc t (Enqueuing c None)]> (threads G)).
Proof.
  intros He r. subst r. unfold kernel_direct_lighting. rewrite He, Z.eqb_refl.
  rewrite andb_true_r. simpl.
  destruct (__COMPUTE_DEVICE_GPU__ flags); simpl.
  { repeat split; done. }
  destruct (__EMISSION__ flags); simpl.
  - repeat split; try done. intros _ _. eauto.
  - repeat split; done.
Qed.

(** C9.  When [kernel_data.integrator.use_direct_light] is zero the
    work-item samples no light, writes nothing and marks nothing, whatever
    the state of its slot and its BSDF flags. *)
Theorem no_direct_light_no_work kg wi d :
  use_direct_light kg = 0%Z →
  let r := kernel_direct_lighting flags kg wi d in
  r.1 = d ∧ call_marks r.2 = None ∧
  ∀ i e, direct_lighting flags kg wi d i e = (d, e).
Proof.
  intros Hz r.
  assert (Hdl : ∀ i e, direct_lighting flags kg wi d i e = (d, e)).
  { intros. unfold direct_lighting, c_bool. rewrite Hz. simpl.
    by repeat case_match. }
  split_and!; [| |done]; apply kernel_direct_lighting_idle; intros _; apply Hdl.
Qed.

End ThreadProperties.

(** ** Lists *)

Section ListFacts.

Context {A B : Type}.
Implicit Types (f : A → option B) (ts : list A).

Lemma omap_insert_same f ts l t t' :
  ts !! l = Some t → f t' = f t → omap f (<[l:=t']> ts) = omap f ts.
Proof.
  revert l. induction ts as [|a ts IH]; intros [|l] Hl Hf; simplify_eq/=.
  - by rewrite Hf.
  - by rewrite (IH l).
Qed.

Lemma omap_insert_new f ts l t t' x :
  ts !! l = Some t → f t = None → f t' = Some x →
  omap f (<[l:=t']> ts) ≡ₚ x :: omap f ts.
Proof.
  revert l. induction ts as [|a ts IH]; intros [|l] Hl Hn Hs; simplify_eq/=.
  - by rewrite Hn, Hs.
  - destruct (f a); rewrite (IH l) by done; [apply perm_swap|done].
Qed.

Lemma concat_insert_nil (L : list (list A)) g r :
  L !! g = Some [] → concat (<[g:=r]> L) ≡ₚ r ++ concat L.
Proof.
  revert g. induction L as [|a L IH]; intros [|g] Hg; simplify_eq/=; [done|].
  rewrite (IH g) by done. by rewrite !app_assoc, (Permutation_app_comm a r).
Qed.

Lemma elem_of_concat_lookup (L : list (list A)) i a x :
  L !! i = Some a → x ∈ a → x ∈ concat L.
Proof.
  revert i. induction L as [|b L IH]; intros [|i] Hi Hx; simplify_eq/=;
    rewrite elem_of_app; eauto.
Qed.

Lemma concat_disjoint (L : list (list A)) i j a b x :
  NoDup (concat L) → L !! i = Some a → L !! j = Some b → i ≠ j →
  x ∈ a → x ∈ b → False.
Proof.
  revert i j. induction L as [|c L IH]; intros i j Hnd Hi Hj Hne Ha Hb; [done|].
  simpl in Hnd. apply NoDup_app in Hnd as (_ & Hdis & Hnd).
  destruct i as [|i], j as [|j]; simplify_eq/=.
  - eapply Hdis; [done|]. by eapply elem_of_concat_lookup.
  - eapply Hdis; [done|]. by eapply elem_of_concat_lookup.
  - eapply (IH i j); eauto.
Qed.

End ListFacts.

(** ** The invariant is kept by every transition *)

Section RoundProperties.

Context `{X : Collaborators}.
Variable flags : BuildFlags.

Implicit Types (d : Device) (G : Group) (t : Thread) (m : Machine).

Local Abbreviation OUT := QUEUE_SHADOW_RAY_CAST_DL_RAYS.

Lemma updn_eq {A} (f : nat → A) i x : updn f i x i = x.
Proof. unfold updn. by rewrite Nat.eqb_refl. Qed.

Lemma updn_ne {A} (f : nat → A) i j x : j ≠ i → updn f i x j = f j.
Proof. unfold updn. intros H. by destruct (Nat.eqb_spec j i). Qed.

Lemma elem_of_insert_inv {A} (l : list A) i x y :
  y ∈ <[i:=x]> l → y = x ∨ y ∈ l.
Proof.
  intros (j & Hj)%list_elem_of_lookup.
  apply list_lookup_insert_Some in Hj as [(-> & -> & _)|[_ Hj]]; [by left|].
  right. by eapply list_elem_of_lookup_2.
Qed.

Lemma has_origin_insert (ts : list Thread) l t pc :
  ts !! l = Some t →
  existsb (fun t => is_origin (t_wi t)) (<[l:=at_pc t pc]> ts)
  = existsb (fun t => is_origin (t_wi t)) ts.
Proof.
  revert l. induction ts as [|a ts IH]; intros [|l] Hl; simplify_eq/=; [done|].
  by rewrite (IH l).
Qed.

Lemma omap_None {A B} (f : A → option B) (l : list A) :
  Forall (fun a => f a = None) l → omap f l = [].
Proof. induction 1 as [|a l Ha _ IH]; simpl; [done|]. by rewrite Ha. Qed.

(** The invariant of a group looks at the memory only through the capacity
    of the queues and the cells its work-items have copied. *)
Lemma group_inv_ext d d' G :
  queue_size (kernel_split_params d') = queue_size (kernel_split_params d) →
  (∀ t c o, t ∈ threads G → t_pc t = Finished c (Some o) →
     cell_of d' OUT (reserved G + o) = cell_of d OUT (reserved G + o)) →
  group_inv d G → group_inv d' G.
Proof.
  intros Hqs Hcell [H1 H2 H3 H4 H5 H6].
  split; try done.
  - by rewrite Hqs.
  - intros t c o Ht Hpc. rewrite (Hcell t c o Ht Hpc). eauto.
Qed.

(** An offset a work-item holds is below the counter of its group, and the
    staging buffer has the work-item's slot index there. *)
Lemma claim_bound d G t o i :
  group_inv d G → phase G ≠ PhEntry → t ∈ threads G → claim t = Some (o, i) →
  o < local_queue_atomics G ∧ staging G o = i ∧ (o, i) ∈ claims G.
Proof.
  intros HG Hph Ht Hc.
  assert (Hin : (o, i) ∈ claims G).
  { unfold claims. apply list_elem_of_omap. eauto. }
  split_and!; [|by apply (gi_staging _ _ HG)|done].
  assert (o ∈ (claims G).*1) as Ho.
  { apply list_elem_of_fmap. by exists (o, i). }
  rewrite (gi_claims _ _ HG Hph) in Ho. apply elem_of_seq in Ho. lia.
Qed.

Lemma enter_inv d G l t :
  group_inv d G → phase G = PhEntry → threads G !! l = Some t →
  t_pc t = AtEntry → group_inv d (enter G l t).
Proof.
  intros HG Hph Hl Hpc. destruct HG as [H1 H2 H3 H4 H5 H6].
  assert (Hcl : claims (enter G l t) = claims G).
  { unfold claims. simpl. eapply omap_insert_same; [done|].
    unfold claim. simpl. by rewrite Hpc. }
  split; simpl.
  - unfold has_origin. simpl. by rewrite has_origin_insert.
  - apply Forall_insert; [done|]. by rewrite Hph.
  - intros _ (t' & Ht' & Hb & Ho).
    destruct (is_origin (t_wi t)) eqn:Hor; [done|].
    apply elem_of_insert_inv in Ht' as [->|Ht'].
    + simpl in Ho. congruence.
    + apply H3; eauto.
  - intros Hne. simpl in Hne. done.
  - by rewrite Hcl.
  - intros t' c o [->|Ht']%elem_of_insert_inv Hf; [done|]. eauto.
Qed.

Lemma barrier0_inv d G :
  group_inv d G → phase G = PhEntry → forallb waiting (threads G) = true →
  group_inv d (set_phase G (threads G) PhLocal).
Proof.
  intros HG Hph Hw. destruct HG as [H1 H2 H3 H4 H5 H6].
  apply Is_true_true_2, forallb_True in Hw.
  assert (Hwait : ∀ t, t ∈ threads G → t_pc t = AtBarrier).
  { intros t Ht. rewrite Forall_forall in Hw. specialize (Hw t Ht).
    unfold waiting in Hw. by destruct (t_pc t). }
  assert (Hcl : claims G = []).
  { apply omap_None, Forall_forall. intros t Ht. unfold claim.
    by rewrite (Hwait t Ht). }
  split; simpl; try done.
  - rewrite Forall_forall in H2 |- *. intros t Ht.
    destruct (H2 t Ht) as [_ Hc]. by rewrite (Hwait t Ht) in Hc |- *.
  - intros _. change (claims (set_phase G (threads G) PhLocal)) with (claims G).
    rewrite Hcl, H3; [done..|].
    unfold has_origin in H1. apply Is_true_true_2, existb_True in H1.
    apply Exists_exists in H1 as (t & Ht & Ho).
    exists t. split_and!; auto. by apply Is_true_true_1.
Qed.

Lemma enqueue_local_inv d G l t call :
  group_inv d G → phase G = PhLocal → threads G !! l = Some t →
  t_pc t = AtBarrier →
  (∀ c, call = Some c →
     call_queue_number c = OUT ∧
     call_queuesize c = queue_size (kernel_split_params d)) →
  group_inv d (enqueue_local G l t call).
Proof.
  intros HG Hph Hl Hpc Hcall.
  pose proof HG as [H1 H2 H3 H4 H5 H6].
  assert (Hfin : ∀ pc t' c o, (∀ c' o', pc ≠ Finished c' o') →
            t' ∈ <[l:=at_pc t pc]> (threads G) → t_pc t' = Finished c (Some o) →
            cell_of d OUT (reserved G + o) = call_ray_index c).
  { intros pc t' c o Hnf [->|Ht']%elem_of_insert_inv Hf; [|eauto].
    simpl in Hf. by destruct (Hnf _ _ Hf). }
  destruct call as [c|]; simpl;
    [destruct (Hcall c eq_refl) as [Hq Hs];
     destruct (c_bool (call_enqueue_flag c)) eqn:Hflag|].
  - (* the work-item claims the next offset *)
    set (o := local_queue_atomics G).
    assert (Hcl : claims {| threads := <[l:=at_pc t (Enqueuing c (Some o))]> (threads G);
                            local_queue_atomics := S o;
                            staging := updn (staging G) o (call_ray_index c);
                            reserved := reserved G; phase := phase G |}
                  ≡ₚ (o, call_ray_index c) :: claims G).
    { unfold claims. simpl. eapply omap_insert_new; [done| |done].
      unfold claim. by rewrite Hpc. }
    assert (Hseq : seq 0 (S o) ≡ₚ o :: seq 0 o).
    { rewrite seq_S. simpl. by rewrite Permutation_app_comm. }
    split; simpl; simpl in Hseq.
    + unfold has_origin. simpl. by rewrite has_origin_insert.
    + apply Forall_insert; [done|]. rewrite Hph. simpl.
      split_and!; try done.
    + by rewrite Hph.
    + intros _. rewrite Hcl, fmap_cons, H4 by by rewrite Hph.
      symmetry. apply Hseq.
    + intros o' i Hin. rewrite Hcl in Hin.
      apply elem_of_cons in Hin as [[= -> ->]|Hin]; [by rewrite updn_eq|].
      rewrite updn_ne; [eauto|].
      assert (o' ∈ (claims G).*1) as Ho.
      { apply list_elem_of_fmap. by exists (o', i). }
      rewrite H4 in Ho by by rewrite Hph. apply elem_of_seq in Ho. lia.
    + intros t' c' o'. by apply Hfin.
  - (* the work-item abstains *)
    assert (Hcl : claims (set_phase G (<[l:=at_pc t (Enqueuing c None)]> (threads G)) (phase G))
                  = claims G).
    { unfold claims. simpl. eapply omap_insert_same; [done|].
      unfold claim. simpl. by rewrite Hpc. }
    split; simpl; simpl in Hcl; try done; try (intros; congruence).
    + unfold has_origin. simpl. by rewrite has_origin_insert.
    + apply Forall_insert; [done|]. rewrite Hph. simpl.
      split_and!; try done. all: split; [by intros [? ?]|intros; congruence].
    + intros Hne. rewrite Hcl. by apply H4.
    + intros o' i. rewrite Hcl. eauto.
    + intros t' c' o'. by apply Hfin.
  - (* the work-item has returned *)
    assert (Hcl : claims (set_phase G (<[l:=at_pc t Returned]> (threads G)) (phase G))
                  = claims G).
    { unfold claims. simpl. eapply omap_insert_same; [done|].
      unfold claim. simpl. by rewrite Hpc. }
    split; simpl; simpl in Hcl; try done; try (intros; congruence).
    + unfold has_origin. simpl. by rewrite has_origin_insert.
    + apply Forall_insert; [done|]. by rewrite Hph.
    + intros Hne. rewrite Hcl. by apply H4.
    + intros o' i. rewrite Hcl. eauto.
    + intros t' c' o'. by apply Hfin.
Qed.

Lemma barrier1_inv d G :
  group_inv d G → phase G = PhLocal → forallb past_local (threads G) = true →
  group_inv d (set_phase G (threads G) PhReserve).
Proof.
  intros [H1 H2 H3 H4 H5 H6] Hph Hw.
  apply Is_true_true_2, forallb_True in Hw.
  split; simpl; try done.
  - rewrite Forall_forall in H2, Hw |- *. intros t Ht.
    destruct (H2 t Ht) as [_ Hc]. specialize (Hw t Ht).
    split; [|done]. unfold past_local in Hw. by destruct (t_pc t).
  - intros _. apply H4. by rewrite Hph.
Qed.

(** No work-item of a group has copied before the group is in the last
    phase. *)
Lemma no_copy_before_PhCopy d G t c o :
  group_inv d G → t ∈ threads G → t_pc t = Finished c o → phase G = PhCopy.
Proof.
  intros HG Ht Hf. pose proof (gi_pc _ _ HG) as H2.
  rewrite Forall_forall in H2. destruct (H2 t Ht) as [Hp _].
  rewrite Hf in Hp. by destruct (phase G).
Qed.

Lemma reserve_inv d G :
  group_inv d G → phase G = PhReserve →
  group_inv (enqueue_reserve d G).1 (enqueue_reserve d G).2.
Proof.
  intros HG Hph. pose proof HG as [H1 H2 H3 H4 H5 H6].
  assert (Hnf : ∀ t c o, t ∈ threads G → t_pc t = Finished c o → False).
  { intros t c o Ht Hf.
    pose proof (no_copy_before_PhCopy _ _ _ _ _ HG Ht Hf). congruence. }
  assert (Hpc : Forall (fun t => pc_ok PhReserved (t_pc t) ∧
                  call_ok (queue_size (kernel_split_params d)) (t_pc t)) (threads G)).
  { by rewrite Hph in H2. }
  unfold enqueue_reserve.
  destruct (representative (threads G)) as [c|]; simpl;
    (split; simpl; try done;
     [ intros _; apply H4; by rewrite Hph
     | try (intros t c' o Ht Hf; by destruct (Hnf _ _ _ Ht Hf)) .. ]).
Qed.

Lemma claim_release t : claim (release t) = claim t.
Proof. by destruct t as [kg wi [| | |c [o|]|c [o|]]]. Qed.

Lemma claims_release (ts : list Thread) :
  omap claim (release <$> ts) = omap claim ts.
Proof.
  induction ts as [|t ts IH]; csimpl; [done|]. by rewrite claim_release, IH.
Qed.

Lemma barrier2_inv d G :
  group_inv d G → phase G = PhReserved →
  group_inv d (set_phase G (release <$> threads G) PhCopy).
Proof.
  intros HG Hph. pose proof HG as [H1 H2 H3 H4 H5 H6].
  assert (Hcl : claims (set_phase G (release <$> threads G) PhCopy) = claims G).
  { unfold claims. simpl. apply claims_release. }
  split; simpl; simpl in Hcl; try done.
  - unfold has_origin in *. simpl. rewrite <- H1. clear.
    induction (threads G) as [|t ts IH]; csimpl; [done|]. rewrite IH. f_equal.
    by destruct t as [kg wi [| | |c [o|]|c [o|]]].
  - apply Forall_fmap. eapply Forall_impl; [exact H2|].
    intros t [Hp Hc]. rewrite Hph in Hp. simpl.
    by destruct t as [kg wi [| | |c [o|]|c [o|]]].
  - intros _. rewrite Hcl. apply H4. by rewrite Hph.
  - intros o i. rewrite Hcl. eauto.
  - intros t' c o (t & -> & Ht)%list_elem_of_fmap Hf.
    pose proof (proj1 (Forall_forall _ _) H2 t Ht) as [Hp _].
    rewrite Hph in Hp.
    by destruct t as [kg wi [| | |c' [o'|]|c' [o'|]]].
Qed.

Lemma copy_inv d G l t c o :
  group_inv d G → phase G = PhCopy → threads G !! l = Some t →
  t_pc t = Enqueuing c (Some o) →
  group_inv (write_queue d OUT (reserved G + o) (staging G o))
            (set_phase G (<[l:=at_pc t (Finished c (Some o))]> (threads G)) PhCopy).
Proof.
  intros HG Hph Hl Hpc. pose proof HG as [H1 H2 H3 H4 H5 H6].
  assert (Ht : t ∈ threads G) by by eapply list_elem_of_lookup_2.
  assert (Hcl : claims (set_phase G (<[l:=at_pc t (Finished c (Some o))]> (threads G)) PhCopy)
                = claims G).
  { unfold claims. simpl. eapply omap_insert_same; [done|].
    unfold claim. simpl. by rewrite Hpc. }
  assert (Hw : ∀ j, cell_of (write_queue d OUT (reserved G + o) (staging G o)) OUT j
               = updn (cell_of d OUT) (reserved G + o) (staging G o) j).
  { done. }
  assert (Hstg : ∀ t' c' o', t' ∈ threads G ∨ t' = at_pc t (Finished c (Some o)) →
            claim t' = Some (o', call_ray_index c') →
            staging G o' = call_ray_index c').
  { intros t' c' o' [Ht'| ->] Hc'.
    - eapply claim_bound; eauto. by rewrite Hph.
    - simpl in Hc'. unfold claim in Hc'. simpl in Hc'.
      injection Hc' as <- <-.
      eapply (claim_bound d G t); eauto; [by rewrite Hph|].
      unfold claim. by rewrite Hpc. }
  split; simpl; simpl in Hcl; try done.
  - unfold has_origin. simpl. by rewrite has_origin_insert.
  - apply Forall_insert.
    + eapply Forall_impl; [exact H2|]. intros t' [Hp Hc]. by rewrite Hph in Hp.
    + simpl. pose proof (proj1 (Forall_forall _ _) H2 t Ht) as [_ Hc].
      by rewrite Hpc in Hc.
  - intros _. rewrite Hcl. apply H4. by rewrite Hph.
  - intros o' i. rewrite Hcl. eauto.
  - intros t' c' o' Ht' Hf. rewrite Hw.
    assert (Hs : staging G o' = call_ray_index c').
    { apply (Hstg t' c' o').
      - apply elem_of_insert_inv in Ht' as [->|?]; auto.
      - unfold claim. by rewrite Hf. }
    destruct (decide (o' = o)) as [->|Hne].
    + by rewrite updn_eq.
    + rewrite updn_ne by lia.
      apply elem_of_insert_inv in Ht' as [->|Ht'].
      * simpl in Hf. congruence.
      * eauto.
Qed.

Lemma region_insert_same (Gs : list Group) g G G' :
  Gs !! g = Some G → region G' = region G →
  region <$> <[g:=G']> Gs = region <$> Gs.
Proof.
  intros Hg Hr. rewrite list_fmap_insert, Hr.
  apply list_insert_id. by rewrite list_lookup_fmap, Hg.
Qed.

(** A transition that changes one group, and of the memory neither the
    output queue nor the capacity, keeps the invariant if the group keeps
    its own and its region. *)
Lemma with_group_inv n0 m g G d' G' :
  machine_inv n0 m → groups m !! g = Some G →
  queue_size (kernel_split_params d') = queue_size (kernel_split_params (device m)) →
  count_of d' OUT = count_of (device m) OUT →
  (∀ j, cell_of d' OUT j = cell_of (device m) OUT j) →
  group_inv (device m) G' → region G' = region G →
  machine_inv n0 (with_group m g d' G').
Proof.
  intros [Hgs Hc Hr] Hg Hqs Hcnt Hcell HG' Hreg.
  split; simpl.
  - apply Forall_insert.
    + eapply Forall_impl; [exact Hgs|]. intros G2. by apply group_inv_ext.
    + revert HG'. by apply group_inv_ext.
  - by rewrite Hcnt.
  - by rewrite Hcnt, (region_insert_same _ _ G).
Qed.

Lemma representative_Some (ts : list Thread) c :
  representative ts = Some c → ∃ t o, t ∈ ts ∧ t_pc t = Enqueuing c o.
Proof.
  unfold representative. intros Hh%head_Some_elem_of.
  apply list_elem_of_omap in Hh as (t & Ht & Hc).
  exists t. destruct (t_pc t) as [| | |c' o|]; simplify_eq. eauto.
Qed.

Lemma representative_None (ts : list Thread) t c o :
  representative ts = None → t ∈ ts → t_pc t ≠ Enqueuing c o.
Proof.
  unfold representative. intros Hh Ht Hpc.
  destruct (omap _ ts) as [|x l] eqn:Ho; [|done].
  assert (c ∈ omap (λ t, match t_pc t with Enqueuing c _ => Some c | _ => None end) ts) as Hin.
  { apply list_elem_of_omap. exists t. by rewrite Hpc. }
  rewrite Ho in Hin. by apply elem_of_nil in Hin.
Qed.

Lemma reserve_machine_inv n0 m g G :
  machine_inv n0 m → groups m !! g = Some G → phase G = PhReserve →
  machine_inv n0 (with_group m g (enqueue_reserve (device m) G).1
                                 (enqueue_reserve (device m) G).2).
Proof.
  intros Hm Hg Hph. pose proof Hm as [Hgs Hc Hr].
  assert (HG : group_inv (device m) G) by by eapply Forall_lookup_1.
  pose proof (reserve_inv _ _ HG Hph) as HG'.
  assert (Hreg : region G = []) by (unfold region; by rewrite Hph).
  unfold enqueue_reserve in *.
  destruct (representative (threads G)) as [c|] eqn:Hrep; simpl in *.
  - apply representative_Some in Hrep as (t & o & Ht & Hpc).
    pose proof (proj1 (Forall_forall _ _) (gi_pc _ _ HG) t Ht) as [_ Hcall].
    rewrite Hpc in Hcall. destruct Hcall as (Hq & _ & _). rewrite Hq in *.
    set (start := count_of (device m) OUT) in *.
    set (lc := local_queue_atomics G) in *.
    assert (Hcnt : count_of (set_queue_index (device m)
              (updq (queue_index (kernel_split_params (device m))) OUT (start + lc))) OUT
              = start + lc) by done.
    split; simpl.
    + apply Forall_insert; [|done].
      eapply Forall_impl; [exact Hgs|]. intros G2. by apply group_inv_ext.
    + rewrite Hcnt. lia.
    + rewrite Hcnt, list_fmap_insert.
      rewrite concat_insert_nil by by rewrite list_lookup_fmap, Hg, <- Hreg.
      unfold region at 1. simpl. fold start lc.
      replace (start + lc - n0) with ((start - n0) + lc) by lia.
      rewrite seq_app, Hr, Permutation_app_comm.
      by replace (n0 + (start - n0)) with start by lia.
  - eapply with_group_inv; eauto.
    rewrite Hreg. unfold region. simpl.
    assert (Hcl : claims G = []).
    { apply omap_None, Forall_forall. intros t Ht.
      pose proof (proj1 (Forall_forall _ _) (gi_pc _ _ HG) t Ht) as [Hp _].
      rewrite Hph in Hp. unfold claim.
      destruct (t_pc t) as [| | |c o|] eqn:Hpc; try done.
      by destruct (representative_None _ _ _ _ Hrep Ht Hpc). }
    assert (Hlc : (claims G).*1 ≡ₚ seq 0 (local_queue_atomics G)).
    { apply (gi_claims _ _ HG). by rewrite Hph. }
    rewrite Hcl in Hlc. apply Permutation_length in Hlc.
    rewrite length_seq in Hlc. simpl in Hlc. by rewrite <- Hlc.
Qed.

Lemma regions_NoDup n0 m : machine_inv n0 m → NoDup (concat (region <$> groups m)).
Proof. intros [_ _ Hr]. rewrite <- Hr. apply NoDup_seq. Qed.

Lemma copy_machine_inv n0 m g G l t c o :
  machine_inv n0 m → groups m !! g = Some G → phase G = PhCopy →
  threads G !! l = Some t → t_pc t = Enqueuing c (Some o) →
  machine_inv n0
    (with_group m g
       (write_queue (device m) (call_queue_number c) (reserved G + o) (staging G o))
       (set_phase G (<[l:=at_pc t (Finished c (Some o))]> (threads G)) PhCopy)).
Proof.
  intros Hm Hg Hph Hl Hpc. pose proof Hm as [Hgs Hc Hr].
  assert (HG : group_inv (device m) G) by by eapply Forall_lookup_1.
  assert (Ht : t ∈ threads G) by by eapply list_elem_of_lookup_2.
  pose proof (proj1 (Forall_forall _ _) (gi_pc _ _ HG) t Ht) as [_ Hcall].
  rewrite Hpc in Hcall. destruct Hcall as (Hq & _ & _). rewrite Hq.
  assert (Ho : o < local_queue_atomics G).
  { eapply (claim_bound _ G t); eauto; [by rewrite Hph|].
    unfold claim. by rewrite Hpc. }
  split; simpl.
  - apply Forall_lookup. intros j G2 Hj.
    apply list_lookup_insert_Some in Hj as [(<- & <- & _)|[Hne Hj]].
    { by apply copy_inv. }
    assert (HG2 : group_inv (device m) G2) by by eapply Forall_lookup_1.
    apply (group_inv_ext (device m) _ G2); [done| |exact HG2].
    intros t2 c2 o2 Ht2 Hf2.
    change (updn (cell_of (device m) OUT) (reserved G + o) (staging G o)
                 (reserved G2 + o2) = cell_of (device m) OUT (reserved G2 + o2)).
    apply updn_ne. intros Heq.
    assert (Hph2 : phase G2 = PhCopy)
      by (eapply (no_copy_before_PhCopy _ G2 t2); eauto).
    assert (Ho2 : o2 < local_queue_atomics G2).
    { eapply (claim_bound _ G2 t2); eauto; [by rewrite Hph2|].
      unfold claim. by rewrite Hf2. }
    eapply (concat_disjoint (region <$> groups m) g j (region G) (region G2)
              (reserved G + o)); eauto using regions_NoDup.
    + by rewrite list_lookup_fmap, Hg.
    + by rewrite list_lookup_fmap, Hj.
    + unfold region. rewrite Hph. apply elem_of_seq. lia.
    + unfold region. rewrite Hph2, <- Heq. apply elem_of_seq. lia.
  - done.
  - change (count_of (write_queue (device m) OUT (reserved G + o) (staging G o)) OUT)
      with (count_of (device m) OUT).
    rewrite (region_insert_same _ _ G); [done..|].
    unfold region. simpl. by rewrite Hph.
Qed.

(** Every transition keeps the invariant. *)
Lemma step_inv n0 a m m' :
  machine_inv n0 m → step flags a m = Some m' → machine_inv n0 m'.
Proof.
  intros Hm Hs. pose proof Hm as [Hgs Hc Hr].
  destruct a as [g l|g|g l|g|g|g|g l]; simpl in Hs;
    destruct (groups m !! g) as [G|] eqn:Hg; simplify_eq/=;
    assert (HG : group_inv (device m) G) by (by eapply Forall_lookup_1).
  - (* Enter *)
    destruct (threads G !! l) as [t|] eqn:Hl; simplify_eq/=.
    destruct (phase G) eqn:Hph, (t_pc t) eqn:Hpc; simplify_eq/=.
    eapply with_group_inv; eauto using enter_inv.
    unfold region. simpl. by rewrite Hph.
  - (* Barrier0 *)
    destruct (phase G) eqn:Hph; simplify_eq/=.
    destruct (forallb waiting (threads G)) eqn:Hw; simplify_eq/=.
    eapply with_group_inv; eauto using barrier0_inv.
    unfold region. simpl. by rewrite Hph.
  - (* Run *)
    destruct (threads G !! l) as [t|] eqn:Hl; simplify_eq/=.
    destruct (phase G) eqn:Hph, (t_pc t) eqn:Hpc; simplify_eq/=.
    destruct (kernel_direct_lighting flags (t_kg t) (t_wi t) (device m))
      as [d' call] eqn:Hk. simplify_eq/=.
    pose proof (kernel_direct_lighting_frame flags (t_kg t) (t_wi t) (device m))
      as [Hp Hq]. rewrite Hk in Hp, Hq. simpl in Hp, Hq.
    eapply with_group_inv; eauto.
    + by rewrite Hp.
    + unfold count_of. by rewrite Hp.
    + intros j. unfold cell_of. by rewrite Hq.
    + apply enqueue_local_inv; auto.
      intros c ->. apply kernel_direct_lighting_call in Hk. tauto.
    + unfold region, enqueue_local. rewrite Hph.
      destruct call as [c|]; [destruct (c_bool _)|]; simpl; by rewrite ?Hph.
  - (* Barrier1 *)
    destruct (phase G) eqn:Hph; simplify_eq/=.
    destruct (forallb past_local (threads G)) eqn:Hw; simplify_eq/=.
    eapply with_group_inv; eauto using barrier1_inv.
    unfold region. simpl. by rewrite Hph.
  - (* Reserve *)
    destruct (phase G) eqn:Hph; simplify_eq/=.
    pose proof (reserve_machine_inv n0 m g G Hm Hg Hph) as Hres.
    by destruct (enqueue_reserve (device m) G) as [d' G']; simplify_eq/=.
  - (* Barrier2 *)
    destruct (phase G) eqn:Hph; simplify_eq/=.
    eapply with_group_inv; eauto using barrier2_inv.
    unfold region. simpl. by rewrite Hph.
  - (* Copy *)
    destruct (threads G !! l) as [t|] eqn:Hl; simplify_eq/=.
    destruct (phase G) eqn:Hph, (t_pc t) as [| | |c [o|]|] eqn:Hpc; simplify_eq/=.
    unfold enqueue_copy in Hs. case_decide; simplify_eq/=.
    by apply copy_machine_inv.
Qed.

Lemma exec_inv n0 tr m m' :
  machine_inv n0 m → exec flags tr m = Some m' → machine_inv n0 m'.
Proof.
  revert m. induction tr as [|a tr IH]; intros m Hm He; simplify_eq/=; [done|].
  destruct (step flags a m) as [m1|] eqn:Hs; simplify_eq/=.
  eauto using step_inv.
Qed.

(** The invariant holds when the round starts. *)
Lemma initial_inv m :
  initial m = true → well_formed m = true →
  machine_inv (count_of (device m) OUT) m.
Proof.
  intros Hi Hw. unfold initial, well_formed in *.
  apply Is_true_true_2, forallb_True in Hi, Hw.
  assert (Hg : ∀ G, G ∈ groups m →
            phase G = PhEntry ∧ has_origin G = true ∧
            ∀ t, t ∈ threads G → t_pc t = AtEntry).
  { intros G HG. rewrite Forall_forall in Hi, Hw.
    specialize (Hi G HG). specialize (Hw G HG).
    apply andb_True in Hi as [Hp Ht]. apply bool_decide_unpack in Hp.
    split_and!; [done|by apply Is_true_true_1|].
    apply forallb_True in Ht. rewrite Forall_forall in Ht.
    intros t Hin. specialize (Ht t Hin). by destruct (t_pc t). }
  split.
  - apply Forall_forall. intros G HG. destruct (Hg G HG) as (Hp & Ho & Ht).
    assert (Hcl : claims G = []).
    { apply omap_None, Forall_forall. intros t Hin. unfold claim.
      by rewrite (Ht t Hin). }
    split; try done.
    + apply Forall_forall. intros t Hin. by rewrite Hp, (Ht t Hin).
    + intros _ (t & Hin & Hb & _). rewrite (Ht t Hin) in Hb. done.
    + intros o i. rewrite Hcl. by intros ?%elem_of_nil.
    + intros t c o Hin Hf. rewrite (Ht t Hin) in Hf. done.
  - done.
  - rewrite Nat.sub_diag. simpl.
    assert (Hnil : Forall (fun G => region G = []) (groups m)).
    { apply Forall_forall. intros G HG. destruct (Hg G HG) as (Hp & _).
      unfold region. by rewrite Hp. }
    clear -Hnil. induction Hnil as [|G Gs HG _ IH]; csimpl; [done|].
    by rewrite HG.
Qed.

(** ** The output queue at the end of a round *)

Lemma fmap_concat {A B} (f : A → B) (L : list (list A)) :
  f <$> concat L = concat ((fun l : list A => f <$> l) <$> L).
Proof.
  induction L as [|a L IH]; csimpl; [done|]. by rewrite fmap_app, IH.
Qed.

Lemma concat_perm {A B} (f h : A → list B) (l : list A) :
  Forall (fun a => f a ≡ₚ h a) l → concat (f <$> l) ≡ₚ concat (h <$> l).
Proof. induction 1 as [|a l Ha _ IH]; csimpl; [done|]. by rewrite Ha, IH. Qed.

(** The slot indices of the work-items that have left the kernel with an
    offset are the slot indices they marked. *)
Lemma marked_claims qs (ts : list Thread) :
  Forall (fun t => done t = true ∧ call_ok qs (t_pc t)) ts →
  (omap claim ts).*2 = omap marked ts.
Proof.
  induction 1 as [|t ts [Hd Hc] _ IH]; csimpl; [done|].
  unfold claim, marked, done in *.
  destruct (t_pc t) as [| | |c o|c [o|]]; simplify_eq/=; try done.
  - destruct Hc as (_ & _ & Hf).
    rewrite (proj1 Hf) by by eexists. csimpl. by rewrite IH.
  - destruct Hc as (_ & _ & Hf).
    destruct (c_bool (call_enqueue_flag c)); [|done].
    by destruct (proj2 Hf eq_refl).
Qed.

(** When a group is through, the region it reserved holds the slot indices
    its work-items marked. *)
Lemma group_cells d G :
  group_inv d G → phase G = PhCopy → forallb done (threads G) = true →
  cell_of d OUT <$> region G ≡ₚ omap marked (threads G).
Proof.
  intros HG Hph Hd. apply Is_true_true_2, forallb_True in Hd.
  rewrite Forall_forall in Hd.
  assert (Hdone : ∀ t, t ∈ threads G → done t = true).
  { intros t Ht. by apply Is_true_true_1, Hd. }
  rewrite <- (marked_claims (queue_size (kernel_split_params d))).
  2:{ apply Forall_forall. intros t Ht. split; [auto|].
      by apply (proj1 (Forall_forall _ _) (gi_pc _ _ HG) t Ht). }
  unfold region. rewrite Hph.
  replace (seq (reserved G) (local_queue_atomics G))
    with (Nat.add (reserved G) <$> seq 0 (local_queue_atomics G))
    by (rewrite fmap_add_seq; f_equal; lia).
  rewrite <- (gi_claims _ _ HG) by by rewrite Hph.
  rewrite <- !list_fmap_compose.
  assert (Heq : (cell_of d OUT ∘ Nat.add (reserved G) ∘ fst) <$> claims G
                = snd <$> claims G); [|by rewrite Heq].
  apply Forall_fmap_ext_1, Forall_forall.
  intros [o i] Hin. simpl.
  apply list_elem_of_omap in Hin as (t & Ht & Hc).
  specialize (Hdone t Ht). unfold claim in Hc. unfold done in Hdone.
  destruct (t_pc t) as [| | |c' o'|c' [o'|]] eqn:Hpc; simplify_eq/=.
  by eapply (gi_copied _ _ HG).
Qed.

Lemma completed_cells n0 m :
  machine_inv n0 m → completed m = true →
  count_of (device m) OUT = n0 + length (marked_slots m) ∧
  queue_cells (device m) OUT n0 (length (marked_slots m)) ≡ₚ marked_slots m.
Proof.
  intros [Hgs Hc Hr] Hcomp. unfold completed in Hcomp.
  apply Is_true_true_2, forallb_True in Hcomp.
  assert (Hall : cell_of (device m) OUT
                   <$> seq n0 (count_of (device m) OUT - n0)
                 ≡ₚ marked_slots m).
  { rewrite Hr, fmap_concat, <- list_fmap_compose. unfold marked_slots.
    apply concat_perm. apply Forall_forall. intros G HG. simpl.
    rewrite Forall_forall in Hgs, Hcomp.
    specialize (Hcomp G HG). apply andb_True in Hcomp as [Hp Hd].
    apply bool_decide_unpack in Hp. apply Is_true_true_1 in Hd.
    by apply group_cells; auto. }
  assert (Hlen : count_of (device m) OUT - n0 = length (marked_slots m)).
  { apply Permutation_length in Hall.
    by rewrite length_fmap, length_seq in Hall. }
  split; [lia|]. unfold queue_cells. by rewrite <- Hlen.
Qed.

(** What a work-item has marked in the machine is what its run of the
    kernel marked. *)
Lemma run_records_call m g l G t m' :
  groups m !! g = Some G → threads G !! l = Some t →
  step flags (Run g l) m = Some m' →
  let r := kernel_direct_lighting flags (t_kg t) (t_wi t) (device m) in
  device m' = r.1 ∧
  ∃ G' t', groups m' !! g = Some G' ∧ threads G' !! l = Some t' ∧
           marked t' = snd <$> call_marks r.2.
Proof.
  intros Hg Hl Hs. simpl in Hs. rewrite Hg in Hs. simpl in Hs.
  rewrite Hl in Hs. simpl in Hs.
  destruct (phase G), (t_pc t); simplify_eq/=.
  destruct (kernel_direct_lighting flags (t_kg t) (t_wi t) (device m))
    as [d' call]. simplify_eq/=.
  split; [done|].
  pose proof (lookup_lt_Some _ _ _ Hg) as Hlg.
  pose proof (lookup_lt_Some _ _ _ Hl) as Hll.
  exists (enqueue_local G l t call).
  assert (Ht : ∀ pc, <[l:=at_pc t pc]> (threads G) !! l = Some (at_pc t pc))
    by (intros; by apply list_lookup_insert_eq).
  unfold enqueue_local, marked.
  destruct call as [c|]; [destruct (c_bool _) eqn:Hf|]; simpl;
    eexists; (split; [by apply list_lookup_insert_eq|]);
    (split; [apply Ht|]); simpl; by rewrite ?Hf.
Qed.

(** ** The queues a round writes *)

Lemma step_frame a m m' :
  calls_to_out m → step flags a m = Some m' →
  calls_to_out m' ∧ same_other_queues (device m) (device m').
Proof.
  intros Hc Hs. unfold calls_to_out in *.
  assert (Hsame : same_other_queues (device m) (device m)) by done.
  assert (Hins : ∀ g G ts',
            groups m !! g = Some G →
            (∀ t, t ∈ ts' → t ∈ threads G ∨ call_to_out (t_pc t)) →
            ∀ lc sg r p,
            Forall (fun G => Forall (fun t => call_to_out (t_pc t)) (threads G))
              (<[g := {| threads := ts'; local_queue_atomics := lc;
                         staging := sg; reserved := r; phase := p |}]>
                 (groups m))).
  { intros g G ts' Hg Hts lc sg r p. simpl. apply Forall_insert; [done|].
    simpl. apply Forall_forall. intros t [Ht|Ht]%Hts; [|done].
    pose proof (Forall_lookup_1 _ _ _ _ Hc Hg) as HG.
    by apply (proj1 (Forall_forall _ _) HG). }
  destruct a as [g l|g|g l|g|g|g|g l]; simpl in Hs;
    destruct (groups m !! g) as [G|] eqn:Hg; simplify_eq/=;
    pose proof (Forall_lookup_1 _ _ _ _ Hc Hg) as HG.
  - destruct (threads G !! l) as [t|] eqn:Hl; simplify_eq/=.
    destruct (phase G), (t_pc t); simplify_eq/=.
    split; [|exact Hsame]. eapply Hins; [done|].
    intros t' [->|?]%elem_of_insert_inv; [by right|by left].
  - destruct (phase G); simplify_eq/=.
    destruct (forallb waiting (threads G)); simplify_eq/=.
    split; [|exact Hsame]. eapply Hins; eauto.
  - destruct (threads G !! l) as [t|] eqn:Hl; simplify_eq/=.
    destruct (phase G), (t_pc t); simplify_eq/=.
    destruct (kernel_direct_lighting flags (t_kg t) (t_wi t) (device m))
      as [d' call] eqn:Hk. simplify_eq/=.
    pose proof (kernel_direct_lighting_frame flags (t_kg t) (t_wi t) (device m))
      as [Hp Hq]. rewrite Hk in Hp, Hq. simpl in Hp, Hq.
    split.
    + unfold enqueue_local.
      destruct call as [c|]; [destruct (c_bool _)|]; (eapply Hins; [done|]);
        (intros t' [->|?]%elem_of_insert_inv; [right; simpl|by left]);
        try done; apply kernel_direct_lighting_call in Hk; tauto.
    + intros q _. unfold count_of. by rewrite Hp, Hq.
  - destruct (phase G); simplify_eq/=.
    destruct (forallb past_local (threads G)); simplify_eq/=.
    split; [|exact Hsame]. eapply Hins; eauto.
  - destruct (phase G); simplify_eq/=.
    unfold enqueue_reserve in Hs.
    destruct (representative (threads G)) as [c|] eqn:Hrep; simplify_eq/=.
    + split; [eapply Hins; eauto|].
      apply representative_Some in Hrep as (t & o & Ht & Hpc).
      pose proof (proj1 (Forall_forall _ _) HG t Ht) as Hout.
      simpl in Hout. rewrite Hpc in Hout. simpl in Hout. rewrite Hout.
      intros q Hq. split; [done|].
      unfold count_of, updq. simpl. by case_decide.
    + split; [eapply Hins; eauto|exact Hsame].
  - destruct (phase G); simplify_eq/=.
    split; [|exact Hsame]. eapply Hins; [done|].
    intros t' (t & -> & Ht)%list_elem_of_fmap. right.
    pose proof (proj1 (Forall_forall _ _) HG t Ht) as Hout.
    by destruct t as [kg wi [| | |c [o|]|c [o|]]].
  - destruct (threads G !! l) as [t|] eqn:Hl; simplify_eq/=.
    destruct (phase G), (t_pc t) as [| | |c [o|]|] eqn:Hpc; simplify_eq/=.
    unfold enqueue_copy in Hs. case_decide; simplify_eq/=.
    assert (Hout : call_queue_number c = OUT).
    { pose proof (proj1 (Forall_forall _ _) HG t
                    (list_elem_of_lookup_2 _ _ _ Hl)) as Hout.
      simpl in Hout. by rewrite Hpc in Hout. }
    split.
    + eapply Hins; [done|].
      intros t' [->|?]%elem_of_insert_inv; [by right|by left].
    + rewrite Hout. intros q Hq. split; [|done].
      unfold write_queue, updq. simpl. by case_decide.
Qed.

Lemma exec_frame tr m m' :
  calls_to_out m → exec flags tr m = Some m' →
  same_other_queues (device m) (device m').
Proof.
  revert m. induction tr as [|a tr IH]; intros m Hc He; simplify_eq/=; [done|].
  destruct (step flags a m) as [m1|] eqn:Hs; simplify_eq/=.
  destruct (step_frame _ _ _ Hc Hs) as [Hc1 H1].
  specialize (IH m1 Hc1 He). intros q Hq.
  destruct (IH q Hq) as [-> ->]. by apply H1.
Qed.

Lemma initial_calls m : initial m = true → calls_to_out m.
Proof.
  intros Hi. unfold initial in Hi. apply Is_true_true_2, forallb_True in Hi.
  unfold calls_to_out. eapply Forall_impl; [exact Hi|]. intros G HG.
  apply andb_True in HG as [_ Ht]. apply forallb_True in Ht.
  eapply Forall_impl; [exact Ht|]. intros t Hpc. simpl in *.
  by destruct (t_pc t).
Qed.

(** ** Every round can be completed *)

Lemma sum_list_with_insert {A} (f : A → nat) (l : list A) i x y :
  l !! i = Some x →
  sum_list_with f (<[i:=y]> l) + f x = sum_list_with f l + f y.
Proof.
  revert i. induction l as [|a l IH]; intros [|i] Hi; simplify_eq/=; [lia|].
  specialize (IH i Hi). lia.
Qed.

Lemma sum_list_with_pos {A} (f : A → nat) (l : list A) :
  sum_list_with f l ≠ 0 → ∃ i x, l !! i = Some x ∧ f x ≠ 0.
Proof.
  induction l as [|a l IH]; simpl; [done|]. intros Hs.
  destruct (decide (f a = 0)) as [Ha|Ha].
  - destruct IH as (i & x & Hi & Hx); [lia|]. by exists (S i), x.
  - by exists 0, a.
Qed.

Lemma sum_list_with_zero {A} (f : A → nat) (l : list A) :
  sum_list_with f l = 0 ↔ Forall (fun a => f a = 0) l.
Proof.
  induction l as [|a l IH]; simpl; [done|].
  rewrite Forall_cons, <- IH. lia.
Qed.

Lemma remaining_with_group m g G d G' :
  groups m !! g = Some G →
  remaining (with_group m g d G') + group_weight G
  = remaining m + group_weight G'.
Proof. intros Hg. unfold remaining. simpl. by apply sum_list_with_insert. Qed.

Lemma thread_weight_insert (ts : list Thread) l t pc :
  ts !! l = Some t →
  sum_list_with thread_weight (<[l:=at_pc t pc]> ts) + pc_weight (t_pc t)
  = sum_list_with thread_weight ts + pc_weight pc.
Proof.
  intros Hl. exact (sum_list_with_insert thread_weight ts l t (at_pc t pc) Hl).
Qed.

Lemma release_weight (ts : list Thread) :
  sum_list_with thread_weight (release <$> ts) ≤ sum_list_with thread_weight ts.
Proof.
  induction ts as [|t ts IH]; csimpl; [done|].
  assert (thread_weight (release t) ≤ thread_weight t); [|lia].
  destruct t as [kg wi [| | |c [o|]|c [o|]]]; unfold thread_weight; simpl; lia.
Qed.

(** Every transition brings the round nearer to its end. *)
Lemma step_decreases a m m' :
  step flags a m = Some m' → remaining m' < remaining m.
Proof.
  intros Hs.
  destruct a as [g l|g|g l|g|g|g|g l]; simpl in Hs;
    destruct (groups m !! g) as [G|] eqn:Hg; simplify_eq/=.
  - destruct (threads G !! l) as [t|] eqn:Hl; simplify_eq/=.
    destruct (phase G) eqn:Hph, (t_pc t) eqn:Hpc; simplify_eq/=.
    pose proof (remaining_with_group m g G (device m) (enter G l t) Hg) as Hr.
    pose proof (thread_weight_insert _ _ _ AtBarrier Hl) as Ht.
    unfold group_weight in Hr. simpl in *. rewrite Hpc in Ht. simpl in Ht. lia.
  - destruct (phase G) eqn:Hph; simplify_eq/=.
    destruct (forallb waiting (threads G)); simplify_eq/=.
    pose proof (remaining_with_group m g G (device m)
                  (set_phase G (threads G) PhLocal) Hg) as Hr.
    unfold group_weight in Hr. simpl in *. rewrite Hph in Hr. simpl in Hr. lia.
  - destruct (threads G !! l) as [t|] eqn:Hl; simplify_eq/=.
    destruct (phase G) eqn:Hph, (t_pc t) eqn:Hpc; simplify_eq/=.
    destruct (kernel_direct_lighting flags (t_kg t) (t_wi t) (device m))
      as [d' call]. simplify_eq/=.
    pose proof (remaining_with_group m g G d' (enqueue_local G l t call) Hg) as Hr.
    unfold group_weight, enqueue_local in Hr |- *.
    destruct call as [c|]; [destruct (c_bool _)|]; simpl in Hr.
    + pose proof (thread_weight_insert _ _ _
        (Enqueuing c (Some (local_queue_atomics G))) Hl) as Ht.
      rewrite Hpc in Ht. simpl in Ht. lia.
    + pose proof (thread_weight_insert _ _ _ (Enqueuing c None) Hl) as Ht.
      rewrite Hpc in Ht. simpl in Ht. lia.
    + pose proof (thread_weight_insert _ _ _ Returned Hl) as Ht.
      rewrite Hpc in Ht. simpl in Ht. lia.
  - destruct (phase G) eqn:Hph; simplify_eq/=.
    destruct (forallb past_local (threads G)); simplify_eq/=.
    pose proof (remaining_with_group m g G (device m)
                  (set_phase G (threads G) PhReserve) Hg) as Hr.
    unfold group_weight in Hr. simpl in *. rewrite Hph in Hr. simpl in Hr. lia.
  - destruct (phase G) eqn:Hph; simplify_eq/=.
    destruct (enqueue_reserve (device m) G) as [d' G'] eqn:He. simplify_eq/=.
    pose proof (remaining_with_group m g G d' G' Hg) as Hr.
    unfold enqueue_reserve in He.
    destruct (representative (threads G)); simplify_eq/=;
      unfold group_weight in Hr; simpl in Hr; rewrite Hph in Hr; simpl in Hr; lia.
  - destruct (phase G) eqn:Hph; simplify_eq/=.
    pose proof (remaining_with_group m g G (device m)
                  (set_phase G (release <$> threads G) PhCopy) Hg) as Hr.
    pose proof (release_weight (threads G)).
    unfold group_weight in Hr. simpl in *. rewrite Hph in Hr. simpl in Hr. lia.
  - destruct (threads G !! l) as [t|] eqn:Hl; simplify_eq/=.
    destruct (phase G) eqn:Hph, (t_pc t) as [| | |c [o|]|] eqn:Hpc; simplify_eq/=.
    destruct (enqueue_copy (device m) G c o) as [d'|]; simplify_eq/=.
    pose proof (remaining_with_group m g G d'
      (set_phase G (<[l:=at_pc t (Finished c (Some o))]> (threads G)) PhCopy) Hg) as Hr.
    pose proof (thread_weight_insert _ _ _ (Finished c (Some o)) Hl) as Ht.
    unfold group_weight in Hr. simpl in *. rewrite Hpc in Ht. rewrite Hph in Hr.
    simpl in *. lia.
Qed.

Lemma forallb_false_lookup {A} (f : A → bool) (l : list A) :
  forallb f l = false → ∃ i x, l !! i = Some x ∧ f x = false.
Proof.
  induction l as [|a l IH]; simpl; [done|].
  destruct (f a) eqn:Ha; simpl.
  - intros (i & x & Hi & Hx)%IH. by exists (S i), x.
  - intros _. by exists 0, a.
Qed.

Lemma length_omap_le {A B} (f : A → option B) (l : list A) :
  length (omap f l) ≤ length l.
Proof. induction l as [|a l IH]; csimpl; [done|]. destruct (f a); simpl; lia. Qed.

Lemma region_length d G : group_inv d G → length (region G) ≤ length (threads G).
Proof.
  intros HG. unfold region.
  assert (Hlc : phase G ≠ PhEntry → local_queue_atomics G ≤ length (threads G)).
  { intros Hp. pose proof (gi_claims _ _ HG Hp) as Hperm.
    apply Permutation_length in Hperm.
    rewrite length_fmap, length_seq in Hperm. rewrite <- Hperm.
    apply length_omap_le. }
  destruct (phase G) eqn:Hp; simpl; try lia; rewrite length_seq; by apply Hlc.
Qed.

(** The output queue has grown by no more than one entry per work-item. *)
Lemma count_bound n0 m :
  machine_inv n0 m → count_of (device m) OUT ≤ n0 + work_items m.
Proof.
  intros [Hgs Hc Hr]. apply Permutation_length in Hr. rewrite length_seq in Hr.
  assert (length (concat (region <$> groups m)) ≤ work_items m); [|lia].
  unfold work_items. clear Hr Hc.
  induction Hgs as [|G Gs HG _ IH]; csimpl; [done|].
  rewrite length_app. pose proof (region_length _ _ HG). lia.
Qed.

(** A transition changes neither the grid nor the capacity of the queues. *)
Lemma step_sized n0 a m m' :
  step flags a m = Some m' → sized n0 m → sized n0 m'.
Proof.
  intros Hs. unfold sized.
  assert (Hins : ∀ g G G' d,
            groups m !! g = Some G → length (threads G') = length (threads G) →
            work_items (with_group m g d G') = work_items m).
  { intros g G G' d Hg Hl. unfold work_items. simpl.
    pose proof (sum_list_with_insert (fun G => length (threads G))
                  _ _ _ G' Hg) as Hsum. simpl in Hsum. lia. }
  destruct a as [g l|g|g l|g|g|g|g l]; simpl in Hs;
    destruct (groups m !! g) as [G|] eqn:Hg; simplify_eq/=.
  - destruct (threads G !! l) as [t|] eqn:Hl; simplify_eq/=.
    destruct (phase G), (t_pc t); simplify_eq/=.
    by rewrite (Hins g G) by (by simpl; rewrite ?length_insert).
  - destruct (phase G); simplify_eq/=.
    destruct (forallb waiting (threads G)); simplify_eq/=.
    by rewrite (Hins g G).
  - destruct (threads G !! l) as [t|] eqn:Hl; simplify_eq/=.
    destruct (phase G), (t_pc t); simplify_eq/=.
    destruct (kernel_direct_lighting flags (t_kg t) (t_wi t) (device m))
      as [d' call] eqn:Hk. simplify_eq/=.
    pose proof (kernel_direct_lighting_frame flags (t_kg t) (t_wi t) (device m))
      as [Hp _]. rewrite Hk in Hp. simpl in Hp. rewrite Hp.
    rewrite (Hins g G); [done..|].
    unfold enqueue_local.
    destruct call as [c|]; [destruct (c_bool _)|]; simpl;
      by rewrite length_insert.
  - destruct (phase G); simplify_eq/=.
    destruct (forallb past_local (threads G)); simplify_eq/=.
    by rewrite (Hins g G).
  - destruct (phase G); simplify_eq/=.
    unfold enqueue_reserve in Hs.
    destruct (representative (threads G)); simplify_eq/=;
      by rewrite (Hins g G).
  - destruct (phase G); simplify_eq/=.
    by rewrite (Hins g G) by (by simpl; rewrite ?length_fmap).
  - destruct (threads G !! l) as [t|] eqn:Hl; simplify_eq/=.
    destruct (phase G), (t_pc t) as [| | |c [o|]|]; simplify_eq/=.
    unfold enqueue_copy in Hs. case_decide; simplify_eq/=.
    by rewrite (Hins g G) by (by simpl; rewrite ?length_insert).
Qed.

(** While work is left, some work-item or group can take a step. *)
Lemma progress n0 m :
  machine_inv n0 m → sized n0 m → remaining m ≠ 0 →
  ∃ a m', step flags a m = Some m'.
Proof.
  intros Hm Hsz Hrem. pose proof Hm as [Hgs Hc Hr].
  apply sum_list_with_pos in Hrem as (g & G & Hg & Hw).
  assert (HG : group_inv (device m) G) by by eapply Forall_lookup_1.
  pose proof (proj1 (Forall_forall _ _) (gi_pc _ _ HG)) as Hpcs.
  destruct (phase G) eqn:Hph.
  - destruct (forallb waiting (threads G)) eqn:Hwait.
    + exists (Barrier0 g). simpl. rewrite Hg. simpl. rewrite Hph, Hwait. eauto.
    + apply forallb_false_lookup in Hwait as (l & t & Hl & Ht).
      destruct (Hpcs t (list_elem_of_lookup_2 _ _ _ Hl)) as [Hok _].
      simpl in Hok. unfold waiting in Ht.
      destruct (t_pc t) eqn:Hpc; try done.
      exists (Enter g l). simpl. rewrite Hg. simpl. rewrite Hl. simpl.
      rewrite Hph, Hpc. eauto.
  - destruct (forallb past_local (threads G)) eqn:Hpast.
    + exists (Barrier1 g). simpl. rewrite Hg. simpl. rewrite Hph, Hpast. eauto.
    + apply forallb_false_lookup in Hpast as (l & t & Hl & Ht).
      destruct (Hpcs t (list_elem_of_lookup_2 _ _ _ Hl)) as [Hok _].
      simpl in Hok. unfold past_local in Ht.
      destruct (t_pc t) eqn:Hpc; try done.
      exists (Run g l). simpl. rewrite Hg. simpl. rewrite Hl. simpl.
      rewrite Hph, Hpc.
      destruct (kernel_direct_lighting _ _ _ _). eauto.
  - exists (Reserve g). simpl. rewrite Hg. simpl. rewrite Hph.
    destruct (enqueue_reserve _ _). eauto.
  - exists (Barrier2 g). simpl. rewrite Hg. simpl. rewrite Hph. eauto.
  - unfold group_weight in Hw. rewrite Hph in Hw. simpl in Hw.
    apply sum_list_with_pos in Hw as (l & t & Hl & Ht).
    pose proof (list_elem_of_lookup_2 _ _ _ Hl) as Hin.
    destruct (Hpcs t Hin) as [Hok Hcall].
    simpl in Hok. unfold thread_weight in Ht.
    destruct (t_pc t) as [| | |c [o|]|] eqn:Hpc; try done.
    destruct Hcall as (_ & Hqs & _).
    assert (Ho : o < local_queue_atomics G).
    { eapply (claim_bound _ G t); eauto; [by rewrite Hph|].
      unfold claim. by rewrite Hpc. }
    assert (Hcell : reserved G + o ∈ concat (region <$> groups m)).
    { eapply (elem_of_concat_lookup _ g (region G)).
      - by rewrite list_lookup_fmap, Hg.
      - unfold region. rewrite Hph. apply elem_of_seq. lia. }
    rewrite <- Hr in Hcell. apply elem_of_seq in Hcell.
    pose proof (count_bound _ _ Hm). unfold sized in Hsz.
    exists (Copy g l). simpl. rewrite Hg. simpl. rewrite Hl. simpl.
    rewrite Hph, Hpc. unfold enqueue_copy.
    rewrite decide_True by lia. simpl. eauto.
Qed.

Lemma remaining_zero_completed m : remaining m = 0 → completed m = true.
Proof.
  intros Hz. apply sum_list_with_zero in Hz.
  unfold completed. apply Is_true_true_1, forallb_True.
  eapply Forall_impl; [exact Hz|]. intros G HG. unfold group_weight in HG.
  apply andb_True. split.
  - apply bool_decide_pack. destruct (phase G); simpl in HG; done || lia.
  - apply forallb_True.
    assert (Hts : sum_list_with thread_weight (threads G) = 0) by lia.
    apply sum_list_with_zero in Hts.
    eapply Forall_impl; [exact Hts|]. intros t Ht. unfold thread_weight in Ht.
    unfold done. by destruct (t_pc t).
Qed.

(** From every state of a round on a grid the queues are sized for, the
    round can be brought to its end. *)
Lemma round_completes n0 m :
  machine_inv n0 m → sized n0 m →
  ∃ tr m', exec flags tr m = Some m' ∧ completed m' = true.
Proof.
  remember (remaining m) as n eqn:Hn. revert m Hn.
  induction (lt_wf n) as [n _ IH]. intros m -> Hm Hsz.
  destruct (decide (remaining m = 0)) as [Hz|Hnz].
  { exists [], m. split; [done|]. by apply remaining_zero_completed. }
  destruct (progress n0 m Hm Hsz Hnz) as (a & m1 & Hs).
  destruct (IH (remaining m1) (step_decreases _ _ _ Hs) m1 eq_refl)
    as (tr & m' & He & Hc); eauto using step_inv, step_sized.
  exists (a :: tr), m'. simpl. by rewrite Hs.
Qed.

(** ** The claims on a round *)

Lemma exec_app tr tr' m :
  exec flags (tr ++ tr') m = exec flags tr m ≫= exec flags tr'.
Proof.
  revert m. induction tr as [|a tr IH]; intros m; simpl; [done|].
  destruct (step flags a m) as [m1|]; simpl; [apply IH|done].
Qed.

Lemma exec_sized n0 tr m m' :
  exec flags tr m = Some m' → sized n0 m → sized n0 m'.
Proof.
  revert m. induction tr as [|a tr IH]; intros m He Hs; simplify_eq/=; [done|].
  destruct (step flags a m) as [m1|] eqn:Hst; simplify_eq/=.
  eauto using step_sized.
Qed.


(** C8.  A round leaves QUEUE_ACTIVE_AND_REGENERATED_RAYS as it found it,
    cells and length; QUEUE_SHADOW_RAY_CAST_DL_RAYS is the only queue whose
    cells or length it changes. *)
Theorem input_queue_is_read_only m0 tr m :
  initial m0 = true → exec flags tr m0 = Some m →
  (queue_data (kernel_split_state (device m)) QUEUE_ACTIVE_AND_REGENERATED_RAYS
   = queue_data (kernel_split_state (device m0)) QUEUE_ACTIVE_AND_REGENERATED_RAYS ∧
   count_of (device m) QUEUE_ACTIVE_AND_REGENERATED_RAYS
   = count_of (device m0) QUEUE_ACTIVE_AND_REGENERATED_RAYS) ∧
  same_other_queues (device m0) (device m).
Proof.
  intros Hi He.
  pose proof (exec_frame _ _ _ (initial_calls _ Hi) He) as Hf.
  split; [by apply Hf|done].
Qed.

End RoundProperties.

(** ** The GPU build and the CPU build *)

Section Variants.

Context `{X : Collaborators}.
Variables emission object_motion : bool.

Implicit Types (d : Device) (G : Group) (t : Thread) (m : Machine).

Local Abbreviation OUT := QUEUE_SHADOW_RAY_CAST_DL_RAYS.
Local Abbreviation gpu := (gpu_build emission object_motion).
Local Abbreviation cpu := (cpu_build emission object_motion).

(** The two builds of the kernel leave the same memory; they make the same
    call, unless the slot is empty, where the GPU build makes none and the
    other one a call with the flag 0. *)
Lemma kernel_variants kg wi d :
  (kernel_direct_lighting gpu kg wi d).1 = (kernel_direct_lighting cpu kg wi d).1 ∧
  ((kernel_direct_lighting gpu kg wi d).2 = (kernel_direct_lighting cpu kg wi d).2 ∨
   ((kernel_direct_lighting gpu kg wi d).2 = None ∧
    ∃ c, (kernel_direct_lighting cpu kg wi d).2 = Some c ∧
         call_enqueue_flag c = 0%Z)).
Proof.
  unfold kernel_direct_lighting. simpl.
  destruct (Z.eqb_spec (fetch_ray_index kg wi d) QUEUE_EMPTY_SLOT) as [He|Hne];
    simpl.
  - split; [done|]. destruct emission; [|by left]. right. eauto.
  - change (direct_lighting gpu kg wi d (fetch_ray_index kg wi d) 0)
      with (direct_lighting cpu kg wi d (fetch_ray_index kg wi d) 0).
    destruct (direct_lighting cpu kg wi d _ 0). auto.
Qed.

Lemma Forall2_lookup_both {A B} (P : A → B → Prop) l k i :
  Forall2 P l k →
  (l !! i = None ∧ k !! i = None) ∨
  (∃ x y, l !! i = Some x ∧ k !! i = Some y ∧ P x y).
Proof.
  intros H. destruct (l !! i) as [x|] eqn:Hl.
  - destruct (Forall2_lookup_l _ _ _ _ _ H Hl) as (y & Hk & HP). right. eauto.
  - left. split; [done|]. apply lookup_ge_None. apply lookup_ge_None in Hl.
    by rewrite <- (Forall2_length _ _ _ H).
Qed.

Lemma omap_Forall2 {A B} (f : A → option B) (l k : list A) :
  Forall2 (fun a b => f a = f b) l k → omap f l = omap f k.
Proof. induction 1 as [|a b l k Hab _ IH]; csimpl; [done|]. by rewrite Hab, IH. Qed.

Lemma forallb_Forall2 {A} (f : A → bool) (l k : list A) :
  Forall2 (fun a b => f a = f b) l k → forallb f l = forallb f k.
Proof. induction 1 as [|a b l k Hab _ IH]; simpl; [done|]. by rewrite Hab, IH. Qed.

Lemma thread_sim_refl t : thread_sim t t.
Proof. split_and!; auto. Qed.

Lemma group_sim_refl G : group_sim G G.
Proof.
  split_and!; auto. apply Forall2_same_length_lookup_2; [done|].
  intros i x y Hx Hy. simplify_eq. apply thread_sim_refl.
Qed.

Lemma machine_sim_refl m : machine_sim m m.
Proof.
  split; [done|]. apply Forall2_same_length_lookup_2; [done|].
  intros i x y Hx Hy. simplify_eq. apply group_sim_refl.
Qed.

(** Adding nothing to a length counter leaves the memory as it was. *)
Lemma reserve_nothing d q :
  set_queue_index d
    (updq (queue_index (kernel_split_params d)) q (count_of d q + 0)) = d.
Proof.
  destruct d as [st [qs qi]]. unfold set_queue_index, count_of. simpl.
  do 2 f_equal. apply functional_extensionality. intros q'.
  unfold updq. case_decide; [subst; lia|done].
Qed.

Lemma with_group_sim mg mc g d Gg Gc :
  Forall2 group_sim (groups mg) (groups mc) → group_sim Gg Gc →
  machine_sim (with_group mg g d Gg) (with_group mc g d Gc).
Proof. intros Hgs HG. split; [done|]. simpl. by apply Forall2_insert. Qed.

Lemma forallb_sim (f : Thread → bool) (l k : list Thread) :
  Forall2 thread_sim l k →
  (∀ tg tc, thread_sim tg tc → tc ∈ k → f tg = f tc) →
  forallb f l = forallb f k.
Proof.
  intros Hs Hf. apply forallb_Forall2.
  apply Forall2_same_length_lookup_2; [by eapply Forall2_length|].
  intros i tg tc Hg Hc. apply Hf; [|by eapply list_elem_of_lookup_2].
  by eapply Forall2_lookup_lr.
Qed.

Lemma thread_sim_at tg tc pc :
  thread_sim tg tc → thread_sim (at_pc tg pc) (at_pc tc pc).
Proof. intros (? & ? & _). split_and!; auto. Qed.

Lemma thread_sim_release tg tc :
  thread_sim tg tc → thread_sim (release tg) (release tc).
Proof.
  intros (Hkg & Hwi & Hpc).
  destruct tg as [kg wi pcg], tc as [kg' wi' pcc]. simpl in *. subst.
  destruct Hpc as [->|(-> & c & Hf & [->| ->])].
  - apply thread_sim_refl.
  - split_and!; auto. right. eauto.
  - split_and!; auto. right. eauto.
Qed.

Lemma group_sim_intro Gg Gc :
  Forall2 thread_sim (threads Gg) (threads Gc) →
  local_queue_atomics Gg = local_queue_atomics Gc →
  staging Gg = staging Gc → phase Gg = phase Gc →
  reserved Gg = reserved Gc → group_sim Gg Gc.
Proof. intros. split_and!; auto. Qed.

(** The groups of the two builds run the same transitions. *)
Lemma step_sim n0 a mg mc :
  machine_sim mg mc → machine_inv n0 mg → machine_inv n0 mc →
  match step gpu a mg, step cpu a mc with
  | Some mg', Some mc' => machine_sim mg' mc'
  | None, None => True
  | _, _ => False
  end.
Proof.
  intros [Hd Hgs] Hig Hic.
  destruct a as [g l|g|g l|g|g|g|g l]; simpl;
    (destruct (Forall2_lookup_both _ _ _ g Hgs)
       as [[-> ->]|(Gg & Gc & Hgg & Hgc & HG)]; [done|]);
    rewrite Hgg, Hgc; simpl;
    pose proof (Forall_lookup_1 _ _ _ _ (mi_groups _ _ Hig) Hgg) as HIg;
    pose proof (Forall_lookup_1 _ _ _ _ (mi_groups _ _ Hic) Hgc) as HIc;
    destruct HG as (Hts & Hlc & Hst & Hph & Hres).
  - (* Enter *)
    destruct (Forall2_lookup_both _ _ _ l Hts)
      as [[-> ->]|(tg & tc & Hlg & Hlc' & Ht)]; [done|].
    rewrite Hlg, Hlc'. simpl. rewrite Hph.
    destruct (phase Gc) eqn:Hp; try done;
      try (by destruct (t_pc tg), (t_pc tc)).
    pose proof Ht as (Hkg & Hwi & [Hpc|(Hpc & c & _ & [Hc|Hc])]);
      [rewrite Hpc|rewrite Hpc, Hc..]; try done.
    destruct (t_pc tc); try done.
    assert (Hres' : reserved Gg = reserved Gc).
    { destruct Hres as [?|[_ [?|?]]]; [done|congruence..]. }
    rewrite Hd. apply with_group_sim; [done|].
    apply group_sim_intro; simpl; auto; try congruence.
    + apply Forall2_insert; [done|]. by apply thread_sim_at.
    + by rewrite Hwi, Hlc.
  - (* Barrier0 *)
    rewrite Hph. destruct (phase Gc) eqn:Hp; try done.
    rewrite (forallb_sim waiting _ _ Hts).
    2:{ intros tg tc (_ & _ & [Hpc|(Hpc & c & _ & [Hc|Hc])]) _; unfold waiting;
          [by rewrite Hpc|by rewrite Hpc, Hc..]. }
    destruct (forallb waiting (threads Gc)); [|done].
    assert (Hres' : reserved Gg = reserved Gc).
    { destruct Hres as [?|[_ [?|?]]]; [done|congruence..]. }
    rewrite Hd. apply with_group_sim; [done|].
    apply group_sim_intro; simpl; auto; try congruence.
  - (* Run *)
    destruct (Forall2_lookup_both _ _ _ l Hts)
      as [[-> ->]|(tg & tc & Hlg & Hlc' & Ht)]; [done|].
    rewrite Hlg, Hlc'. simpl. rewrite Hph.
    destruct (phase Gc) eqn:Hp; try done;
      try (by destruct (t_pc tg), (t_pc tc)).
    pose proof Ht as (Hkg & Hwi & [Hpc|(Hpc & c & _ & [Hc|Hc])]);
      [rewrite Hpc|rewrite Hpc, Hc..]; try done.
    destruct (t_pc tc); try done.
    rewrite Hkg, Hwi, Hd.
    destruct (kernel_variants (t_kg tc) (t_wi tc) (device mc)) as [Hmem Hcall].
    destruct (kernel_direct_lighting gpu _ _ _) as [dg cg],
             (kernel_direct_lighting cpu _ _ _) as [dc cc].
    simpl in Hmem, Hcall. subst dg.
    apply with_group_sim; [done|].
    assert (Hres' : reserved Gg = reserved Gc).
    { destruct Hres as [?|[_ [?|?]]]; [done|congruence..]. }
    destruct Hcall as [->|(-> & c & -> & Hflag)].
    + unfold enqueue_local. rewrite Hlc, Hst.
      destruct cc as [c|]; [destruct (c_bool _)|]; simpl;
        apply group_sim_intro; simpl; auto; try congruence;
        (apply Forall2_insert; [done|]); by apply thread_sim_at.
    + unfold enqueue_local, c_bool. rewrite Hflag. simpl.
      apply group_sim_intro; simpl; auto; try congruence.
      apply Forall2_insert; [done|]. split_and!; simpl; auto.
      right. split; [done|]. exists c. unfold c_bool. rewrite Hflag. auto.
  - (* Barrier1 *)
    rewrite Hph. destruct (phase Gc) eqn:Hp; try done.
    rewrite (forallb_sim past_local _ _ Hts).
    2:{ intros tg tc (_ & _ & [Hpc|(Hpc & c & _ & [Hc|Hc])]) Hin;
          unfold past_local; [by rewrite Hpc|by rewrite Hpc, Hc|].
        pose proof (proj1 (Forall_forall _ _) (gi_pc _ _ HIc) tc Hin) as [Hok _].
        by rewrite Hp, Hc in Hok. }
    destruct (forallb past_local (threads Gc)); [|done].
    assert (Hres' : reserved Gg = reserved Gc).
    { destruct Hres as [?|[_ [?|?]]]; [done|congruence..]. }
    rewrite Hd. apply with_group_sim; [done|].
    apply group_sim_intro; simpl; auto; try congruence.
  - (* Reserve *)
    rewrite Hph. destruct (phase Gc) eqn:Hp; try done.
    assert (Hres' : reserved Gg = reserved Gc).
    { destruct Hres as [?|[_ [?|?]]]; [done|congruence..]. }
    assert (Hout : ∀ G d c, group_inv d G → representative (threads G) = Some c →
              call_queue_number c = OUT).
    { intros G d c HI (t & o & Ht & Hpc)%representative_Some.
      pose proof (proj1 (Forall_forall _ _) (gi_pc _ _ HI) t Ht) as [_ Hc].
      rewrite Hpc in Hc. by destruct Hc as (? & _). }
    unfold enqueue_reserve.
    destruct (representative (threads Gg)) as [cg|] eqn:Hrg,
             (representative (threads Gc)) as [cc|] eqn:Hrc.
    + rewrite (Hout _ _ _ HIg Hrg), (Hout _ _ _ HIc Hrc), Hd, Hlc.
      apply with_group_sim; [done|]. apply group_sim_intro; simpl; auto; try congruence.
    + (* the other build has at least the callers of the GPU build *)
      apply representative_Some in Hrg as (tg & o & Htg & Hpc).
      apply list_elem_of_lookup in Htg as (i & Hi).
      destruct (Forall2_lookup_l _ _ _ _ _ Hts Hi) as (tc & Hic' & Ht).
      destruct Ht as (_ & _ & [Heq|(Hret & _)]); [|congruence].
      rewrite Hpc in Heq.
      by destruct (representative_None _ _ _ _ Hrc
                     (list_elem_of_lookup_2 _ _ _ Hic') (eq_sym Heq)).
    + (* every caller of the other build abstained *)
      assert (Hcl : claims Gc = []).
      { apply omap_None, Forall_forall. intros tc Htc.
        apply list_elem_of_lookup in Htc as (i & Hi).
        destruct (Forall2_lookup_r _ _ _ _ _ Hts Hi) as (tg & Hig' & Ht).
        pose proof (list_elem_of_lookup_2 _ _ _ Hig') as Htg.
        pose proof (proj1 (Forall_forall _ _) (gi_pc _ _ HIg) tg Htg) as [Hok _].
        rewrite Hph in Hok. unfold claim.
        destruct Ht as (_ & _ & [Heq|(_ & c & _ & [Hc|Hc])]);
          [|by rewrite Hc..].
        rewrite <- Heq.
        destruct (t_pc tg) as [| | |c o|] eqn:Hpc; try done.
        by destruct (representative_None _ _ _ _ Hrg Htg Hpc). }
      assert (Hz : local_queue_atomics Gc = 0).
      { pose proof (gi_claims _ _ HIc) as Hperm.
        rewrite Hcl, Hp in Hperm. specialize (Hperm ltac:(done)).
        apply Permutation_length in Hperm.
        by rewrite length_seq in Hperm. }
      rewrite (Hout _ _ _ HIc Hrc), Hz, reserve_nothing, Hd.
      apply with_group_sim; [done|].
      split_and!; simpl; auto; congruence.
    + rewrite Hd. apply with_group_sim; [done|].
      apply group_sim_intro; simpl; auto; try congruence.
  - (* Barrier2 *)
    rewrite Hph. destruct (phase Gc) eqn:Hp; try done.
    rewrite Hd. apply with_group_sim; [done|]. split_and!; simpl; auto.
    + apply Forall2_fmap. eapply Forall2_impl; [exact Hts|].
      apply thread_sim_release.
    + destruct Hres as [?|[? _]]; auto.

  - (* Copy *)
    destruct (Forall2_lookup_both _ _ _ l Hts)
      as [[-> ->]|(tg & tc & Hlg & Hlc' & Ht)]; [done|].
    rewrite Hlg, Hlc'. simpl. rewrite Hph.
    destruct (phase Gc) eqn:Hp; try done;
      try (by destruct (t_pc tg), (t_pc tc)).
    pose proof Ht as (Hkg & Hwi & [Hpc|(Hpc & c & _ & [Hc|Hc])]);
      [rewrite Hpc|rewrite Hpc, Hc..]; try done.
    destruct (t_pc tc) as [| | |c [o|]|] eqn:Hpcc; try done.
    assert (Hres' : reserved Gg = reserved Gc).
    { destruct Hres as [?|[Hz _]]; [done|].
      assert (o < local_queue_atomics Gc); [|lia].
      eapply (claim_bound _ Gc tc); eauto; [by rewrite Hp| |].
      - by eapply list_elem_of_lookup_2.
      - unfold claim. by rewrite Hpcc. }
    unfold enqueue_copy. rewrite Hres', Hd, Hst.
    case_decide; [|done]. simpl.
    apply with_group_sim; [done|]. apply group_sim_intro; simpl; auto; try congruence.
    apply Forall2_insert; [done|]. by apply thread_sim_at.
Qed.

Lemma exec_sim n0 tr mg mc :
  machine_sim mg mc → machine_inv n0 mg → machine_inv n0 mc →
  match exec gpu tr mg, exec cpu tr mc with
  | Some mg', Some mc' =>
      machine_sim mg' mc' ∧ machine_inv n0 mg' ∧ machine_inv n0 mc'
  | None, None => True
  | _, _ => False
  end.
Proof.
  revert mg mc. induction tr as [|a tr IH]; intros mg mc Hs Hg Hc; simpl.
  { done. }
  pose proof (step_sim n0 a mg mc Hs Hg Hc) as Hstep.
  destruct (step gpu a mg) as [mg1|] eqn:Hsg,
           (step cpu a mc) as [mc1|] eqn:Hsc; simpl; try done.
  apply IH; eauto using step_inv.
Qed.

(** Related work-items have marked the same slot, and once their group is
    in its last phase both have left the kernel or neither has. *)
Lemma thread_sim_marked tg tc : thread_sim tg tc → marked tg = marked tc.
Proof.
  intros (_ & _ & [Hpc|(Hpc & c & Hf & [Hc|Hc])]); unfold marked.
  - by rewrite Hpc.
  - by rewrite Hpc, Hc, Hf.
  - by rewrite Hpc, Hc, Hf.
Qed.

Lemma machine_sim_marked mg mc :
  machine_sim mg mc → marked_slots mg = marked_slots mc.
Proof.
  intros [_ Hgs]. unfold marked_slots. f_equal.
  induction Hgs as [|Gg Gc gs cs (Hts & _) _ IH]; csimpl; [done|].
  rewrite IH. f_equal. apply omap_Forall2.
  eapply Forall2_impl; [exact Hts|]. apply thread_sim_marked.
Qed.

Lemma machine_sim_completed n0 mg mc :
  machine_sim mg mc → machine_inv n0 mc → completed mg = completed mc.
Proof.
  intros [_ Hgs] [Hinv _ _]. unfold completed.
  induction Hgs as [|Gg Gc gs cs (Hts & _ & _ & Hph & _) _ IH]; simpl; [done|].
  apply Forall_cons in Hinv as [HI Hinv]. rewrite (IH Hinv). f_equal.
  rewrite Hph. destruct (decide (phase Gc = PhCopy)) as [Hp|Hp].
  2:{ by rewrite !bool_decide_eq_false_2. }
  f_equal. apply forallb_sim; [done|].
  intros tg tc (_ & _ & [Hpc|(Hpc & c & _ & [Hc|Hc])]) Hin; unfold done;
    [by rewrite Hpc| |by rewrite Hpc, Hc].
  pose proof (proj1 (Forall_forall _ _) (gi_pc _ _ HI) tc Hin) as [Hok _].
  by rewrite Hp, Hc in Hok.
Qed.

(** With a work-item inside the primitive reserving, every schedule one
    build can run the other can run, to the same device memory and the
    same marked slots. *)
Lemma exec_variants m0 tr :
  initial m0 = true → well_formed m0 = true →
  match exec gpu tr m0, exec cpu tr m0 with
  | Some mg, Some mc =>
      device mg = device mc ∧ marked_slots mg = marked_slots mc ∧
      completed mg = completed mc
  | None, None => True
  | _, _ => False
  end.
Proof.
  intros Hi Hw.
  pose proof (initial_inv _ Hi Hw) as Hinv.
  pose proof (exec_sim _ tr m0 m0 (machine_sim_refl m0) Hinv Hinv) as Hsim.
  destruct (exec gpu tr m0) as [mg|], (exec cpu tr m0) as [mc|]; try done.
  destruct Hsim as (Hs & Hg & Hc).
  split_and!; [by destruct Hs|by apply machine_sim_marked|].
  by eapply machine_sim_completed.
Qed.

End Variants.

(** * Further properties of the kernel *)

Section WorkItemCoverage.

Context `{X : Collaborators}.
Variable flags : BuildFlags.

Implicit Types (kg : KernelGlobals) (wi : WorkItem) (d : Device).

Local Abbreviation OUT := QUEUE_SHADOW_RAY_CAST_DL_RAYS.

(** What one work-item does: nothing, or the writes of an accepted sample
    at the slot it fetched, which it then marks. *)
Lemma kernel_direct_lighting_outcome kg wi d :
  let i := fetch_ray_index kg wi d in
  let r := kernel_direct_lighting flags kg wi d in
  (r.1 = d ∧ call_marks r.2 = None) ∨
  (i ≠ QUEUE_EMPTY_SLOT ∧
   ∃ s, r.1 = store_shadow_ray d i s ∧ call_marks r.2 = Some (OUT, i)).
Proof.
  intros i r.
  destruct (decide (i = QUEUE_EMPTY_SLOT)) as [He|Hne].
  { left. apply kernel_direct_lighting_idle. by intros []. }
  subst r. rewrite (kernel_direct_lighting_slot flags kg wi d Hne). fold i.
  destruct (direct_lighting_cases flags kg wi d i 0)
    as [[-> _]|(ls & t & s & _ & Hem & _ & _ & _ & _ & ->)]; simpl.
  - left. split; [done|]. by destruct (__EMISSION__ flags).
  - right. split; [done|]. exists s. by rewrite Hem.
Qed.

Lemma store_shadow_ray_inputs d i s : same_inputs d (store_shadow_ray d i s).
Proof. by destruct s as [[? ?] ?]. Qed.

Lemma store_shadow_ray_other d i s j :
  j ≠ i → same_slot j d (store_shadow_ray d i s).
Proof.
  intros Hne. destruct s as [[? ?] ?]. unfold same_slot, ADD_RAY_FLAG. simpl.
  unfold ADD_RAY_FLAG. by rewrite !upd_ne.
Qed.

Lemma store_shadow_ray_flags d i s :
  flags_kept d (store_shadow_ray d i s) ∧ has_cast_flag (store_shadow_ray d i s) i.
Proof.
  destruct s as [[? ?] ?]. unfold flags_kept, has_cast_flag. simpl.
  unfold ADD_RAY_FLAG. split.
  - intros j n Hb. destruct (decide (j = i)) as [->|Hne].
    + by rewrite upd_eq, Z.lor_spec, Hb.
    + by rewrite upd_ne.
  - intros n Hb. by rewrite upd_eq, Z.lor_spec, Hb, orb_true_r.
Qed.

Lemma kernel_keeps_inputs kg wi d :
  same_inputs d (kernel_direct_lighting flags kg wi d).1.
Proof.
  destruct (kernel_direct_lighting_outcome kg wi d) as [[Hd _]|(_ & s & Hd & _)];
    rewrite Hd; [done|apply store_shadow_ray_inputs].
Qed.

Lemma kernel_keeps_other_slots kg wi d j :
  j ≠ fetch_ray_index kg wi d →
  same_slot j d (kernel_direct_lighting flags kg wi d).1.
Proof.
  intros Hj.
  destruct (kernel_direct_lighting_outcome kg wi d) as [[Hd _]|(_ & s & Hd & _)];
    rewrite Hd; [done|by apply store_shadow_ray_other].
Qed.

(** X1.  Of the ray states and the three scratch fields, a work-item
    writes those of the slot it fetched and no others (lines 118-122 are
    the only writes of the kernel); it writes no queue cell, and neither
    the capacity nor the length of a queue. *)
Theorem work_item_writes_only_its_slot kg wi d :
  let i := fetch_ray_index kg wi d in
  let d' := (kernel_direct_lighting flags kg wi d).1 in
  queue_data (kernel_split_state d') = queue_data (kernel_split_state d) ∧
  kernel_split_params d' = kernel_split_params d ∧
  ∀ j, j ≠ i → same_slot j d d'.
Proof.
  intros i d'.
  destruct (kernel_direct_lighting_frame flags kg wi d) as [Hp Hq].
  split_and!; [done|done|].
  intros j Hj. by apply kernel_keeps_other_slots.
Qed.

(** X8.  Every call of [enqueue_ray_index_local] the kernel makes is for
    QUEUE_SHADOW_RAY_CAST_DL_RAYS, with the fetched index, the capacity of
    the queues and a flag that is 0 or 1; the flag is 1 only with an index
    that is not the empty slot, so the sentinel is never marked. *)
Theorem call_is_for_the_shadow_queue kg wi d c :
  (kernel_direct_lighting flags kg wi d).2 = Some c →
  call_queue_number c = OUT ∧
  call_ray_index c = fetch_ray_index kg wi d ∧
  call_queuesize c = queue_size (kernel_split_params d) ∧
  (call_enqueue_flag c = 0%Z ∨
   call_enqueue_flag c = 1%Z ∧ call_ray_index c ≠ QUEUE_EMPTY_SLOT).
Proof.
  intros Hc.
  destruct (kernel_direct_lighting flags kg wi d) as [d' c'] eqn:Hk.
  simpl in Hc. subst c'.
  destruct (kernel_direct_lighting_call flags kg wi d d' c Hk)
    as (Hi & Hq & Hs & Hf).
  split_and!; try done.
  destruct Hf as [Hf|Hf]; [by left|right; split; [done|]].
  destruct (kernel_direct_lighting_outcome kg wi d) as [[_ Hm]|(Hne & _)].
  - rewrite Hk in Hm. simpl in Hm. unfold c_bool in Hm. by rewrite Hf in Hm.
  - by rewrite Hi.
Qed.

(** X11.  Which work-items reach the barriers of
    [enqueue_ray_index_local]: with the call compiled in, every work-item
    of the CPU build, whatever it fetched, and in the GPU build exactly the
    ones that fetched a slot; without it, none. *)
Theorem call_is_made_uniformly kg wi d :
  is_Some (kernel_direct_lighting flags kg wi d).2 ↔
  __EMISSION__ flags = true ∧
  (__COMPUTE_DEVICE_GPU__ flags = true →
   fetch_ray_index kg wi d ≠ QUEUE_EMPTY_SLOT).
Proof.
  unfold kernel_direct_lighting.
  destruct (Z.eqb_spec (fetch_ray_index kg wi d) QUEUE_EMPTY_SLOT) as [He|Hne];
    destruct (__COMPUTE_DEVICE_GPU__ flags); simpl;
    try destruct (direct_lighting _ _ _ _ _ _);
    destruct (__EMISSION__ flags); simpl;
    (split; [intros [? ?]|intros [? Hg]]); try done; eauto;
    by destruct (Hg eq_refl).
Qed.

(** The fetch looks at the queue cells and the capacity only. *)
Lemma fetch_ray_index_frame kg wi d d' :
  queue_data (kernel_split_state d') = queue_data (kernel_split_state d) →
  kernel_split_params d' = kernel_split_params d →
  fetch_ray_index kg wi d' = fetch_ray_index kg wi d.
Proof. intros Hq Hp. unfold fetch_ray_index. by rewrite Hq, Hp. Qed.

(** The direct-lighting block looks at the memory through the inputs and
    the ray state of its slot only: in a memory that agrees on these it
    takes the same decision, with the same sample. *)
Lemma direct_lighting_local kg wi d d' i e :
  same_inputs d d' →
  ray_state (kernel_split_state d') i = ray_state (kernel_split_state d) i →
  ∃ o : option (Ray * BsdfEval * bool),
    direct_lighting flags kg wi d i e
    = match o with Some s => (store_shadow_ray d i s, 1%Z) | None => (d, e) end ∧
    direct_lighting flags kg wi d' i e
    = match o with Some s => (store_shadow_ray d' i s, 1%Z) | None => (d', e) end.
Proof.
  intros (Hrng & Hps & Hsd & Hdl & _) Hrs.
  unfold direct_lighting, IS_STATE, bsdf_has_eval, draw_light_sample,
    eval_direct_emission.
  rewrite Hrng, Hps, Hsd, Hdl, Hrs.
  destruct (is_state _ RAY_ACTIVE); [|by exists None].
  destruct (__EMISSION__ flags); [|by exists None].
  destruct (_ && _); [|by exists None].
  destruct (path_state_rng_2D _ _ _ _) as [u v].
  destruct (light_sample _ _ _ _ _ _ _) as [ls|]; [|by exists None].
  destruct (direct_emission _ _ _ _ _ _ _) as [s|]; [|by exists None].
  by exists (Some s).
Qed.

Lemma kernel_direct_lighting_local kg wi d d' :
  let i := fetch_ray_index kg wi d in
  same_inputs d d' →
  queue_data (kernel_split_state d') = queue_data (kernel_split_state d) →
  kernel_split_params d' = kernel_split_params d →
  ray_state (kernel_split_state d') i = ray_state (kernel_split_state d) i →
  (kernel_direct_lighting flags kg wi d').2 = (kernel_direct_lighting flags kg wi d).2 ∧
  ∃ o : option (Ray * BsdfEval * bool),
    (kernel_direct_lighting flags kg wi d).1
    = match o with Some s => store_shadow_ray d i s | None => d end ∧
    (kernel_direct_lighting flags kg wi d').1
    = match o with Some s => store_shadow_ray d' i s | None => d' end.
Proof.
  intros i Hin Hq Hp Hrs.
  destruct (direct_lighting_local kg wi d d' i 0 Hin Hrs) as (o & Ho & Ho').
  unfold kernel_direct_lighting.
  rewrite (fetch_ray_index_frame kg wi d d' Hq Hp), Hp. fold i.
  rewrite Ho, Ho'.
  destruct (__COMPUTE_DEVICE_GPU__ flags), (i =? QUEUE_EMPTY_SLOT)%Z; simpl;
    try (split; [done|]; by exists None);
    destruct o as [s|]; simpl; (split; [done|]);
    first [by exists (Some s) | by exists None].
Qed.

Lemma upd_swap {A} (f : Z → A) i j x y :
  i ≠ j → upd (upd f i x) j y = upd (upd f j y) i x.
Proof.
  intros Hne. apply functional_extensionality. intros k. unfold upd.
  destruct (Z.eqb_spec k j), (Z.eqb_spec k i); congruence.
Qed.

(** The writes of two accepted samples at different slots commute. *)
Lemma store_shadow_ray_swap d i j s s' :
  i ≠ j →
  store_shadow_ray (store_shadow_ray d i s) j s'
  = store_shadow_ray (store_shadow_ray d j s') i s.
Proof.
  intros Hne. destruct s as [[r L] b], s' as [[r' L'] b'].
  unfold store_shadow_ray, set_split_state. simpl. f_equal.
  unfold set_ray_state. simpl. f_equal; try by apply upd_swap.
  unfold ADD_RAY_FLAG. rewrite !upd_ne by done. by apply upd_swap.
Qed.

(** X2.  Two work-items that fetched different slots do not see each other:
    each makes the same call whether it runs before or after the other,
    and the memory after both is the same in either order. *)
Theorem work_items_on_distinct_slots_commute kgA wiA kgB wiB d :
  fetch_ray_index kgA wiA d ≠ fetch_ray_index kgB wiB d →
  let dA := (kernel_direct_lighting flags kgA wiA d).1 in
  let dB := (kernel_direct_lighting flags kgB wiB d).1 in
  (kernel_direct_lighting flags kgB wiB dA).1
  = (kernel_direct_lighting flags kgA wiA dB).1 ∧
  (kernel_direct_lighting flags kgB wiB dA).2
  = (kernel_direct_lighting flags kgB wiB d).2 ∧
  (kernel_direct_lighting flags kgA wiA dB).2
  = (kernel_direct_lighting flags kgA wiA d).2.
Proof.
  intros Hne dA dB.
  destruct (kernel_direct_lighting_frame flags kgA wiA d) as [HpA HqA].
  destruct (kernel_direct_lighting_frame flags kgB wiB d) as [HpB HqB].
  pose proof (kernel_keeps_inputs kgA wiA d) as HinA.
  pose proof (kernel_keeps_inputs kgB wiB d) as HinB.
  fold dA in HinA, HqA, HpA. fold dB in HinB, HqB, HpB.
  destruct (kernel_direct_lighting_local kgB wiB d dA HinA HqA HpA)
    as (HcB & oB & HB & HB').
  { apply (kernel_keeps_other_slots kgA wiA d). congruence. }
  destruct (kernel_direct_lighting_local kgA wiA d dB HinB HqB HpB)
    as (HcA & oA & HA & HA').
  { by apply (kernel_keeps_other_slots kgB wiB d). }
  split_and!; [|done|done].
  rewrite HB', HA'. fold dA in HA. fold dB in HB. rewrite HA, HB.
  destruct oA as [sA|], oB as [sB|]; try done.
  by apply store_shadow_ray_swap.
Qed.

(** Lines 88-127 and 134-143 are under [#ifdef __EMISSION__]: without it
    a work-item fetches its slot index, tests its state and leaves. *)
Lemma kernel_without_emission kg wi d :
  __EMISSION__ flags = false → kernel_direct_lighting flags kg wi d = (d, None).
Proof.
  intros Hem. unfold kernel_direct_lighting, direct_lighting. rewrite Hem.
  destruct (__COMPUTE_DEVICE_GPU__ flags), (_ =? QUEUE_EMPTY_SLOT)%Z,
    (IS_STATE _ _ _); done.
Qed.

Lemma int_of_small z : (0 ≤ z < 2 ^ 31)%Z → int_of z = z.
Proof.
  intros Hz. unfold int_of. rewrite Z.mod_small by lia. lia.
Qed.

(** X9.  Line 59: the linear index [ccl_global_id(1) * ccl_global_size(0)
    + ccl_global_id(0)], stored in an [int], tells the work-items of a grid
    apart as long as the grid fits the [int]: two work-items of one grid
    with different global ids, both with a linear index below 2^31, have
    different linear indexes, so they read different cells of the input
    queue. *)
Theorem linear_index_injective (wi1 wi2 : WorkItem) :
  ccl_global_size wi1 0 = ccl_global_size wi2 0 →
  in_int_grid wi1 → in_int_grid wi2 →
  global_id wi1 ≠ global_id wi2 →
  linear_index wi1 ≠ linear_index wi2.
Proof.
  intros Hs (H1 & H1' & H1'') (H2 & H2' & H2'') Hne He.
  unfold linear_index in He.
  rewrite !int_of_small in He by nia.
  apply Hne. revert Hs H1 H1' H2 H2' He.
  unfold ccl_global_id, ccl_global_size, dim. simpl.
  destruct (global_id wi1) as [x1 y1], (global_id wi2) as [x2 y2]. simpl.
  intros <- H1 H1' H2 H2' He.
  assert (y1 = y2) by nia. subst y2.
  f_equal. lia.
Qed.

End WorkItemCoverage.

(** * Further properties of a round *)

Section RoundCoverage.

Context `{X : Collaborators}.
Variable flags : BuildFlags.

Implicit Types (d : Device) (G : Group) (t : Thread) (m : Machine).

Local Abbreviation OUT := QUEUE_SHADOW_RAY_CAST_DL_RAYS.
Local Abbreviation IN := QUEUE_ACTIVE_AND_REGENERATED_RAYS.

Lemma same_inputs_trans d1 d2 d3 :
  same_inputs d1 d2 → same_inputs d2 d3 → same_inputs d1 d3.
Proof.
  intros (H1 & H2 & H3 & H4 & H5) (K1 & K2 & K3 & K4 & K5).
  unfold same_inputs. by rewrite K1, K2, K3, K4, K5.
Qed.

Lemma same_slot_trans j d1 d2 d3 :
  same_slot j d1 d2 → same_slot j d2 d3 → same_slot j d1 d3.
Proof.
  intros (H1 & H2 & H3 & H4) (K1 & K2 & K3 & K4).
  unfold same_slot. by rewrite K1, K2, K3, K4.
Qed.

Lemma Forall2_insert_same {A} (P : A → A → Prop) (l : list A) i x y :
  (∀ a, P a a) → l !! i = Some x → P x y → Forall2 P l (<[i:=y]> l).
Proof.
  intros Hrefl Hi Hxy.
  apply Forall2_same_length_lookup_2; [by rewrite length_insert|].
  intros j a b Ha Hb.
  apply list_lookup_insert_Some in Hb as [(<- & <- & _)|[_ Hb]]; simplify_eq; auto.
Qed.

Lemma Forall2_fmap_same {A} (P : A → A → Prop) (f : A → A) (l : list A) :
  (∀ a, P a (f a)) → Forall2 P l (f <$> l).
Proof. intros Hf. induction l; csimpl; constructor; auto. Qed.

(** A transition other than the code of a work-item leaves the slot store
    and the capacity of the queues alone. *)
Lemma step_device a m m' :
  step flags a m = Some m' →
  (∃ g l G t,
     a = Run g l ∧ groups m !! g = Some G ∧ threads G !! l = Some t ∧
     device m' = (kernel_direct_lighting flags (t_kg t) (t_wi t) (device m)).1) ∨
  (same_inputs (device m) (device m') ∧
   ∀ j, same_slot j (device m) (device m')).
Proof.
  intros Hs.
  destruct a as [g l|g|g l|g|g|g|g l]; simpl in Hs;
    destruct (groups m !! g) as [G|] eqn:Hg; simplify_eq/=.
  - destruct (threads G !! l) as [t|] eqn:Hl; simplify_eq/=.
    destruct (phase G), (t_pc t); simplify_eq/=. by right.
  - destruct (phase G); simplify_eq/=.
    destruct (forallb waiting (threads G)); simplify_eq/=. by right.
  - destruct (threads G !! l) as [t|] eqn:Hl; simplify_eq/=.
    destruct (phase G), (t_pc t); simplify_eq/=.
    destruct (kernel_direct_lighting flags (t_kg t) (t_wi t) (device m))
      as [d' call] eqn:Hk. simplify_eq/=.
    left. exists g, l, G, t. by rewrite Hk.
  - destruct (phase G); simplify_eq/=.
    destruct (forallb past_local (threads G)); simplify_eq/=. by right.
  - destruct (phase G); simplify_eq/=.
    unfold enqueue_reserve in Hs.
    destruct (representative (threads G)); simplify_eq/=; by right.
  - destruct (phase G); simplify_eq/=. by right.
  - destruct (threads G !! l) as [t|] eqn:Hl; simplify_eq/=.
    destruct (phase G), (t_pc t) as [| | |c [o|]|]; simplify_eq/=.
    unfold enqueue_copy in Hs. case_decide; simplify_eq/=. by right.
Qed.

(** What a transition does to the work-items: it changes one group; its
    work-items stay who they are, and one that has marked a slot after the
    transition had marked it before or has just run the kernel, which
    marked it. *)
Lemma step_threads a m m' :
  step flags a m = Some m' →
  ∃ g G G',
    groups m !! g = Some G ∧ groups m' = <[g:=G']> (groups m) ∧
    Forall2 (fun t t' =>
       t_kg t' = t_kg t ∧ t_wi t' = t_wi t ∧
       ∀ i, marked t' = Some i →
         marked t = Some i ∨
         (call_marks (kernel_direct_lighting flags (t_kg t) (t_wi t) (device m)).2
          = Some (OUT, i) ∧
          device m' = (kernel_direct_lighting flags (t_kg t) (t_wi t) (device m)).1))
      (threads G) (threads G').
Proof.
  intros Hs.
  set (P := fun t t' =>
       t_kg t' = t_kg t ∧ t_wi t' = t_wi t ∧
       ∀ i, marked t' = Some i →
         marked t = Some i ∨
         (call_marks (kernel_direct_lighting flags (t_kg t) (t_wi t) (device m)).2
          = Some (OUT, i) ∧
          device m' = (kernel_direct_lighting flags (t_kg t) (t_wi t) (device m)).1)).
  assert (Hrefl : ∀ t, P t t) by (intros t; split_and!; auto).
  assert (Hsame : ∀ (ts : list Thread), Forall2 P ts ts).
  { intros ts. apply Forall2_same_length_lookup_2; [done|].
    intros i x y ? ?. simplify_eq. apply Hrefl. }
  assert (Hpc : ∀ t pc, marked (at_pc t pc) = marked t → P t (at_pc t pc)).
  { intros t pc Hm. split_and!; auto. intros i. rewrite Hm. auto. }
  destruct a as [g l|g|g l|g|g|g|g l]; simpl in Hs;
    destruct (groups m !! g) as [G|] eqn:Hg; simplify_eq/=.
  - destruct (threads G !! l) as [t|] eqn:Hl; simplify_eq/=.
    destruct (phase G), (t_pc t) eqn:Hpct; simplify_eq/=.
    eexists g, G, _. split_and!; [done..|]. simpl.
    eapply Forall2_insert_same; [done..|]. apply Hpc.
    unfold marked. simpl. by rewrite Hpct.
  - destruct (phase G); simplify_eq/=.
    destruct (forallb waiting (threads G)); simplify_eq/=.
    eexists g, G, _. split_and!; [done..|]. apply Hsame.
  - destruct (threads G !! l) as [t|] eqn:Hl; simplify_eq/=.
    destruct (phase G), (t_pc t) eqn:Hpct; simplify_eq/=.
    destruct (kernel_direct_lighting flags (t_kg t) (t_wi t) (device m))
      as [d' call] eqn:Hk. simplify_eq/=.
    eexists g, G, _. split_and!; [done..|].
    assert (Hnew : ∀ pc,
              (∀ i, marked (at_pc t pc) = Some i → call_marks call = Some (OUT, i)) →
              P t (at_pc t pc)).
    { intros pc Hm. split_and!; auto. intros i Hi. right.
      subst P. simpl. rewrite Hk. simpl. auto. }
    unfold enqueue_local.
    destruct call as [c|]; [destruct (c_bool (call_enqueue_flag c)) eqn:Hf|];
      simpl; (eapply Forall2_insert_same; [done..|]); apply Hnew;
      unfold marked; simpl; rewrite ?Hf; try done.
    intros i [= <-].
    destruct (kernel_direct_lighting_call flags _ _ _ _ _ Hk) as (_ & -> & _).
    done.
  - destruct (phase G); simplify_eq/=.
    destruct (forallb past_local (threads G)); simplify_eq/=.
    eexists g, G, _. split_and!; [done..|]. apply Hsame.
  - destruct (phase G); simplify_eq/=.
    unfold enqueue_reserve in Hs.
    destruct (representative (threads G)); simplify_eq/=;
      (eexists g, G, _; split_and!; [done..|]; apply Hsame).
  - destruct (phase G); simplify_eq/=.
    eexists g, G, _. split_and!; [done..|]. simpl.
    apply Forall2_fmap_same. intros t. split_and!.
    + by destruct t as [kg wi [| | |c [o|]|c [o|]]].
    + by destruct t as [kg wi [| | |c [o|]|c [o|]]].
    + intros i Hi. left. by destruct t as [kg wi [| | |c [o|]|c [o|]]].
  - destruct (threads G !! l) as [t|] eqn:Hl; simplify_eq/=.
    destruct (phase G), (t_pc t) as [| | |c [o|]|] eqn:Hpct; simplify_eq/=.
    unfold enqueue_copy in Hs. case_decide; simplify_eq/=.
    eexists g, G, _. split_and!; [done..|]. simpl.
    eapply Forall2_insert_same; [done..|]. apply Hpc.
    unfold marked. simpl. by rewrite Hpct.
Qed.

Lemma flags_kept_trans d1 d2 d3 :
  flags_kept d1 d2 → flags_kept d2 d3 → flags_kept d1 d3.
Proof. unfold flags_kept. eauto. Qed.

Lemma same_slot_flags_kept d d' :
  (∀ j, same_slot j d d') → flags_kept d d'.
Proof. intros Hs j n Hb. destruct (Hs j) as [Hr _]. by rewrite Hr. Qed.

Lemma kernel_keeps_flags kg wi d :
  flags_kept d (kernel_direct_lighting flags kg wi d).1.
Proof.
  destruct (kernel_direct_lighting_outcome flags kg wi d)
    as [[Hd _]|(_ & s & Hd & _)]; rewrite Hd; [by intros ? ?|].
  apply store_shadow_ray_flags.
Qed.

Lemma step_flags_kept a m m' :
  step flags a m = Some m' → flags_kept (device m) (device m').
Proof.
  intros [(g & l & G & t & _ & _ & _ & ->)|[_ Hs]]%step_device.
  - apply kernel_keeps_flags.
  - by apply same_slot_flags_kept.
Qed.

(** X4.  A round never clears a flag: along every schedule, every bit set
    in the ray state of a slot at the start is set in it afterwards. *)
Theorem round_only_adds_flags m0 tr m j n :
  exec flags tr m0 = Some m →
  Z.testbit (ray_state (kernel_split_state (device m0)) j) n = true →
  Z.testbit (ray_state (kernel_split_state (device m)) j) n = true.
Proof.
  revert m0. induction tr as [|a tr IH]; intros m0 He Hb; simplify_eq/=; [done|].
  destruct (step flags a m0) as [m1|] eqn:Hs; simplify_eq/=.
  apply (IH m1 He). by apply (step_flags_kept _ _ _ Hs).
Qed.

Lemma step_inputs a m m' :
  step flags a m = Some m' → same_inputs (device m) (device m').
Proof.
  intros [(g & l & G & t & _ & _ & _ & ->)|[Hin _]]%step_device; [|done].
  apply kernel_keeps_inputs.
Qed.

(** The fetch of a work-item looks at the input queue and the capacity. *)
Lemma fetch_ray_index_input kg wi d d' :
  queue_data (kernel_split_state d') IN = queue_data (kernel_split_state d) IN →
  queue_size (kernel_split_params d') = queue_size (kernel_split_params d) →
  fetch_ray_index kg wi d' = fetch_ray_index kg wi d.
Proof.
  intros Hq Hs. unfold fetch_ray_index, get_ray_index. by rewrite Hq, Hs.
Qed.

Lemma step_identities a m m' :
  step flags a m = Some m' → identities m' = identities m.
Proof.
  intros (g & G & G' & Hg & Hgs & Hts)%step_threads.
  unfold identities. rewrite Hgs, list_fmap_insert.
  apply list_insert_id. rewrite list_lookup_fmap, Hg. simpl. f_equal.
  clear -Hts. induction Hts as [|t t' ts ts' (Hkg & Hwi & _) _ IH]; csimpl; [done|].
  by rewrite IH, Hkg, Hwi.
Qed.

Lemma step_queue_size a m m' :
  step flags a m = Some m' →
  queue_size (kernel_split_params (device m'))
  = queue_size (kernel_split_params (device m)).
Proof.
  intros [(g & l & G & t & _ & _ & _ & ->)|[Hin _]]%step_device.
  - by destruct (kernel_direct_lighting_frame flags (t_kg t) (t_wi t) (device m))
      as [-> _].
  - by destruct Hin as (_ & _ & _ & _ & ?).
Qed.

Lemma step_unfetched a m m' j :
  calls_to_out m → step flags a m = Some m' →
  Forall (Forall (fun p => fetch_ray_index p.1 p.2 (device m) ≠ j)) (identities m) →
  same_slot j (device m) (device m') ∧
  Forall (Forall (fun p => fetch_ray_index p.1 p.2 (device m') ≠ j)) (identities m').
Proof.
  intros Hc Hs Hj. split.
  - pose proof Hs as [(g & l & G & t & _ & Hg & Hl & ->)|[_ Hsl]]%step_device;
      [|done].
    apply kernel_keeps_other_slots.
    assert (Hid : identities m !! g = Some ((fun t => (t_kg t, t_wi t)) <$> threads G)).
    { unfold identities. by rewrite list_lookup_fmap, Hg. }
    pose proof (Forall_lookup_1 _ _ _ _ Hj Hid) as HG.
    assert (Hidt : ((fun t => (t_kg t, t_wi t)) <$> threads G) !! l
                   = Some (t_kg t, t_wi t)).
    { by rewrite list_lookup_fmap, Hl. }
    pose proof (Forall_lookup_1 _ _ _ _ HG Hidt) as Ht. simpl in Ht. congruence.
  - rewrite (step_identities _ _ _ Hs).
    destruct (step_frame flags _ _ _ Hc Hs) as [_ Hq].
    destruct (Hq IN) as [Hin _]; [done|].
    pose proof (step_queue_size _ _ _ Hs) as Hqs.
    eapply Forall_impl; [exact Hj|]. intros ids Hids.
    eapply Forall_impl; [exact Hids|]. intros [kg wi] Hne. simpl in *.
    by rewrite (fetch_ray_index_input kg wi (device m) (device m')).
Qed.

(** X6.  A round touches the slots of its input queue only: a slot that no
    work-item of the grid fetches has the same ray state and scratch
    fields after every schedule. *)
Theorem round_leaves_unfetched_slots m0 tr m j :
  initial m0 = true → exec flags tr m0 = Some m →
  Forall (Forall (fun p => fetch_ray_index p.1 p.2 (device m0) ≠ j))
         (identities m0) →
  ray_state (kernel_split_state (device m)) j
  = ray_state (kernel_split_state (device m0)) j ∧
  light_ray (kernel_split_state (device m)) j
  = light_ray (kernel_split_state (device m0)) j ∧
  bsdf_eval (kernel_split_state (device m)) j
  = bsdf_eval (kernel_split_state (device m0)) j ∧
  is_lamp (kernel_split_state (device m)) j
  = is_lamp (kernel_split_state (device m0)) j.
Proof.
  intros Hi%initial_calls. revert m0 Hi.
  change (∀ m0, calls_to_out m0 → exec flags tr m0 = Some m →
          Forall (Forall (fun p => fetch_ray_index p.1 p.2 (device m0) ≠ j))
                 (identities m0) →
          same_slot j (device m0) (device m)).
  induction tr as [|a tr IH]; intros m0 Hc He Hj; simplify_eq/=; [done|].
  destruct (step flags a m0) as [m1|] eqn:Hs; simplify_eq/=.
  destruct (step_unfetched _ _ _ j Hc Hs Hj) as [Hsl Hj1].
  destruct (step_frame flags _ _ _ Hc Hs) as [Hc1 _].
  apply (same_slot_trans _ _ (device m1)); [done|]. by apply IH.
Qed.

Lemma elem_of_marked_slots m i :
  i ∈ marked_slots m ↔ ∃ G t, G ∈ groups m ∧ t ∈ threads G ∧ marked t = Some i.
Proof.
  unfold marked_slots. induction (groups m) as [|G Gs IH]; csimpl.
  - split; [by intros ?%elem_of_nil|]. intros (G & t & HG & _). by apply elem_of_nil in HG.
  - rewrite elem_of_app, IH, list_elem_of_omap. split.
    + intros [(t & Ht & Hm)|(G' & t & HG & Ht & Hm)].
      * exists G, t. split_and!; [left|..]; done.
      * exists G', t. split_and!; [by right|..]; done.
    + intros (G' & t & HG & Ht & Hm).
      apply elem_of_cons in HG as [->|HG]; [left|right]; eauto.
Qed.

(** The slots marked so far are real slots, and they carry the flag. *)
Lemma step_marked a m m' :
  step flags a m = Some m' →
  (∀ i, i ∈ marked_slots m → i ≠ QUEUE_EMPTY_SLOT ∧ has_cast_flag (device m) i) →
  ∀ i, i ∈ marked_slots m' → i ≠ QUEUE_EMPTY_SLOT ∧ has_cast_flag (device m') i.
Proof.
  intros Hs HP i Hi.
  pose proof (step_flags_kept _ _ _ Hs) as Hk.
  assert (Hold : i ∈ marked_slots m →
                 i ≠ QUEUE_EMPTY_SLOT ∧ has_cast_flag (device m') i).
  { intros [Hne Hf]%HP. split; [done|]. intros n Hn. by apply Hk, Hf. }
  pose proof Hs as (g & G & G' & Hg & Hgs & Hts)%step_threads.
  apply elem_of_marked_slots in Hi as (G1 & t1 & HG1 & Ht1 & Hm1).
  rewrite Hgs in HG1. apply elem_of_insert_inv in HG1 as [->|HG1].
  2:{ apply Hold, elem_of_marked_slots. eauto. }
  apply list_elem_of_lookup in Ht1 as (l & Hl).
  destruct (Forall2_lookup_r _ _ _ _ _ Hts Hl) as (t & Hlt & _ & _ & Hmk).
  destruct (Hmk i Hm1) as [Hm|[Hcall Hdev]].
  - apply Hold, elem_of_marked_slots. exists G, t.
    split_and!; [by eapply list_elem_of_lookup_2..|done].
  - destruct (kernel_direct_lighting_outcome flags (t_kg t) (t_wi t) (device m))
      as [[_ Hnone]|(Hne & s & Hd & Hsome)]; [congruence|].
    rewrite Hcall in Hsome. injection Hsome as ->.
    split; [done|]. rewrite Hdev, Hd. apply store_shadow_ray_flags.
Qed.

Lemma initial_marked m : initial m = true → marked_slots m = [].
Proof.
  intros Hi. unfold initial in Hi. apply Is_true_true_2, forallb_True in Hi.
  unfold marked_slots. induction Hi as [|G Gs HG _ IH]; csimpl; [done|].
  rewrite IH, app_nil_r. apply omap_None.
  apply andb_True in HG as [_ Ht]. apply forallb_True in Ht.
  eapply Forall_impl; [exact Ht|]. intros t Hpc. simpl in *.
  unfold marked. by destruct (t_pc t).
Qed.

(** X7.  Queue membership and state flag agree: along every schedule,
    every slot index a work-item has marked is a real slot (never the
    empty-slot sentinel) whose ray state carries RAY_SHADOW_RAY_CAST_DL;
    when the round is over this holds of every entry it appended to
    QUEUE_SHADOW_RAY_CAST_DL_RAYS. *)
Theorem marked_slots_carry_the_flag m0 tr m :
  initial m0 = true → exec flags tr m0 = Some m →
  (∀ i, i ∈ marked_slots m →
        i ≠ QUEUE_EMPTY_SLOT ∧ has_cast_flag (device m) i) ∧
  (well_formed m0 = true → completed m = true →
   ∀ i, i ∈ queue_cells (device m) OUT (count_of (device m0) OUT)
              (count_of (device m) OUT - count_of (device m0) OUT) →
        i ≠ QUEUE_EMPTY_SLOT ∧ has_cast_flag (device m) i).
Proof.
  intros Hi He.
  assert (HP : ∀ i, i ∈ marked_slots m →
                    i ≠ QUEUE_EMPTY_SLOT ∧ has_cast_flag (device m) i).
  { assert (H0 : ∀ i, i ∈ marked_slots m0 →
                      i ≠ QUEUE_EMPTY_SLOT ∧ has_cast_flag (device m0) i).
    { intros i. rewrite (initial_marked _ Hi). by intros ?%elem_of_nil. }
    clear Hi. revert m0 He H0.
    induction tr as [|a tr IH]; intros m0 He H0; simplify_eq/=; [done|].
    destruct (step flags a m0) as [m1|] eqn:Hs; simplify_eq/=.
    apply (IH m1 He). by apply (step_marked _ _ _ Hs). }
  split; [done|]. intros Hw Hc i Hin.
  pose proof (exec_inv flags _ _ _ _ (initial_inv _ Hi Hw) He) as Hm.
  destruct (completed_cells _ _ Hm Hc) as [Hcnt Hperm].
  apply HP. rewrite <- Hperm.
  by replace (length (marked_slots m))
    with (count_of (device m) OUT - count_of (device m0) OUT) by lia.
Qed.

Lemma step_without_emission a m m' :
  __EMISSION__ flags = false →
  Forall (fun G => Forall no_call (threads G)) (groups m) →
  step flags a m = Some m' →
  device m' = device m ∧
  Forall (fun G => Forall no_call (threads G)) (groups m').
Proof.
  intros Hem Hn Hs.
  assert (Hins : ∀ g G',
            Forall no_call (threads G') →
            Forall (fun G => Forall no_call (threads G)) (<[g:=G']> (groups m))).
  { intros g G' HG'. by apply Forall_insert. }
  destruct a as [g l|g|g l|g|g|g|g l]; simpl in Hs;
    destruct (groups m !! g) as [G|] eqn:Hg; simplify_eq/=;
    pose proof (Forall_lookup_1 (fun G => Forall no_call (threads G))
                  _ _ _ Hn Hg) as HG; simpl in HG.
  - (* Enter *)
    destruct (threads G !! l) as [t|] eqn:Hl; simplify_eq/=.
    destruct (phase G), (t_pc t); simplify_eq/=.
    split; [done|]. apply Hins. simpl. by apply Forall_insert.
  - (* Barrier0 *)
    destruct (phase G), (forallb waiting (threads G)); simplify_eq/=.
    split; [done|]. by apply Hins.
  - (* Run *)
    destruct (threads G !! l) as [t|] eqn:Hl; simplify_eq/=.
    destruct (phase G), (t_pc t); simplify_eq/=.
    rewrite (kernel_without_emission flags _ _ _ Hem) in Hs. simplify_eq/=.
    split; [done|]. apply Hins. simpl. by apply Forall_insert.
  - (* Barrier1 *)
    destruct (phase G), (forallb past_local (threads G)); simplify_eq/=.
    split; [done|]. by apply Hins.
  - (* Reserve *)
    destruct (phase G); simplify_eq/=. unfold enqueue_reserve in Hs.
    destruct (representative (threads G)) as [c|] eqn:Hr.
    + apply representative_Some in Hr as (t & o & Ht & Hpc).
      rewrite Forall_forall in HG. specialize (HG t Ht).
      unfold no_call in HG. by rewrite Hpc in HG.
    + simplify_eq/=. split; [done|]. by apply Hins.
  - (* Barrier2 *)
    destruct (phase G); simplify_eq/=.
    split; [done|]. apply Hins. simpl. apply Forall_fmap.
    eapply Forall_impl; [exact HG|]. intros [kg wi pc] Ht.
    unfold release, no_call in *. simpl in *. by destruct pc.
  - (* Copy *)
    destruct (threads G !! l) as [t|] eqn:Hl; simplify_eq/=.
    pose proof (Forall_lookup_1 _ _ _ _ HG Hl) as Ht. unfold no_call in Ht.
    destruct (phase G), (t_pc t) as [| | |c [o|]|]; simplify_eq/=; done.
Qed.

(** X3.  Lines 88-127 and 134-143 are compiled under [__EMISSION__]: in a
    build without it no schedule changes the device memory, the lengths
    of the queues among it, and no work-item marks a slot. *)
Theorem round_without_emission_is_idle m0 tr m :
  __EMISSION__ flags = false →
  initial m0 = true → exec flags tr m0 = Some m →
  device m = device m0 ∧ marked_slots m = [].
Proof.
  intros Hem Hi He.
  assert (H0 : Forall (fun G => Forall no_call (threads G)) (groups m0)).
  { unfold initial in Hi. apply Is_true_true_2, forallb_True in Hi.
    eapply Forall_impl; [exact Hi|]. intros G HG.
    apply andb_True in HG as [_ Ht]. apply forallb_True in Ht.
    eapply Forall_impl; [exact Ht|]. intros t Hpc. simpl in *.
    unfold no_call. by destruct (t_pc t). }
  clear Hi.
  assert (Hm : device m = device m0 ∧
               Forall (fun G => Forall no_call (threads G)) (groups m)).
  { revert m0 He H0. induction tr as [|a tr IH]; intros m0 He H0;
      simplify_eq/=; [done|].
    destruct (step flags a m0) as [m1|] eqn:Hs; simplify_eq/=.
    destruct (step_without_emission _ _ _ Hem H0 Hs) as [Hd H1].
    destruct (IH m1 He H1) as [Hd' H']. split; [congruence|done]. }
  destruct Hm as [Hd Hn]. split; [done|].
  unfold marked_slots. clear -Hn.
  induction Hn as [|G Gs HG _ IH]; csimpl; [done|].
  rewrite IH, app_nil_r. apply omap_None.
  eapply Forall_impl; [exact HG|]. intros t Ht.
  unfold no_call, marked in *. by destruct (t_pc t).
Qed.

Lemma claim_marked_length qs (ts : list Thread) :
  Forall (fun t => call_ok qs (t_pc t)) ts →
  length (omap claim ts) = length (omap marked ts).
Proof.
  induction 1 as [|t ts Hc _ IH]; csimpl; [done|].
  unfold claim, marked in *.
  destruct (t_pc t) as [| | |c [o|]|c [o|]]; simplify_eq/=; try done;
    destruct Hc as (_ & _ & Hf);
    destruct (c_bool (call_enqueue_flag c)) eqn:Hb; simpl;
    try (by rewrite IH).
  all: try (by pose proof (proj1 Hf (mk_is_Some _ _ eq_refl))).
  all: by destruct (proj2 Hf eq_refl) as [? ?].
Qed.

(** X10.  Lines 52-56 and 134-143: whatever the local memory held when
    the round started, from the barrier of line 56 up to the reservation
    of the group the counter [local_queue_atomics] is the number of
    work-items of the group that have marked a slot; in particular it is
    zero when the barrier releases the group.  What the counter holds
    after the reservation is not said. *)
Theorem counter_counts_marked_work_items m0 tr m g G :
  initial m0 = true → well_formed m0 = true →
  exec flags tr m0 = Some m →
  groups m !! g = Some G → phase G = PhLocal ∨ phase G = PhReserve →
  local_queue_atomics G = length (omap marked (threads G)).
Proof.
  intros Hi Hw He Hg Hp.
  pose proof (exec_inv flags _ _ _ _ (initial_inv _ Hi Hw) He) as [Hgs _ _].
  pose proof (Forall_lookup_1 _ _ _ _ Hgs Hg) as HG.
  assert (Hne : phase G ≠ PhEntry) by (destruct Hp as [-> | ->]; done).
  pose proof (gi_claims _ _ HG Hne) as Hperm.
  apply Permutation_length in Hperm.
  rewrite length_fmap, length_seq in Hperm. rewrite <- Hperm.
  apply (claim_marked_length (queue_size (kernel_split_params (device m)))).
  eapply Forall_impl; [exact (gi_pc _ _ HG)|]. by intros t [_ ?].
Qed.

(** X14.  A round ends: every transition uses up one of the steps the
    work-items and the groups have before them, so no schedule is longer
    than the number of steps the grid starts with, and no work-item passes
    a barrier or runs the kernel a second time. *)
Theorem schedule_length_bounded m0 tr m :
  exec flags tr m0 = Some m → length tr + remaining m ≤ remaining m0.
Proof.
  revert m0. induction tr as [|a tr IH]; intros m0 He; simplify_eq/=; [lia|].
  destruct (step flags a m0) as [m1|] eqn:Hs; simplify_eq/=.
  pose proof (step_decreases flags _ _ _ Hs). specialize (IH m1 He). lia.
Qed.

(** X15.  The barriers keep the stages of a group apart.  In every state
    a round reaches, when a work-item of a group has started lines 58-143
    every work-item of the group has passed lines 52-55, and when a
    work-item of the group has left [enqueue_ray_index_local] every
    work-item of the group has run lines 58-143. *)
Theorem barriers_separate_the_stages m0 tr m g G t t' :
  initial m0 = true → well_formed m0 = true →
  exec flags tr m0 = Some m →
  groups m !! g = Some G → t ∈ threads G → t' ∈ threads G →
  (ran t = true → t_pc t' ≠ AtEntry) ∧
  (∀ c o, t_pc t = Finished c o → ran t' = true).
Proof.
  intros Hi Hw He Hg Ht Ht'.
  pose proof (exec_inv flags _ _ _ _ (initial_inv _ Hi Hw) He) as [Hgs _ _].
  pose proof (Forall_lookup_1 _ _ _ _ Hgs Hg) as HG.
  pose proof (proj1 (Forall_forall _ _) (gi_pc _ _ HG)) as Hpcs.
  destruct (Hpcs t Ht) as [Hok _], (Hpcs t' Ht') as [Hok' _].
  simpl in Hok, Hok'. unfold ran.
  split.
  - intros Hr Hpc. rewrite Hpc in Hok'.
    destruct (phase G), (t_pc t); done.
  - intros c o Hpc. rewrite Hpc in Hok.
    destruct (phase G), (t_pc t'); done.
Qed.

End RoundCoverage.

(** * The result of a round does not depend on the schedule *)

Section ScheduleIndependence.

Context `{X : Collaborators}.
Variable flags : BuildFlags.

Local Abbreviation OUT := QUEUE_SHADOW_RAY_CAST_DL_RAYS.
Local Abbreviation IN := QUEUE_ACTIVE_AND_REGENERATED_RAYS.

(** ** Counting work-items *)

Lemma sum_list_with_lookup_le {A} (f : A → nat) (l : list A) i x :
  l !! i = Some x → f x ≤ sum_list_with f l.
Proof.
  revert i. induction l as [|a l IH]; intros [|i] Hi; simplify_eq/=; [lia|].
  specialize (IH i Hi). lia.
Qed.

Lemma sum_list_with_Forall2 {A} (f : A → nat) (l k : list A) :
  Forall2 (fun a b => f b = f a) l k → sum_list_with f k = sum_list_with f l.
Proof. induction 1 as [|a b l k Hab _ IH]; simpl; [done|]. by rewrite Hab, IH. Qed.

Lemma tally_lookup (P : Thread → bool) m g l G t :
  groups m !! g = Some G → threads G !! l = Some t → P t = true →
  0 < tally P m.
Proof.
  intros Hg Hl HP. unfold tally.
  pose proof (sum_list_with_lookup_le
                (fun G => sum_list_with (fun t => if P t then 1 else 0) (threads G))
                _ _ _ Hg) as H1.
  pose proof (sum_list_with_lookup_le (fun t => if P t then 1 else 0) _ _ _ Hl)
    as H2.
  simpl in *. rewrite HP in H2. lia.
Qed.

Lemma tally_insert (P : Thread → bool) m m' g l G G' t t' :
  groups m !! g = Some G → threads G !! l = Some t →
  groups m' = <[g:=G']> (groups m) → threads G' = <[l:=t']> (threads G) →
  tally P m' + (if P t then 1 else 0) = tally P m + (if P t' then 1 else 0).
Proof.
  intros Hg Hl Hgs Hts. unfold tally. rewrite Hgs.
  pose proof (sum_list_with_insert
                (fun G => sum_list_with (fun t => if P t then 1 else 0) (threads G))
                (groups m) g G G' Hg) as H1.
  pose proof (sum_list_with_insert (fun t => if P t then 1 else 0)
                (threads G) l t t' Hl) as H2.
  simpl in H1. rewrite Hts in H1. lia.
Qed.

Lemma tally_same (P : Thread → bool) m m' g G G' :
  groups m !! g = Some G → groups m' = <[g:=G']> (groups m) →
  Forall2 (fun t t' => P t' = P t) (threads G) (threads G') →
  tally P m' = tally P m.
Proof.
  intros Hg Hgs Hts. unfold tally. rewrite Hgs.
  pose proof (sum_list_with_insert
                (fun G => sum_list_with (fun t => if P t then 1 else 0) (threads G))
                (groups m) g G G' Hg) as H1.
  simpl in H1.
  assert (H2 : sum_list_with (fun t => if P t then 1 else 0) (threads G')
               = sum_list_with (fun t => if P t then 1 else 0) (threads G)).
  { apply sum_list_with_Forall2. eapply Forall2_impl; [exact Hts|].
    intros t t' Ht. simpl in Ht. by rewrite Ht. }
  lia.
Qed.

Lemma tally_ext (P Q : Thread → bool) m :
  Forall (fun G => Forall (fun t => P t = Q t) (threads G)) (groups m) →
  tally P m = tally Q m.
Proof.
  unfold tally. induction 1 as [|G Gs HG _ IH]; simpl; [done|].
  rewrite IH. f_equal. clear -HG.
  induction HG as [|t ts Ht _ IH]; simpl; [done|]. by rewrite Ht, IH.
Qed.

Lemma tally_zero (P : Thread → bool) m :
  Forall (fun G => Forall (fun t => P t = false) (threads G)) (groups m) →
  tally P m = 0.
Proof.
  unfold tally. induction 1 as [|G Gs HG _ IH]; simpl; [done|].
  rewrite IH, Nat.add_0_r. clear -HG.
  induction HG as [|t ts Ht _ IH]; simpl; [done|]. by rewrite Ht, IH.
Qed.

(** The number of work-items that fetch a slot is read off the identities
    of the grid. *)
Lemma tally_identities d j m :
  tally (fetched_by d j) m
  = sum_list_with
      (fun p => if bool_decide (fetch_ray_index p.1 p.2 d = j) then 1 else 0)
      (concat (identities m)).
Proof.
  unfold tally, identities.
  induction (groups m) as [|G Gs IH]; csimpl; [done|].
  rewrite sum_list_with_app, IH. f_equal.
  induction (threads G) as [|t ts IHt]; csimpl; [done|]. by rewrite IHt.
Qed.

Lemma elem_of_concat_2 {A} (x : A) (l : list A) (ls : list (list A)) :
  x ∈ l → l ∈ ls → x ∈ concat ls.
Proof.
  intros Hx. induction ls as [|k ls IH]; intros Hl;
    [by apply elem_of_nil in Hl|].
  simpl. apply elem_of_app. apply elem_of_cons in Hl as [<-|Hl]; auto.
Qed.

Lemma identities_lookup m g l G t :
  groups m !! g = Some G → threads G !! l = Some t →
  (t_kg t, t_wi t) ∈ concat (identities m).
Proof.
  intros Hg Hl.
  apply (elem_of_concat_2 _ ((fun t => (t_kg t, t_wi t)) <$> threads G)).
  - apply list_elem_of_fmap. exists t. split; [done|].
    by eapply list_elem_of_lookup_2.
  - unfold identities. apply list_elem_of_fmap. exists G. split; [done|].
    by eapply list_elem_of_lookup_2.
Qed.

Lemma fetched_elem m p :
  p ∈ concat (identities m) →
  0 < tally (fetched_by (device m) (fetch_ray_index p.1 p.2 (device m))) m.
Proof.
  rewrite tally_identities. generalize (concat (identities m)) as ps.
  induction ps as [|q ps IH]; intros Hp; [by apply elem_of_nil in Hp|].
  simpl. apply elem_of_cons in Hp as [->|Hp].
  - rewrite bool_decide_eq_true_2 by done. lia.
  - specialize (IH Hp). lia.
Qed.

(** ** No slot is handed out twice *)

Lemma distinct_slots_tally m j :
  distinct_slots m → j ≠ QUEUE_EMPTY_SLOT →
  tally (fetched_by (device m) j) m ≤ 1.
Proof.
  intros Hnd Hj. rewrite tally_identities.
  unfold distinct_slots, fetched in Hnd. revert Hnd.
  generalize (concat (identities m)) as ps.
  induction ps as [|p ps IH]; csimpl; intros Hnd; [lia|].
  rewrite filter_cons in Hnd.
  case_bool_decide as Hp.
  - destruct (decide (fetch_ray_index p.1 p.2 (device m) ≠ QUEUE_EMPTY_SLOT))
      as [_|Hn]; [|by destruct Hn; rewrite Hp].
    apply NoDup_cons in Hnd as [Hnin _].
    assert (Hz : sum_list_with
              (fun p => if bool_decide (fetch_ray_index p.1 p.2 (device m) = j)
                        then 1 else 0) ps = 0); [|lia].
    apply sum_list_with_zero, Forall_forall. intros q Hq. simpl.
    case_bool_decide as Hq'; [|done]. destruct Hnin.
    apply list_elem_of_filter. split; [by rewrite Hp|].
    apply list_elem_of_fmap. exists q. split; [congruence|done].
  - destruct (decide (fetch_ray_index p.1 p.2 (device m) ≠ QUEUE_EMPTY_SLOT)).
    + apply NoDup_cons in Hnd as [_ Hnd]. specialize (IH Hnd). lia.
    + specialize (IH Hnd). lia.
Qed.

Lemma distinct_slots_unique m p q :
  distinct_slots m →
  p ∈ concat (identities m) → q ∈ concat (identities m) →
  fetch_ray_index p.1 p.2 (device m) = fetch_ray_index q.1 q.2 (device m) →
  fetch_ray_index p.1 p.2 (device m) ≠ QUEUE_EMPTY_SLOT →
  p = q.
Proof.
  unfold distinct_slots, fetched. generalize (concat (identities m)) as ps.
  induction ps as [|a ps IH]; csimpl; intros Hnd Hp Hq He Hne;
    [by apply elem_of_nil in Hp|].
  rewrite filter_cons in Hnd.
  assert (Hin : ∀ r, r ∈ ps →
            fetch_ray_index r.1 r.2 (device m) ≠ QUEUE_EMPTY_SLOT →
            fetch_ray_index r.1 r.2 (device m)
            ∈ filter (fun i => i ≠ QUEUE_EMPTY_SLOT)
                ((fun p => fetch_ray_index p.1 p.2 (device m)) <$> ps)).
  { intros r Hr Hre. apply list_elem_of_filter. split; [done|].
    apply list_elem_of_fmap. by exists r. }
  apply elem_of_cons in Hp as [->|Hp], Hq as [->|Hq]; [done|..].
  - destruct (decide _) as [_|Hn]; [|done].
    apply NoDup_cons in Hnd as [Hnin _]. destruct Hnin.
    rewrite He. apply Hin; [done|congruence].
  - destruct (decide _) as [_|Hn]; [|by destruct Hn; rewrite <- He].
    apply NoDup_cons in Hnd as [Hnin _]. destruct Hnin.
    rewrite <- He. by apply Hin.
  - apply IH; try done.
    destruct (decide _); [by apply NoDup_cons in Hnd as [_ ?]|done].
Qed.

(** ** What a transition does *)

(** A transition is a work-item running lines 58-143, or it leaves every
    slot and every input alone and no work-item runs or marks. *)
Lemma step_cases a m m' :
  step flags a m = Some m' →
  (∃ g l G t G' pc,
     groups m !! g = Some G ∧ threads G !! l = Some t ∧
     groups m' = <[g:=G']> (groups m) ∧
     threads G' = <[l:=at_pc t pc]> (threads G) ∧
     ran t = false ∧ ran (at_pc t pc) = true ∧
     marked (at_pc t pc)
     = snd <$> call_marks
                 (kernel_direct_lighting flags (t_kg t) (t_wi t) (device m)).2 ∧
     device m'
     = (kernel_direct_lighting flags (t_kg t) (t_wi t) (device m)).1) ∨
  ((∀ j, same_slot j (device m) (device m')) ∧
   ∃ g G G',
     groups m !! g = Some G ∧ groups m' = <[g:=G']> (groups m) ∧
     Forall2 (fun t t' =>
        t_kg t' = t_kg t ∧ t_wi t' = t_wi t ∧ ran t' = ran t ∧
        marked t' = marked t) (threads G) (threads G')).
Proof.
  intros Hs.
  set (P := fun t t' : Thread =>
        t_kg t' = t_kg t ∧ t_wi t' = t_wi t ∧ ran t' = ran t ∧
        marked t' = marked t).
  assert (Hsame : ∀ (ts : list Thread), Forall2 P ts ts).
  { intros ts. apply Forall2_same_length_lookup_2; [done|].
    intros i x y ? ?. by simplify_eq. }
  assert (Hslot : ∀ j, same_slot j (device m) (device m)) by done.
  destruct a as [g l|g|g l|g|g|g|g l]; simpl in Hs;
    destruct (groups m !! g) as [G|] eqn:Hg; simplify_eq/=.
  - (* Enter *)
    destruct (threads G !! l) as [t|] eqn:Hl; simplify_eq/=.
    destruct (phase G), (t_pc t) eqn:Hpct; simplify_eq/=.
    right. split; [done|]. eexists g, G, _. split_and!; [done..|]. simpl.
    eapply Forall2_insert_same; [done..|].
    subst P. unfold ran, marked. simpl. by rewrite Hpct.
  - (* Barrier0 *)
    destruct (phase G); simplify_eq/=.
    destruct (forallb waiting (threads G)); simplify_eq/=.
    right. split; [done|]. eexists g, G, _. split_and!; [done..|]. apply Hsame.
  - (* Run *)
    destruct (threads G !! l) as [t|] eqn:Hl; simplify_eq/=.
    destruct (phase G), (t_pc t) eqn:Hpct; simplify_eq/=.
    destruct (kernel_direct_lighting flags (t_kg t) (t_wi t) (device m))
      as [d' call] eqn:Hk. simplify_eq/=.
    left. unfold enqueue_local.
    destruct call as [c|]; [destruct (c_bool (call_enqueue_flag c)) eqn:Hf|];
      eexists g, l, G, t, _, _;
      (split_and!; [done|done|done|simpl; reflexivity|..]);
      unfold ran, marked, call_marks; rewrite ?Hk; simpl;
      rewrite ?Hpct, ?Hf; done.
  - (* Barrier1 *)
    destruct (phase G); simplify_eq/=.
    destruct (forallb past_local (threads G)); simplify_eq/=.
    right. split; [done|]. eexists g, G, _. split_and!; [done..|]. apply Hsame.
  - (* Reserve *)
    destruct (phase G); simplify_eq/=.
    unfold enqueue_reserve in Hs.
    destruct (representative (threads G)); simplify_eq/=;
      (right; split; [done|]; eexists g, G, _; split_and!; [done..|];
       apply Hsame).
  - (* Barrier2 *)
    destruct (phase G); simplify_eq/=.
    right. split; [done|]. eexists g, G, _. split_and!; [done..|]. simpl.
    apply Forall2_fmap_same. intros t. subst P. simpl.
    by destruct t as [kg wi [| | |c [o|]|c [o|]]].
  - (* Copy *)
    destruct (threads G !! l) as [t|] eqn:Hl; simplify_eq/=.
    destruct (phase G), (t_pc t) as [| | |c [o|]|] eqn:Hpct; simplify_eq/=.
    unfold enqueue_copy in Hs. case_decide; simplify_eq/=.
    right. split; [done|]. eexists g, G, _. split_and!; [done..|]. simpl.
    eapply Forall2_insert_same; [done..|].
    subst P. unfold ran, marked. simpl. by rewrite Hpct.
Qed.

(** ** One work-item against the memory the round started from *)

Lemma same_slot_join j d d1 d2 :
  same_slot j d d1 → same_slot j d d2 → same_slot j d1 d2.
Proof.
  intros (H1 & H2 & H3 & H4) (K1 & K2 & K3 & K4).
  unfold same_slot. by rewrite H1, H2, H3, H4, K1, K2, K3, K4.
Qed.

Lemma store_same_slot j d0 d i s :
  same_slot j d0 d →
  same_slot j (store_shadow_ray d0 i s) (store_shadow_ray d i s).
Proof.
  intros (H1 & H2 & H3 & H4). destruct s as [[r L] b].
  unfold same_slot, store_shadow_ray, ADD_RAY_FLAG. simpl.
  destruct (decide (j = i)) as [->|Hne].
  - rewrite !upd_eq. by rewrite H1.
  - by rewrite !upd_ne.
Qed.

Lemma kernel_keeps_slot kg wi d j :
  j ≠ fetch_ray_index kg wi d ∨ fetch_ray_index kg wi d = QUEUE_EMPTY_SLOT →
  same_slot j d (kernel_direct_lighting flags kg wi d).1.
Proof.
  intros Hj.
  destruct (kernel_direct_lighting_outcome flags kg wi d)
    as [[Hd _]|(Hne & s & Hd & _)]; rewrite Hd; [done|].
  apply store_shadow_ray_other. by destruct Hj.
Qed.

(** A work-item that runs in the course of a round sees what it sees on
    the memory the round started from, as long as its slot is as it was:
    it fetches the same slot, makes the same call, and leaves every slot
    that was the same in the two memories the same. *)
Lemma kernel_direct_lighting_tracks kg wi d0 d :
  let i := fetch_ray_index kg wi d0 in
  same_inputs d0 d →
  queue_data (kernel_split_state d) IN = queue_data (kernel_split_state d0) IN →
  (i ≠ QUEUE_EMPTY_SLOT → same_slot i d0 d) →
  fetch_ray_index kg wi d = i ∧
  (kernel_direct_lighting flags kg wi d).2
  = (kernel_direct_lighting flags kg wi d0).2 ∧
  ∀ j, same_slot j d0 d →
       same_slot j (kernel_direct_lighting flags kg wi d0).1
                   (kernel_direct_lighting flags kg wi d).1.
Proof.
  intros i Hin Hq Hsl.
  assert (Hqs : queue_size (kernel_split_params d)
                = queue_size (kernel_split_params d0))
    by (by destruct Hin as (_ & _ & _ & _ & ?)).
  assert (Hf : fetch_ray_index kg wi d = i)
    by (by apply fetch_ray_index_input).
  split; [done|].
  destruct (decide (i = QUEUE_EMPTY_SLOT)) as [He|Hne].
  - unfold kernel_direct_lighting. rewrite Hf. fold i. rewrite He, Hqs.
    rewrite Z.eqb_refl, andb_true_r. simpl.
    by destruct (__COMPUTE_DEVICE_GPU__ flags), (__EMISSION__ flags).
  - destruct (Hsl Hne) as (Hrs & _).
    destruct (direct_lighting_local flags kg wi d0 d i 0 Hin Hrs)
      as (o & Ho & Ho').
    rewrite (kernel_direct_lighting_slot flags kg wi d0 Hne).
    rewrite (kernel_direct_lighting_slot flags kg wi d) by (by rewrite Hf).
    rewrite Hf, Hqs. fold i. rewrite Ho, Ho'.
    destruct o as [s|]; simpl; (split; [done|]); intros j Hj; [|done].
    by apply store_same_slot.
Qed.

(** ** The invariant of a round *)

Lemma exec_inputs tr m m' :
  exec flags tr m = Some m' → same_inputs (device m) (device m').
Proof.
  revert m. induction tr as [|a tr IH]; intros m He; simplify_eq/=; [done|].
  destruct (step flags a m) as [m1|] eqn:Hs; simplify_eq/=.
  apply (same_inputs_trans _ (device m1)); [|by apply IH].
  by apply (step_inputs flags a).
Qed.

Lemma exec_identities tr m m' :
  exec flags tr m = Some m' → identities m' = identities m.
Proof.
  revert m. induction tr as [|a tr IH]; intros m He; simplify_eq/=; [done|].
  destruct (step flags a m) as [m1|] eqn:Hs; simplify_eq/=.
  rewrite (IH m1 He). by apply (step_identities flags a).
Qed.

Lemma tracked_step m0 a m m' :
  distinct_slots m0 →
  identities m = identities m0 →
  same_inputs (device m0) (device m) →
  queue_data (kernel_split_state (device m)) IN
  = queue_data (kernel_split_state (device m0)) IN →
  tracked flags m0 m → step flags a m = Some m' → tracked flags m0 m'.
Proof.
  intros Hnd Hid Hin Hq [He Hsl Hmk] Hs.
  destruct (step_cases _ _ _ Hs)
    as [(g & l & G & t & G' & pc & Hg & Hl & Hgs & Hts & Hr & Hr' & Hm & Hd)
       |(Hslot & g & G & G' & Hg & Hgs & Hts)].
  - (* a work-item runs *)
    set (i := fetch_ray_index (t_kg t) (t_wi t) (device m0)).
    assert (Hpend : pending (device m0) i t = true).
    { unfold pending, fetched_by. rewrite Hr.
      by rewrite bool_decide_eq_true_2. }
    assert (Hown : i ≠ QUEUE_EMPTY_SLOT →
              tally (pending (device m0) i) m
              = tally (fetched_by (device m0) i) m ∧
              same_slot i (device m0) (device m)).
    { intros Hne. destruct (Hsl i Hne) as [HA|[HB _]]; [done|].
      pose proof (tally_lookup _ _ _ _ _ _ Hg Hl Hpend). lia. }
    destruct (kernel_direct_lighting_tracks (t_kg t) (t_wi t)
                (device m0) (device m) Hin Hq)
      as (Hf & Hcall & Hres); [intros Hne; by destruct (Hown Hne)|].
    fold i in Hf.
    assert (Hoth : ∀ j, j ≠ i ∨ i = QUEUE_EMPTY_SLOT →
              same_slot j (device m) (device m')).
    { intros j Hj. rewrite Hd. apply kernel_keeps_slot. by rewrite Hf. }
    assert (Hcnt : ∀ (P : Thread → bool),
              P t = false → P (at_pc t pc) = false → tally P m' = tally P m).
    { intros P H1 H2.
      pose proof (tally_insert P m m' g l G G' t (at_pc t pc) Hg Hl Hgs Hts).
      rewrite H1, H2 in *. lia. }
    split.
    + apply (same_slot_trans _ _ (device m)); [done|]. apply Hoth.
      destruct (decide (i = QUEUE_EMPTY_SLOT)); auto.
    + intros j Hj. destruct (decide (j = i)) as [->|Hne].
      * destruct (Hown Hj) as [Htl Hsame]. right. split.
        -- pose proof (tally_insert (pending (device m0) i) m m' g l G G' t
                         (at_pc t pc) Hg Hl Hgs Hts) as Hins.
           rewrite Hpend in Hins.
           assert (Hnew : pending (device m0) i (at_pc t pc) = false).
           { unfold pending. rewrite Hr'. apply andb_false_r. }
           rewrite Hnew in Hins.
           pose proof (distinct_slots_tally m0 i Hnd Hj) as Hle.
           rewrite tally_identities in Hle. rewrite <- Hid in Hle.
           rewrite <- tally_identities in Hle. lia.
        -- exists (t_kg t, t_wi t). split_and!.
           ++ rewrite <- Hid. by eapply identities_lookup.
           ++ done.
           ++ unfold alone. simpl. rewrite Hd. by apply Hres.
      * assert (Hnf : ∀ t', t_kg t' = t_kg t → t_wi t' = t_wi t →
                        fetched_by (device m0) j t' = false).
        { intros t' Hkg Hwi. unfold fetched_by. rewrite Hkg, Hwi.
          apply bool_decide_eq_false_2. fold i. congruence. }
        assert (Hnp : ∀ t', t_kg t' = t_kg t → t_wi t' = t_wi t →
                        pending (device m0) j t' = false).
        { intros t' Hkg Hwi. unfold pending. by rewrite Hnf. }
        unfold slot_tracked.
        rewrite (Hcnt (pending (device m0) j)) by (by apply Hnp).
        rewrite (Hcnt (fetched_by (device m0) j)) by (by apply Hnf).
        destruct (Hsl j Hj) as [[Ht Hs0]|(Ht & p & Hp & Hpf & Hs0)].
        -- left. split; [done|].
           apply (same_slot_trans _ _ (device m)); auto.
        -- right. split; [done|]. exists p. split_and!; [done..|].
           apply (same_slot_trans _ _ (device m)); auto.
    + unfold marks_tracked in *. rewrite Hgs. apply Forall_insert; [done|].
      rewrite Hts. apply Forall_insert.
      { exact (Forall_lookup_1
                 (fun G => Forall (fun t => ran t = true →
                              marked t = marks_alone flags m0 (t_kg t, t_wi t))
                             (threads G)) _ _ _ Hmk Hg). }
      intros _. rewrite Hm. unfold marks_alone. simpl. by rewrite Hcall.
  - (* no work-item runs *)
    assert (Hcnt : ∀ (P : Thread → bool),
              (∀ t t', t_kg t' = t_kg t → t_wi t' = t_wi t →
                       ran t' = ran t → P t' = P t) →
              tally P m' = tally P m).
    { intros P HP. apply (tally_same P m m' g G G' Hg Hgs).
      eapply Forall2_impl; [exact Hts|].
      intros t t' (Hkg & Hwi & Hr & _). by apply HP. }
    assert (Hfb : ∀ j, tally (fetched_by (device m0) j) m'
                       = tally (fetched_by (device m0) j) m).
    { intros j. apply Hcnt. intros t t' Hkg Hwi _.
      unfold fetched_by. by rewrite Hkg, Hwi. }
    assert (Hpd : ∀ j, tally (pending (device m0) j) m'
                       = tally (pending (device m0) j) m).
    { intros j. apply Hcnt. intros t t' Hkg Hwi Hr.
      unfold pending, fetched_by. by rewrite Hkg, Hwi, Hr. }
    split.
    + by apply (same_slot_trans _ _ (device m)).
    + intros j Hj. unfold slot_tracked. rewrite Hfb, Hpd.
      destruct (Hsl j Hj) as [[Ht Hs0]|(Ht & p & Hp & Hpf & Hs0)].
      * left. split; [done|]. by apply (same_slot_trans _ _ (device m)).
      * right. split; [done|]. exists p. split_and!; [done..|].
        by apply (same_slot_trans _ _ (device m)).
    + unfold marks_tracked in *. rewrite Hgs. apply Forall_insert; [done|].
      pose proof (Forall_lookup_1
                    (fun G => Forall (fun t => ran t = true →
                                 marked t = marks_alone flags m0 (t_kg t, t_wi t))
                                (threads G)) _ _ _ Hmk Hg) as HG.
      simpl in HG. clear -HG Hts.
      induction Hts as [|t t' ts ts' (Hkg & Hwi & Hr & Hm) _ IH];
        [done|].
      apply Forall_cons in HG as [Ht HG]. apply Forall_cons. split; [|auto].
      rewrite Hkg, Hwi, Hr, Hm. exact Ht.
Qed.

Lemma initial_tracked m0 : initial m0 = true → tracked flags m0 m0.
Proof.
  intros Hi. unfold initial in Hi. apply Is_true_true_2, forallb_True in Hi.
  assert (Hnr : Forall (fun G => Forall (fun t => ran t = false) (threads G))
                       (groups m0)).
  { eapply Forall_impl; [exact Hi|]. intros G HG.
    apply andb_True in HG as [_ Ht]. apply forallb_True in Ht.
    eapply Forall_impl; [exact Ht|]. intros t Hpc. simpl in *.
    unfold ran. by destruct (t_pc t). }
  split.
  - done.
  - intros j _. left. split; [|done]. apply tally_ext.
    eapply Forall_impl; [exact Hnr|]. intros G HG.
    eapply Forall_impl; [exact HG|]. intros t Ht. simpl in *.
    unfold pending. rewrite Ht. apply andb_true_r.
  - unfold marks_tracked.
    eapply Forall_impl; [exact Hnr|]. intros G HG.
    eapply Forall_impl; [exact HG|]. intros t Ht. simpl in *. by rewrite Ht.
Qed.

Lemma exec_tracked m0 tr m :
  initial m0 = true → distinct_slots m0 →
  exec flags tr m0 = Some m → tracked flags m0 m.
Proof.
  intros Hi Hnd. revert m.
  induction tr as [|a tr IH] using rev_ind; intros m He.
  - simplify_eq/=. by apply initial_tracked.
  - rewrite exec_app in He.
    destruct (exec flags tr m0) as [m1|] eqn:He1; simplify_eq/=.
    destruct (step flags a m1) as [m2|] eqn:Hs; simplify_eq/=.
    apply (tracked_step m0 a m1 m); auto.
    + by apply (exec_identities tr).
    + by apply (exec_inputs tr).
    + destruct (exec_frame flags tr m0 m1 (initial_calls _ Hi) He1 IN) as [? _];
        done.
Qed.

Lemma completed_ran m :
  completed m = true →
  Forall (fun G => Forall (fun t => ran t = true) (threads G)) (groups m).
Proof.
  intros Hc. unfold completed in Hc. apply Is_true_true_2, forallb_True in Hc.
  eapply Forall_impl; [exact Hc|]. intros G HG.
  apply andb_True in HG as [_ Ht]. apply forallb_True in Ht.
  eapply Forall_impl; [exact Ht|]. intros t Hd. simpl in *.
  unfold done, ran in *. by destruct (t_pc t).
Qed.

Lemma completed_pending m d j :
  completed m = true → tally (pending d j) m = 0.
Proof.
  intros Hc%completed_ran. apply tally_zero.
  eapply Forall_impl; [exact Hc|]. intros G HG.
  eapply Forall_impl; [exact HG|]. intros t Ht. simpl in *.
  unfold pending. rewrite Ht. apply andb_false_r.
Qed.

(** When the round is over the marked slots are those the work-items mark
    when each runs alone on the memory the round started from. *)
Lemma marked_slots_alone m0 m :
  identities m = identities m0 → marks_tracked flags m0 m →
  completed m = true →
  marked_slots m
  = concat (fmap (M:=list)
              (fun ps : list (KernelGlobals * WorkItem) =>
                 omap (M:=list) (marks_alone flags m0) ps)
              (identities m0)).
Proof.
  intros Hid Hmk Hc%completed_ran. rewrite <- Hid.
  unfold marked_slots, identities, marks_tracked in *.
  revert Hmk Hc. generalize (groups m) as Gs.
  induction Gs as [|G Gs IH]; intros Hmk Hc; csimpl; [done|].
  apply Forall_cons in Hmk as [HG Hmk]. apply Forall_cons in Hc as [HrG Hc].
  rewrite (IH Hmk Hc). f_equal. clear -HG HrG.
  induction (threads G) as [|t ts IHt]; csimpl; [done|].
  apply Forall_cons in HG as [Ht HG]. apply Forall_cons in HrG as [Hr HrG].
  by rewrite (Ht Hr), (IHt HG HrG).
Qed.

(** X12.  The result of a round does not depend on the schedule.  When
    the input queue hands no slot to two work-items, any two schedules
    that complete the round from the same state leave the same ray state
    and scratch fields in every slot, the work-items have marked the
    same slots, the output queue has the same length, and the entries
    the two rounds appended to it are the same up to their order. *)
Theorem round_result_is_schedule_independent m0 tr1 tr2 m1 m2 :
  initial m0 = true → distinct_slots m0 →
  exec flags tr1 m0 = Some m1 → exec flags tr2 m0 = Some m2 →
  completed m1 = true → completed m2 = true →
  (∀ j, same_slot j (device m1) (device m2)) ∧
  marked_slots m1 = marked_slots m2 ∧
  (well_formed m0 = true →
   count_of (device m1) OUT = count_of (device m2) OUT ∧
   queue_cells (device m1) OUT (count_of (device m0) OUT)
     (length (marked_slots m1))
   ≡ₚ queue_cells (device m2) OUT (count_of (device m0) OUT)
        (length (marked_slots m2))).
Proof.
  intros Hi Hnd He1 He2 Hc1 Hc2.
  destruct (exec_tracked m0 tr1 m1 Hi Hnd He1) as [E1 S1 M1].
  destruct (exec_tracked m0 tr2 m2 Hi Hnd He2) as [E2 S2 M2].
  pose proof (exec_identities _ _ _ He1) as Hid1.
  pose proof (exec_identities _ _ _ He2) as Hid2.
  assert (Hmarked : marked_slots m1 = marked_slots m2).
  { by rewrite (marked_slots_alone m0 m1), (marked_slots_alone m0 m2). }
  assert (Htot : ∀ m j, identities m = identities m0 →
            tally (fetched_by (device m0) j) m
            = tally (fetched_by (device m0) j) m0).
  { intros m j Hid. by rewrite !tally_identities, Hid. }
  assert (Hno : ∀ m j p,
            identities m = identities m0 →
            tally (fetched_by (device m0) j) m = 0 →
            p ∈ concat (identities m0) →
            fetch_ray_index p.1 p.2 (device m0) = j → False).
  { intros m j p Hid Hz Hp Hpf. rewrite (Htot m j Hid) in Hz.
    pose proof (fetched_elem m0 p Hp) as Hpos. rewrite Hpf in Hpos. lia. }
  split_and!; [|done|].
  - intros j. destruct (decide (j = QUEUE_EMPTY_SLOT)) as [->|Hj];
      [by apply (same_slot_join _ (device m0))|].
    destruct (S1 j Hj) as [[T1 A1]|(_ & p1 & Hp1 & Hf1 & B1)],
             (S2 j Hj) as [[T2 A2]|(_ & p2 & Hp2 & Hf2 & B2)].
    + by apply (same_slot_join _ (device m0)).
    + rewrite (completed_pending _ _ _ Hc1) in T1.
      by destruct (Hno m1 j p2 Hid1 (eq_sym T1) Hp2 Hf2).
    + rewrite (completed_pending _ _ _ Hc2) in T2.
      by destruct (Hno m2 j p1 Hid2 (eq_sym T2) Hp1 Hf1).
    + assert (p1 = p2) as <-.
      { apply (distinct_slots_unique m0); try done; congruence. }
      by apply (same_slot_join _ (alone flags m0 p1)).
  - intros Hw.
    pose proof (exec_inv flags _ _ _ _ (initial_inv _ Hi Hw) He1) as I1.
    pose proof (exec_inv flags _ _ _ _ (initial_inv _ Hi Hw) He2) as I2.
    destruct (completed_cells _ _ I1 Hc1) as [C1 P1].
    destruct (completed_cells _ _ I2 Hc2) as [C2 P2].
    split; [rewrite C1, C2; by rewrite Hmarked|].
    rewrite P1, P2. by rewrite Hmarked.
Qed.

End ScheduleIndependence.

(** * The two builds and the work-item that reserves *)

Section Representative.

Context `{X : Collaborators}.
Variable flags : BuildFlags.

Implicit Types (rep : list Thread → option EnqueueCall).

Local Abbreviation OUT := QUEUE_SHADOW_RAY_CAST_DL_RAYS.
Local Abbreviation IN := QUEUE_ACTIVE_AND_REGENERATED_RAYS.

(** The reservation looks at the call of the representative for its queue
    only, and every call is for the output queue. *)
Lemma enqueue_reserve_by_eq rep d G :
  picks_inside rep (threads G) →
  Forall (fun t => call_to_out (t_pc t)) (threads G) →
  enqueue_reserve_by rep d G = enqueue_reserve d G.
Proof.
  intros Hp Hc. unfold picks_inside in Hp.
  unfold enqueue_reserve_by, enqueue_reserve.
  assert (Hq : ∀ t c o, t ∈ threads G → t_pc t = Enqueuing c o →
                        call_queue_number c = OUT).
  { intros t c o Ht Hpc. rewrite Forall_forall in Hc.
    specialize (Hc t Ht). by rewrite Hpc in Hc. }
  destruct (rep (threads G)) as [c|],
           (representative (threads G)) as [c'|] eqn:Hr.
  - destruct Hp as (t & o & Ht & Hpc).
    apply representative_Some in Hr as (t' & o' & Ht' & Hpc').
    by rewrite (Hq t c o), (Hq t' c' o').
  - destruct Hp as (t & o & Ht & Hpc).
    by destruct (representative_None _ t c o Hr Ht).
  - apply representative_Some in Hr as (t' & o' & Ht' & Hpc').
    by destruct (Hp t' c' o' Ht').
  - done.
Qed.

Lemma step_by_eq rep a m :
  calls_to_out m →
  (∀ g G, groups m !! g = Some G → phase G = PhReserve →
          picks_inside rep (threads G)) →
  step_by flags rep a m = step flags a m.
Proof.
  intros Hc Hp. destruct a as [g l|g|g l|g|g|g|g l]; try reflexivity.
  simpl. destruct (groups m !! g) as [G|] eqn:Hg; [|done]. simpl.
  destruct (phase G) eqn:Hph; try done.
  rewrite enqueue_reserve_by_eq; [done|by eapply Hp|].
  exact (Forall_lookup_1 (fun G => Forall (fun t => call_to_out (t_pc t))
                                          (threads G)) _ _ _ Hc Hg).
Qed.

(** Where the representative is inside the primitive in every state of an
    invariant, the two machines run alike. *)
Lemma exec_by_eq rep (Inv : Machine → Prop) tr m :
  (∀ m, Inv m → calls_to_out m ∧
        ∀ g G, groups m !! g = Some G → phase G = PhReserve →
               picks_inside rep (threads G)) →
  (∀ a m m', Inv m → step flags a m = Some m' → Inv m') →
  Inv m → exec_by flags rep tr m = exec flags tr m.
Proof.
  intros Huse Hstep. revert m.
  induction tr as [|a tr IH]; intros m Hm; simpl; [done|].
  destruct (Huse m Hm) as [Hc Hp]. rewrite (step_by_eq rep a m Hc Hp).
  destruct (step flags a m) as [m1|] eqn:Hs; simpl; [|done].
  apply IH. by eapply Hstep.
Qed.

Lemma exec_by_inside rep tr m :
  reserves_inside rep → initial m = true →
  exec_by flags rep tr m = exec flags tr m.
Proof.
  intros Hrep Hi. apply (exec_by_eq rep calls_to_out).
  - intros m' Hc. split; [done|]. intros g G _ _. apply Hrep.
  - intros a m1 m2 Hc Hs. by destruct (step_frame flags _ _ _ Hc Hs).
  - by apply initial_calls.
Qed.

(** ** The work-item (0, 0) as the representative *)

Lemma origin_call_Some (ts : list Thread) c :
  origin_call ts = Some c →
  ∃ t o, t ∈ ts ∧ is_origin (t_wi t) = true ∧ t_pc t = Enqueuing c o.
Proof.
  unfold origin_call. intros Hh%head_Some_elem_of.
  apply list_elem_of_omap in Hh as (t & Ht & Hc).
  exists t. destruct (is_origin (t_wi t)); [|done].
  destruct (t_pc t) as [| | |c' o|]; simplify_eq. eauto.
Qed.

Lemma origin_call_None (ts : list Thread) t c o :
  origin_call ts = None → t ∈ ts → is_origin (t_wi t) = true →
  t_pc t ≠ Enqueuing c o.
Proof.
  unfold origin_call. intros Hh Ht Ho Hpc.
  destruct (omap _ ts) as [|x l] eqn:Hom; [|done].
  assert (c ∈ omap (fun t => if is_origin (t_wi t)
                             then match t_pc t with
                                  | Enqueuing c _ => Some c
                                  | _ => None
                                  end
                             else None) ts) as Hin.
  { apply list_elem_of_omap. exists t. by rewrite Ho, Hpc. }
  rewrite Hom in Hin. by apply elem_of_nil in Hin.
Qed.

Lemma origins_fetch_ok m : origins_fetch m = true → origin_ok m.
Proof.
  intros Hf. unfold origins_fetch in Hf.
  apply Is_true_true_2, forallb_True in Hf.
  eapply Forall_impl; [exact Hf|]. intros G HG. simpl in HG.
  apply forallb_True in HG.
  eapply Forall_impl; [exact HG|]. intros t Ht Ho He. simpl in Ht.
  rewrite Ho, He, Z.eqb_refl in Ht. done.
Qed.

(** A work-item makes no call only where the call is compiled out or it
    fetched the empty slot. *)
Lemma kernel_no_call kg wi d :
  (kernel_direct_lighting flags kg wi d).2 = None →
  __EMISSION__ flags = false ∨ fetch_ray_index kg wi d = QUEUE_EMPTY_SLOT.
Proof.
  unfold kernel_direct_lighting.
  destruct (Z.eqb_spec (fetch_ray_index kg wi d) QUEUE_EMPTY_SLOT) as [He|Hne];
    [by right|].
  rewrite andb_false_r. simpl.
  destruct (__COMPUTE_DEVICE_GPU__ flags); simpl;
    destruct (direct_lighting _ _ _ _ _ _);
    destruct (__EMISSION__ flags); simpl; auto; done.
Qed.

(** What a transition does to the work-items: it changes one group, its
    work-items stay who they are, and one that has returned after it had
    returned before or has just run the kernel, which made no call. *)
Lemma step_returned a m m' :
  step flags a m = Some m' →
  ∃ g G G',
    groups m !! g = Some G ∧ groups m' = <[g:=G']> (groups m) ∧
    Forall2 (fun t t' =>
       t_kg t' = t_kg t ∧ t_wi t' = t_wi t ∧
       (t_pc t' = Returned →
        t_pc t = Returned ∨
        (kernel_direct_lighting flags (t_kg t) (t_wi t) (device m)).2 = None))
      (threads G) (threads G').
Proof.
  intros Hs.
  set (P := fun t t' : Thread =>
        t_kg t' = t_kg t ∧ t_wi t' = t_wi t ∧
        (t_pc t' = Returned →
         t_pc t = Returned ∨
         (kernel_direct_lighting flags (t_kg t) (t_wi t) (device m)).2 = None)).
  assert (Hrefl : ∀ t, P t t) by (intros t; split_and!; auto).
  assert (Hsame : ∀ (ts : list Thread), Forall2 P ts ts).
  { intros ts. apply Forall2_same_length_lookup_2; [done|].
    intros i x y ? ?. simplify_eq. apply Hrefl. }
  assert (Hpc : ∀ t pc, pc ≠ Returned → P t (at_pc t pc)).
  { intros t pc Hne. split_and!; auto. simpl. by intros ?. }
  destruct a as [g l|g|g l|g|g|g|g l]; simpl in Hs;
    destruct (groups m !! g) as [G|] eqn:Hg; simplify_eq/=.
  - destruct (threads G !! l) as [t|] eqn:Hl; simplify_eq/=.
    destruct (phase G), (t_pc t) eqn:Hpct; simplify_eq/=.
    eexists g, G, _. split_and!; [done..|]. simpl.
    eapply Forall2_insert_same; [done..|]. by apply Hpc.
  - destruct (phase G); simplify_eq/=.
    destruct (forallb waiting (threads G)); simplify_eq/=.
    eexists g, G, _. split_and!; [done..|]. apply Hsame.
  - destruct (threads G !! l) as [t|] eqn:Hl; simplify_eq/=.
    destruct (phase G), (t_pc t) eqn:Hpct; simplify_eq/=.
    destruct (kernel_direct_lighting flags (t_kg t) (t_wi t) (device m))
      as [d' call] eqn:Hk. simplify_eq/=.
    eexists g, G, _. split_and!; [done..|].
    unfold enqueue_local.
    destruct call as [c|]; [destruct (c_bool (call_enqueue_flag c))|];
      simpl; (eapply Forall2_insert_same; [done..|]);
      try (by apply Hpc).
    split_and!; auto. intros _. right. by rewrite Hk.
  - destruct (phase G); simplify_eq/=.
    destruct (forallb past_local (threads G)); simplify_eq/=.
    eexists g, G, _. split_and!; [done..|]. apply Hsame.
  - destruct (phase G); simplify_eq/=.
    unfold enqueue_reserve in Hs.
    destruct (representative (threads G)); simplify_eq/=;
      (eexists g, G, _; split_and!; [done..|]; apply Hsame).
  - destruct (phase G); simplify_eq/=.
    eexists g, G, _. split_and!; [done..|]. simpl.
    apply Forall2_fmap_same. intros t. subst P. simpl.
    destruct t as [kg wi [| | |c [o|]|c [o|]]]; simpl; split_and!; auto; done.
  - destruct (threads G !! l) as [t|] eqn:Hl; simplify_eq/=.
    destruct (phase G), (t_pc t) as [| | |c [o|]|] eqn:Hpct; simplify_eq/=.
    unfold enqueue_copy in Hs. case_decide; simplify_eq/=.
    eexists g, G, _. split_and!; [done..|]. simpl.
    eapply Forall2_insert_same; [done..|]. by apply Hpc.
Qed.

Lemma step_fetch a m m' kg wi :
  calls_to_out m → step flags a m = Some m' →
  fetch_ray_index kg wi (device m') = fetch_ray_index kg wi (device m).
Proof.
  intros Hc Hs. apply fetch_ray_index_input.
  - destruct (step_frame flags _ _ _ Hc Hs) as [_ Hq].
    by destruct (Hq IN) as [? _].
  - by apply (step_queue_size flags a).
Qed.

Lemma step_origin_ok a m m' :
  calls_to_out m → origin_ok m → step flags a m = Some m' → origin_ok m'.
Proof.
  intros Hc Hok Hs. unfold origin_ok in *.
  pose proof Hs as (g & G & G' & Hg & Hgs & Hts)%step_returned.
  assert (Hmove : ∀ ts : list Thread,
            Forall (fun t => is_origin (t_wi t) = true →
                      fetch_ray_index (t_kg t) (t_wi t) (device m)
                      ≠ QUEUE_EMPTY_SLOT) ts →
            Forall (fun t => is_origin (t_wi t) = true →
                      fetch_ray_index (t_kg t) (t_wi t) (device m')
                      ≠ QUEUE_EMPTY_SLOT) ts).
  { intros ts Hall. eapply Forall_impl; [exact Hall|]. intros t Ht Ho. simpl in *.
    rewrite (step_fetch a m m' _ _ Hc Hs). auto. }
  rewrite Hgs. apply Forall_insert.
  - eapply Forall_impl; [exact Hok|]. intros G0 HG0. by apply Hmove.
  - pose proof (Forall_lookup_1
                  (fun G => Forall (fun t => is_origin (t_wi t) = true →
                               fetch_ray_index (t_kg t) (t_wi t) (device m)
                               ≠ QUEUE_EMPTY_SLOT) (threads G))
                  _ _ _ Hok Hg) as HG.
    simpl in HG. clear -HG Hts Hc Hs.
    induction Hts as [|t t' ts ts' (Hkg & Hwi & _) _ IH]; [done|].
    apply Forall_cons in HG as [Ht HG]. apply Forall_cons. split; [|auto].
    rewrite Hkg, Hwi, (step_fetch a m m' _ _ Hc Hs). exact Ht.
Qed.

Lemma step_origin_stays a m m' :
  origin_ok m → origin_stays flags m → step flags a m = Some m' →
  origin_stays flags m'.
Proof.
  intros Hok Hst Hs. unfold origin_stays, origin_ok in *.
  pose proof Hs as (g & G & G' & Hg & Hgs & Hts)%step_returned.
  rewrite Hgs. apply Forall_insert; [done|].
  pose proof (Forall_lookup_1
                (fun G => Forall (fun t => is_origin (t_wi t) = true →
                             fetch_ray_index (t_kg t) (t_wi t) (device m)
                             ≠ QUEUE_EMPTY_SLOT) (threads G))
                _ _ _ Hok Hg) as HGok.
  pose proof (Forall_lookup_1
                (fun G => Forall (fun t => t_pc t = Returned →
                             __EMISSION__ flags = false
                             ∨ is_origin (t_wi t) = false) (threads G))
                _ _ _ Hst Hg) as HGst.
  simpl in HGok, HGst. clear -HGok HGst Hts.
  induction Hts as [|t t' ts ts' (Hkg & Hwi & Hret) _ IH]; [done|].
  apply Forall_cons in HGok as [Hto HGok].
  apply Forall_cons in HGst as [Hts' HGst].
  apply Forall_cons. split; [|auto].
  intros Hpc. rewrite Hwi.
  destruct (Hret Hpc) as [Hold|Hnone]; [auto|].
  destruct (kernel_no_call _ _ _ Hnone) as [Hem|He]; [by left|].
  right. destruct (is_origin (t_wi t)); [|done]. by destruct (Hto eq_refl).
Qed.

(** In a group about to reserve, the work-item (0, 0) is inside the
    primitive if any work-item is. *)
Lemma origin_picks_inside d G :
  group_inv d G → phase G = PhReserve →
  Forall (fun t => t_pc t = Returned →
                   __EMISSION__ flags = false ∨ is_origin (t_wi t) = false)
         (threads G) →
  (__EMISSION__ flags = false → Forall no_call (threads G)) →
  picks_inside origin_call (threads G).
Proof.
  intros HG Hph Hst Hno. unfold picks_inside.
  destruct (origin_call (threads G)) as [c|] eqn:Hoc.
  - apply origin_call_Some in Hoc as (t & o & Ht & _ & Hpc). eauto.
  - intros t c o Ht Hpc.
    pose proof (gi_origin _ _ HG) as Hor. unfold has_origin in Hor.
    apply existsb_exists in Hor as (t0 & Ht0 & Ho0).
    apply list_elem_of_In in Ht0.
    pose proof (proj1 (Forall_forall _ _) (gi_pc _ _ HG) t0 Ht0) as [Hok _].
    simpl in Hok. rewrite Hph in Hok.
    destruct (t_pc t0) as [| | |c0 o0|] eqn:Hpc0; try done.
    + destruct (proj1 (Forall_forall _ _) Hst t0 Ht0 Hpc0) as [Hem|Hno0];
        [|simpl in Hno0; congruence].
      pose proof (proj1 (Forall_forall _ _) (Hno Hem) t Ht) as Hnc.
      simpl in Hnc. unfold no_call in Hnc. by rewrite Hpc in Hnc.
    + by destruct (origin_call_None _ t0 c0 o0 Hoc Ht0 Ho0).
Qed.

Lemma exec_by_origin tr m :
  initial m = true → well_formed m = true → origins_fetch m = true →
  exec_by flags origin_call tr m = exec flags tr m.
Proof.
  intros Hi Hw Hf.
  set (Inv := fun m' : Machine =>
         machine_inv (count_of (device m) OUT) m' ∧ calls_to_out m' ∧
         origin_ok m' ∧ origin_stays flags m' ∧
         (__EMISSION__ flags = false →
          Forall (fun G => Forall no_call (threads G)) (groups m'))).
  assert (Hinit : Forall (fun G => Forall (fun t => t_pc t = AtEntry) (threads G))
                         (groups m)).
  { unfold initial in Hi. apply Is_true_true_2, forallb_True in Hi.
    eapply Forall_impl; [exact Hi|]. intros G HG.
    apply andb_True in HG as [_ Ht]. apply forallb_True in Ht.
    eapply Forall_impl; [exact Ht|]. intros t Hpc. simpl in *.
    by destruct (t_pc t). }
  apply (exec_by_eq origin_call Inv).
  - intros m' (Hm & Hc & Hok & Hst & Hno). split; [done|].
    intros g G Hg Hph.
    apply (origin_picks_inside (device m')); [|done|..].
    + exact (Forall_lookup_1 _ _ _ _ (mi_groups _ _ Hm) Hg).
    + exact (Forall_lookup_1
               (fun G => Forall (fun t => t_pc t = Returned →
                            __EMISSION__ flags = false
                            ∨ is_origin (t_wi t) = false) (threads G))
               _ _ _ Hst Hg).
    + intros Hem.
      exact (Forall_lookup_1 (fun G => Forall no_call (threads G))
               _ _ _ (Hno Hem) Hg).
  - intros a m1 m2 (Hm & Hc & Hok & Hst & Hno) Hs. split_and!.
    + by eapply step_inv.
    + by destruct (step_frame flags _ _ _ Hc Hs).
    + by eapply step_origin_ok.
    + by eapply step_origin_stays.
    + intros Hem.
      by destruct (step_without_emission flags _ _ _ Hem (Hno Hem) Hs).
  - split_and!.
    + by apply initial_inv.
    + by apply initial_calls.
    + by apply origins_fetch_ok.
    + eapply Forall_impl; [exact Hinit|]. intros G HG.
      eapply Forall_impl; [exact HG|]. intros t Ht Hr. simpl in *. congruence.
    + intros _. eapply Forall_impl; [exact Hinit|]. intros G HG.
      eapply Forall_impl; [exact HG|]. intros t Ht. simpl in *.
      unfold no_call. by rewrite Ht.
Qed.

End Representative.

Section BuildsAgree.

Context `{X : Collaborators}.
Variables emission object_motion : bool.

Local Abbreviation gpu := (gpu_build emission object_motion).
Local Abbreviation cpu := (cpu_build emission object_motion).


End BuildsAgree.

(** * The properties on the concrete instance *)

Section Instance.

Import Demo.
#[local] Existing Instance demo.

Local Abbreviation OUT := QUEUE_SHADOW_RAY_CAST_DL_RAYS.

(** The work-item with global id 0 fetches slot 3, finds a light and has
    its sample accepted. *)
Lemma accepted_slot_is_stored_and_marked_witness :
  ∃ d' c,
    kernel_direct_lighting cpu 1%Z (item 0 0) dev = (d', Some c) ∧
    light_ray (kernel_split_state d') 3%Z = 103%Z ∧
    bsdf_eval (kernel_split_state d') 3%Z = 203%Z ∧
    is_lamp (kernel_split_state d') 3%Z = false ∧
    ray_state (kernel_split_state d') 3%Z = 32%Z ∧
    call_enqueue_flag c = 1%Z ∧
    call_marks (Some c) = Some (OUT, 3%Z).
Proof.
  assert (Hne : fetch_ray_index 1%Z (item 0 0) dev ≠ QUEUE_EMPTY_SLOT)
    by (vm_compute; lia).
  apply (proj1 (accepted_slot_is_stored_and_marked (X:=demo) cpu 1%Z
                  (item 0 0) dev Hne)
               3%Z 3%Z 103%Z 203%Z false); reflexivity.
Defined.

(** Slot 7 is ACTIVE, but the work-item that fetches it sees no evaluable
    BSDF. *)
Lemma rejected_slot_untouched_witness :
  let r := kernel_direct_lighting cpu 1%Z (item 1 1) dev in
  r.1 = dev ∧
  ray_state (kernel_split_state r.1) = ray_state (kernel_split_state dev) ∧
  light_ray (kernel_split_state r.1) = light_ray (kernel_split_state dev) ∧
  bsdf_eval (kernel_split_state r.1) = bsdf_eval (kernel_split_state dev) ∧
  is_lamp (kernel_split_state r.1) = is_lamp (kernel_split_state dev) ∧
  call_marks r.2 = None.
Proof.
  apply (rejected_slot_untouched (X:=demo) cpu 1%Z (item 1 1) dev).
  right. left. reflexivity.
Defined.



(** Slot 6 carries the flag 8 before RAY_SHADOW_RAY_CAST_DL is added. *)
Lemma add_ray_flag_keeps_flags_witness :
  Z.testbit (ADD_RAY_FLAG (ray_state (kernel_split_state dev)) 6 32 6) 3 = true ∧
  ADD_RAY_FLAG (ray_state (kernel_split_state dev)) 6 32 6 = Z.lor 8 32 ∧
  (Z.testbit (ray_state (kernel_split_state dev) 6) 3 = true →
   Z.testbit
     (ray_state (kernel_split_state (store_shadow_ray dev 6 (0, 0, true)%Z)) 6) 3
   = true).
Proof.
  apply (add_ray_flag_keeps_flags (X:=demo) (ray_state (kernel_split_state dev)) dev
           6%Z 32%Z (0, 0, true)%Z 3%Z).
  reflexivity.
Defined.

(** The work-item with global id 5 finds its queue cell empty. *)
Lemma empty_slot_work_item_is_inert_witness :
  kernel_direct_lighting cpu 1%Z (item 5 2) dev
  = (dev, Some {| call_ray_index := (-1)%Z; call_queue_number := OUT;
                  call_enqueue_flag := 0; call_queuesize := 6 |}) ∧
  kernel_direct_lighting gpu 1%Z (item 5 2) dev = (dev, None).
Proof.
  split.
  - apply (empty_slot_work_item_is_inert (X:=demo) cpu 1%Z (item 5 2) dev). reflexivity.
  - apply (empty_slot_work_item_is_inert (X:=demo) gpu 1%Z (item 5 2) dev). reflexivity.
Defined.

(** With [use_direct_light] zero, slot 3 is not sampled. *)
Lemma no_direct_light_no_work_witness :
  let r := kernel_direct_lighting cpu 0%Z (item 0 0) dev in
  r.1 = dev ∧ call_marks r.2 = None ∧
  ∀ i e, direct_lighting cpu 0%Z (item 0 0) dev i e = (dev, e).
Proof.
  apply (no_direct_light_no_work (X:=demo) cpu 0%Z (item 0 0) dev). reflexivity.
Defined.

(** Slot 7 again: skipped, because its BSDF cannot be evaluated. *)
Lemma skipped_unless_active_and_evaluable_witness :
  let r := kernel_direct_lighting cpu 1%Z (item 1 1) dev in
  r.1 = dev ∧ call_marks r.2 = None.
Proof.
  apply (skipped_unless_active_and_evaluable (X:=demo) cpu 1%Z (item 1 1) dev).
  right. reflexivity.
Defined.

(** The round of the schedule: the second group reserves cell 0 for slot 2,
    the first group cells 1 and 2 for slots 4 and 3. *)
Example schedule_runs :
  exec cpu schedule grid = Some (outcome cpu) ∧
  completed (outcome cpu) = true ∧
  marked_slots (outcome cpu) = [3; 4; 2]%Z ∧
  count_of (device (outcome cpu)) OUT = 3 ∧
  queue_cells (device (outcome cpu)) OUT 0 3 = [2; 4; 3]%Z.
Proof. vm_compute. auto. Qed.


Lemma input_queue_is_read_only_witness :
  initial grid = true ∧
  exec cpu schedule grid = Some (outcome cpu) ∧
  (queue_data (kernel_split_state (device (outcome cpu)))
     QUEUE_ACTIVE_AND_REGENERATED_RAYS
   = queue_data (kernel_split_state (device grid))
       QUEUE_ACTIVE_AND_REGENERATED_RAYS ∧
   count_of (device (outcome cpu)) QUEUE_ACTIVE_AND_REGENERATED_RAYS
   = count_of (device grid) QUEUE_ACTIVE_AND_REGENERATED_RAYS) ∧
  same_other_queues (device grid) (device (outcome cpu)).
Proof.
  assert (Hi : initial grid = true) by reflexivity.
  assert (He : exec cpu schedule grid = Some (outcome cpu))
    by (vm_compute; reflexivity).
  split; [assumption|]. split; [assumption|].
  exact (input_queue_is_read_only (X:=demo) cpu grid schedule (outcome cpu) Hi He).
Defined.



(** The scenario of the specification: the queue [3, 7, 9] with slot 3
    accepted, slot 7 not evaluable and no light found for slot 9 gives the
    output queue [3]; slots 7 and 9 are as they were, slot 3 has the flag
    and its scratch fields. *)
Example scenario_3_7_9 :
  let d0 := memory (fun _ => 0%Z) in
  let m0 :=
    {| device :=
         set_split_state d0
           (set_queue_data (kernel_split_state d0)
              (updq (queue_data (kernel_split_state d0))
                 QUEUE_ACTIVE_AND_REGENERATED_RAYS
                 (fun i => match i with
                           | 0 => 3%Z | 1 => 7%Z | 2 => 9%Z | _ => (-1)%Z
                           end)));
       groups := [ {| threads := [thread 0 0; thread 1 1; thread 2 2];
                      local_queue_atomics := 9; staging := fun _ => 0%Z;
                      reserved := 0; phase := PhEntry |} ] |} in
  let tr := [ Enter 0 2; Enter 0 1; Enter 0 0; Barrier0 0;
              Run 0 1; Run 0 2; Run 0 0; Barrier1 0; Reserve 0; Barrier2 0;
              Copy 0 0 ] in
  ∃ m, exec cpu tr m0 = Some m ∧
       completed m = true ∧
       count_of (device m) OUT = 1 ∧
       queue_cells (device m) OUT 0 1 = [3%Z] ∧
       (ray_state (kernel_split_state (device m)) <$> [3; 7; 9]%Z) = [32; 0; 0]%Z ∧
       (light_ray (kernel_split_state (device m)) <$> [3; 7; 9]%Z) = [103; 0; 0]%Z ∧
       (bsdf_eval (kernel_split_state (device m)) <$> [3; 7; 9]%Z) = [203; 0; 0]%Z.
Proof. vm_compute. eexists. split; [reflexivity|]. vm_compute. auto 10. Qed.

(** ** The further properties *)

(** The work-item with global id 0 writes slot 3 and nothing else. *)
Lemma work_item_writes_only_its_slot_witness :
  let d' := (kernel_direct_lighting cpu 1%Z (item 0 0) dev).1 in
  queue_data (kernel_split_state d') = queue_data (kernel_split_state dev) ∧
  kernel_split_params d' = kernel_split_params dev ∧
  ∀ j, j ≠ fetch_ray_index 1%Z (item 0 0) dev → same_slot j dev d'.
Proof.
  exact (work_item_writes_only_its_slot (X:=demo) cpu 1%Z (item 0 0) dev).
Defined.

(** The work-items with global ids 0 and 2 fetch slots 3 and 4. *)
Lemma work_items_on_distinct_slots_commute_witness :
  let dA := (kernel_direct_lighting cpu 1%Z (item 0 0) dev).1 in
  let dB := (kernel_direct_lighting cpu 1%Z (item 2 2) dev).1 in
  (kernel_direct_lighting cpu 1%Z (item 2 2) dA).1
  = (kernel_direct_lighting cpu 1%Z (item 0 0) dB).1 ∧
  (kernel_direct_lighting cpu 1%Z (item 2 2) dA).2
  = (kernel_direct_lighting cpu 1%Z (item 2 2) dev).2 ∧
  (kernel_direct_lighting cpu 1%Z (item 0 0) dB).2
  = (kernel_direct_lighting cpu 1%Z (item 0 0) dev).2.
Proof.
  assert (Hne : fetch_ray_index 1%Z (item 0 0) dev
                ≠ fetch_ray_index 1%Z (item 2 2) dev)
    by (vm_compute; lia).
  exact (work_items_on_distinct_slots_commute (X:=demo) cpu
           1%Z (item 0 0) 1%Z (item 2 2) dev Hne).
Defined.

(** The call of the work-item with global id 0. *)
Lemma call_is_for_the_shadow_queue_witness :
  let c := {| call_ray_index := 3%Z; call_queue_number := OUT;
              call_enqueue_flag := 1%Z; call_queuesize := 6 |} in
  (kernel_direct_lighting cpu 1%Z (item 0 0) dev).2 = Some c ∧
  call_queue_number c = OUT ∧
  call_ray_index c = fetch_ray_index 1%Z (item 0 0) dev ∧
  call_queuesize c = queue_size (kernel_split_params dev) ∧
  (call_enqueue_flag c = 0%Z ∨
   call_enqueue_flag c = 1%Z ∧ call_ray_index c ≠ QUEUE_EMPTY_SLOT).
Proof.
  intros c.
  assert (Hc : (kernel_direct_lighting cpu 1%Z (item 0 0) dev).2 = Some c)
    by reflexivity.
  split; [exact Hc|].
  exact (call_is_for_the_shadow_queue (X:=demo) cpu 1%Z (item 0 0) dev c Hc).
Defined.

(** The work-item with global id 5 fetches the empty slot: it makes the
    call in the CPU build and not in the GPU build. *)
Lemma call_is_made_uniformly_witness :
  is_Some (kernel_direct_lighting cpu 1%Z (item 5 2) dev).2 ∧
  ¬ is_Some (kernel_direct_lighting gpu 1%Z (item 5 2) dev).2.
Proof.
  split.
  - apply (proj2 (call_is_made_uniformly (X:=demo) cpu 1%Z (item 5 2) dev)).
    split; [reflexivity|]. intros Hg. vm_compute in Hg. discriminate Hg.
  - intros Hs.
    apply (proj1 (call_is_made_uniformly (X:=demo) gpu 1%Z (item 5 2) dev))
      in Hs as [_ Hs].
    by apply (Hs eq_refl).
Defined.

(** The work-items with global ids (0, 0) and (2, 0) of the grid. *)
Lemma linear_index_injective_witness :
  linear_index (item 0 0) ≠ linear_index (item 2 2).
Proof.
  apply (linear_index_injective (item 0 0) (item 2 2)).
  - reflexivity.
  - repeat split; vm_compute; first [reflexivity | discriminate].
  - repeat split; vm_compute; first [reflexivity | discriminate].
  - discriminate.
Defined.

(** On a grid 65536 wide the work-items (0, 0) and (0, 65536) have the same
    linear index: the index of the second does not fit the [int]. *)
Example linear_index_wraps :
  let wi y := {| local_id := (0, 0)%Z; global_id := (0, y)%Z;
                 global_size := (65536, 65537)%Z |} in
  linear_index (wi 65536%Z) = linear_index (wi 0%Z).
Proof. reflexivity. Qed.

(** A round of the first group in a build without [__EMISSION__]. *)
Lemma round_without_emission_is_idle_witness :
  let plain := {| __COMPUTE_DEVICE_GPU__ := false; __EMISSION__ := false;
                  __OBJECT_MOTION__ := true |} in
  let tr := [ Enter 0 0; Enter 0 1; Enter 0 2; Barrier0 0;
              Run 0 0; Run 0 1; Run 0 2; Barrier1 0; Reserve 0; Barrier2 0 ] in
  let m := default grid (exec plain tr grid) in
  exec plain tr grid = Some m ∧
  device m = device grid ∧ marked_slots m = [].
Proof.
  intros plain tr m.
  assert (He : exec plain tr grid = Some m) by (vm_compute; reflexivity).
  split; [exact He|].
  exact (round_without_emission_is_idle (X:=demo) plain grid tr m
           eq_refl eq_refl He).
Defined.

(** Slot 6 keeps its flag 8 through the round of the schedule. *)
Lemma round_only_adds_flags_witness :
  exec cpu schedule grid = Some (outcome cpu) ∧
  Z.testbit (ray_state (kernel_split_state (device grid)) 6) 3 = true ∧
  Z.testbit (ray_state (kernel_split_state (device (outcome cpu))) 6) 3 = true.
Proof.
  assert (He : exec cpu schedule grid = Some (outcome cpu))
    by (vm_compute; reflexivity).
  assert (Hb : Z.testbit (ray_state (kernel_split_state (device grid)) 6) 3
               = true) by reflexivity.
  split; [exact He|]. split; [exact Hb|].
  exact (round_only_adds_flags (X:=demo) cpu grid schedule (outcome cpu)
           6%Z 3%Z He Hb).
Defined.

(** No work-item of the grid fetches slot 6. *)
Lemma round_leaves_unfetched_slots_witness :
  exec cpu schedule grid = Some (outcome cpu) ∧
  ray_state (kernel_split_state (device (outcome cpu))) 6
  = ray_state (kernel_split_state (device grid)) 6 ∧
  light_ray (kernel_split_state (device (outcome cpu))) 6
  = light_ray (kernel_split_state (device grid)) 6 ∧
  bsdf_eval (kernel_split_state (device (outcome cpu))) 6
  = bsdf_eval (kernel_split_state (device grid)) 6 ∧
  is_lamp (kernel_split_state (device (outcome cpu))) 6
  = is_lamp (kernel_split_state (device grid)) 6.
Proof.
  assert (He : exec cpu schedule grid = Some (outcome cpu))
    by (vm_compute; reflexivity).
  assert (Hj : Forall (Forall (fun p => fetch_ray_index p.1 p.2 (device grid)
                                        ≠ 6%Z))
                      (identities grid)).
  { refine (bool_decide_eq_true_1 _ _). vm_compute. reflexivity. }
  split; [exact He|].
  exact (round_leaves_unfetched_slots (X:=demo) cpu grid schedule (outcome cpu)
           6%Z eq_refl He Hj).
Defined.

Lemma marked_slots_carry_the_flag_witness :
  exec cpu schedule grid = Some (outcome cpu) ∧
  (∀ i, i ∈ marked_slots (outcome cpu) →
        i ≠ QUEUE_EMPTY_SLOT ∧ has_cast_flag (device (outcome cpu)) i) ∧
  (well_formed grid = true → completed (outcome cpu) = true →
   ∀ i, i ∈ queue_cells (device (outcome cpu)) OUT (count_of (device grid) OUT)
              (count_of (device (outcome cpu)) OUT - count_of (device grid) OUT) →
        i ≠ QUEUE_EMPTY_SLOT ∧ has_cast_flag (device (outcome cpu)) i).
Proof.
  assert (He : exec cpu schedule grid = Some (outcome cpu))
    by (vm_compute; reflexivity).
  split; [exact He|].
  exact (marked_slots_carry_the_flag (X:=demo) cpu grid schedule (outcome cpu)
           eq_refl He).
Defined.

(** The first group while its first work-item has not run yet: its
    counter is 1, for slot 4. *)
Lemma counter_counts_marked_work_items_witness :
  let tr := take 14 schedule in
  let m := default grid (exec cpu tr grid) in
  let G := default (Build_Group [] 0 (fun _ => 0%Z) 0 PhEntry)
             (groups m !! 0) in
  exec cpu tr grid = Some m ∧
  groups m !! 0 = Some G ∧ phase G = PhLocal ∧
  omap marked (threads G) = [4%Z] ∧
  local_queue_atomics G = length (omap marked (threads G)).
Proof.
  intros tr m G.
  assert (He : exec cpu tr grid = Some m) by (vm_compute; reflexivity).
  assert (Hg : groups m !! 0 = Some G) by (vm_compute; reflexivity).
  assert (Hp : phase G = PhLocal) by (vm_compute; reflexivity).
  assert (Hm : omap marked (threads G) = [4%Z]) by (vm_compute; reflexivity).
  split; [exact He|]. split; [exact Hg|]. split; [exact Hp|].
  split; [exact Hm|].
  exact (counter_counts_marked_work_items (X:=demo) cpu grid tr m 0 G
           eq_refl eq_refl He Hg (or_introl Hp)).
Defined.

Lemma schedule_length_bounded_witness :
  exec cpu schedule grid = Some (outcome cpu) ∧
  length schedule + remaining (outcome cpu) ≤ remaining grid.
Proof.
  assert (He : exec cpu schedule grid = Some (outcome cpu))
    by (vm_compute; reflexivity).
  split; [exact He|].
  exact (schedule_length_bounded (X:=demo) cpu grid schedule (outcome cpu) He).
Defined.

(** The second group has run and reserved while the first work-item of
    the first group has not yet run. *)
Lemma barriers_separate_the_stages_witness :
  let tr := take 15 schedule in
  let m := default grid (exec cpu tr grid) in
  let G := default (Build_Group [] 0 (fun _ => 0%Z) 0 PhEntry)
             (groups m !! 0) in
  let t := default (thread 0 0) (threads G !! 2) in
  let t' := default (thread 0 0) (threads G !! 0) in
  exec cpu tr grid = Some m ∧ groups m !! 0 = Some G ∧
  threads G !! 2 = Some t ∧ threads G !! 0 = Some t' ∧
  (ran t = true → t_pc t' ≠ AtEntry) ∧
  (∀ c o, t_pc t = Finished c o → ran t' = true).
Proof.
  intros tr m G t t'.
  assert (He : exec cpu tr grid = Some m) by (vm_compute; reflexivity).
  assert (Hg : groups m !! 0 = Some G) by (vm_compute; reflexivity).
  assert (Ht : threads G !! 2 = Some t) by (vm_compute; reflexivity).
  assert (Ht' : threads G !! 0 = Some t') by (vm_compute; reflexivity).
  split_and!; [exact He|exact Hg|exact Ht|exact Ht'|..];
    apply (barriers_separate_the_stages (X:=demo) cpu grid tr m 0 G t t'
             eq_refl eq_refl He Hg
             (list_elem_of_lookup_2 _ _ _ Ht) (list_elem_of_lookup_2 _ _ _ Ht')).
Defined.

(** The schedule against the one that takes the groups and the work-items
    in their order. *)
Lemma round_result_is_schedule_independent_witness :
  let tr2 := [ Enter 0 0; Enter 0 1; Enter 0 2; Enter 1 0; Enter 1 1; Enter 1 2;
               Barrier0 0; Barrier0 1;
               Run 0 0; Run 0 1; Run 0 2; Run 1 0; Run 1 1; Run 1 2;
               Barrier1 0; Barrier1 1; Reserve 0; Reserve 1;
               Barrier2 0; Barrier2 1; Copy 0 0; Copy 0 2; Copy 1 1 ] in
  let m2 := default grid (exec cpu tr2 grid) in
  distinct_slots grid ∧
  exec cpu schedule grid = Some (outcome cpu) ∧
  exec cpu tr2 grid = Some m2 ∧
  completed (outcome cpu) = true ∧ completed m2 = true ∧
  (∀ j, same_slot j (device (outcome cpu)) (device m2)) ∧
  marked_slots (outcome cpu) = marked_slots m2 ∧
  (well_formed grid = true →
   count_of (device (outcome cpu)) OUT = count_of (device m2) OUT ∧
   queue_cells (device (outcome cpu)) OUT (count_of (device grid) OUT)
     (length (marked_slots (outcome cpu)))
   ≡ₚ queue_cells (device m2) OUT (count_of (device grid) OUT)
        (length (marked_slots m2))).
Proof.
  intros tr2 m2.
  assert (Hnd : distinct_slots grid).
  { refine (bool_decide_eq_true_1 _ _). vm_compute. reflexivity. }
  assert (He1 : exec cpu schedule grid = Some (outcome cpu))
    by (vm_compute; reflexivity).
  assert (He2 : exec cpu tr2 grid = Some m2) by (vm_compute; reflexivity).
  assert (Hc1 : completed (outcome cpu) = true) by (vm_compute; reflexivity).
  assert (Hc2 : completed m2 = true) by (vm_compute; reflexivity).
  split_and!; [exact Hnd|exact He1|exact He2|exact Hc1|exact Hc2|..];
    apply (round_result_is_schedule_independent (X:=demo) cpu grid schedule tr2
             (outcome cpu) m2 eq_refl Hnd He1 He2 Hc1 Hc2).
Defined.

End Instance.
